(** * Quizzer: the response parsers, the content preprocessor and the retry policy

    A shallow embedding of
      - server/quiz/parser.ts            (module [QuizParser]),
      - the response evaluation service  (modules [Evaluation], [FollowUp]
                                          and [EvaluationCache]),
      - sanitizeInput of the prompts     (module [Prompts]),
      - the content preprocessor         (modules [Preprocessor] and
                                          [Truncation]),
      - server/claude/tokens.ts          (modules [Tokens] and [Messages]),
      - the errors and replies of the API, calculateBackoff and the retry
        loop of the client               (modules [Errors], [Retry] and
                                          [Client]),
      - the storage of the quizzes       (module [QuizStorage]),
    over a model of the JavaScript runtime pieces they use: strings of
    UTF-16 code units, regular expressions with the backtracking
    semantics of ECMAScript, and JSON.parse.

    What the model leaves out.  Numbers are exact decimals and rationals:
    the rounding of binary64 is not modelled.  Case mapping and the
    character classes cover the code units the patterns of the source
    name; the clock is one reading [now] that the caller passes in;
    Math.random is an argument; what truncateContent does with content
    over the limit is a parameter of [Preprocessor], and [Truncation]
    gives it as the source has it.  The call of the API is an argument
    of the retry loop, and so is whether a call of chrome.storage.local
    resolves. *)

From Stdlib Require Import String Ascii DecimalString.
From Stdlib Require Import NArith ZArith QArith Qround Qminmax Qpower Bool Lia Lqa List.
From Stdlib Require Import Sorted Permutation.
Import ListNotations.
Close Scope Q_scope.

Set Warnings "-register-all".

(* ================================================================== *)
(** * Outcomes of running a piece of JavaScript *)
(* ================================================================== *)

Module Outcome.

(** What a [throw] carries.  The two native errors the code can meet are
    those of JSON.parse and of a call on a value that is no function;
    [WrappedError p e] is [new Error(p + e.message)]. *)
Inductive exn :=
| SyntaxError
| TypeError
| WrappedError (prefix : list N) (cause : exn).

(** A computation returns, throws, or runs forever (a [while] loop over
    [RegExp.exec] whose match is empty never advances). *)
Inductive outcome (A : Type) :=
| Returns (a : A)
| Throws (e : exn)
| Diverges.

Arguments Returns {A} a.
Arguments Throws {A} e.
Arguments Diverges {A}.

Definition bind {A B} (c : outcome A) (f : A -> outcome B) : outcome B :=
  match c with
  | Returns a => f a
  | Throws e => Throws e
  | Diverges => Diverges
  end.

(** [try { body } catch (error) { handler }] *)
Definition try_catch {A} (body : outcome A) (handler : exn -> outcome A) : outcome A :=
  match body with
  | Throws e => handler e
  | other => other
  end.

Fixpoint mapM {A B} (f : A -> outcome B) (l : list A) : outcome (list B) :=
  match l with
  | [] => Returns []
  | a :: l' => bind (f a) (fun b => bind (mapM f l') (fun bs => Returns (b :: bs)))
  end.

Definition returns {A} (c : outcome A) : Prop := exists a, c = Returns a.

End Outcome.
Import Outcome.

Declare Scope js_scope.
Delimit Scope js_scope with js_monad.
Notation "x <- c ;; k" := (bind c (fun x => k))
  (at level 61, c at next level, right associativity) : js_scope.
Open Scope js_scope.

(* ================================================================== *)
(** * Strings *)
(* ================================================================== *)

Module JsString.

(** A JavaScript string is a sequence of UTF-16 code units. *)
Definition jsstring := list N.

(** The string written [s] in the source. *)
Definition js (s : string) : jsstring := map N_of_ascii (list_ascii_of_string s).

(** The code unit written [c] in the source. *)
Definition ch (c : string) : N :=
  match c with
  | String a _ => N_of_ascii a
  | EmptyString => 0%N
  end.

Definition LF : N := 10%N.
Definition CR : N := 13%N.

Definition between (lo hi c : N) : bool := (lo <=? c)%N && (c <=? hi)%N.

Fixpoint eqb (a b : jsstring) : bool :=
  match a, b with
  | [], [] => true
  | x :: a', y :: b' => (x =? y)%N && eqb a' b'
  | _, _ => false
  end.

(** LineTerminator: LF, CR, U+2028, U+2029. *)
Definition is_line_terminator (c : N) : bool :=
  (c =? 10)%N || (c =? 13)%N || (c =? 8232)%N || (c =? 8233)%N.

(** WhiteSpace and LineTerminator together: what [\s] matches and what
    [trim] strips. *)
Definition is_space (c : N) : bool :=
  between 9 13 c || (c =? 32)%N || (c =? 160)%N || (c =? 5760)%N
  || between 8192 8202 c || (c =? 8232)%N || (c =? 8233)%N
  || (c =? 8239)%N || (c =? 8287)%N || (c =? 12288)%N || (c =? 65279)%N.

Definition is_digit (c : N) : bool := between 48 57 c.
Definition is_upper (c : N) : bool := between 65 90 c.
Definition is_lower (c : N) : bool := between 97 122 c.
(** [\w] *)
Definition is_word (c : N) : bool :=
  is_upper c || is_lower c || is_digit c || (c =? 95)%N.

Definition ascii_upper (c : N) : N := if is_lower c then (c - 32)%N else c.
Definition ascii_lower (c : N) : N := if is_upper c then (c + 32)%N else c.

Fixpoint drop_while (p : N -> bool) (s : jsstring) : jsstring :=
  match s with
  | [] => []
  | c :: s' => if p c then drop_while p s' else s
  end.

Definition trimStart (s : jsstring) : jsstring := drop_while is_space s.
Definition trimEnd (s : jsstring) : jsstring := rev (drop_while is_space (rev s)).
Definition trim (s : jsstring) : jsstring := trimEnd (trimStart s).

(** [toLowerCase] on Basic Latin and Latin-1, and on the two code points
    outside them whose lower case contains a Basic Latin letter (U+0130,
    U+212A).  Other code units are left as they are: the parsers only
    search lowercased text for Basic Latin words. *)
Definition lower_unit (c : N) : list N :=
  if is_upper c then [(c + 32)%N]
  else if between 192 222 c && negb (c =? 215)%N then [(c + 32)%N]
  else if (c =? 304)%N then [105%N; 775%N]
  else if (c =? 8490)%N then [107%N]
  else [c].

Definition toLowerCase (s : jsstring) : jsstring := flat_map lower_unit s.

(** [toUpperCase] on Basic Latin and Latin-1; the code only applies it to
    a string that starts with a letter among a-d, A-D and reads the first
    code unit of the result. *)
Definition upper_unit (c : N) : list N :=
  if is_lower c then [(c - 32)%N]
  else if between 224 254 c && negb (c =? 247)%N then [(c - 32)%N]
  else if (c =? 223)%N then [83%N; 83%N]
  else if (c =? 181)%N then [924%N]
  else if (c =? 255)%N then [376%N]
  else [c].

Definition toUpperCase (s : jsstring) : jsstring := flat_map upper_unit s.

Fixpoint starts_with (p s : jsstring) : bool :=
  match p, s with
  | [], _ => true
  | x :: p', y :: s' => (x =? y)%N && starts_with p' s'
  | _ :: _, [] => false
  end.

(** [s.includes(needle)] *)
Fixpoint includes (s needle : jsstring) : bool :=
  starts_with needle s ||
  match s with
  | [] => false
  | _ :: s' => includes s' needle
  end.

Fixpoint index_from (s needle : jsstring) (i : nat) : option nat :=
  if starts_with needle s then Some i
  else match s with
       | [] => None
       | _ :: s' => index_from s' needle (S i)
       end.

(** [s.indexOf(needle)], -1 when absent *)
Definition indexOf (s needle : jsstring) : Z :=
  match index_from s needle 0 with
  | Some i => Z.of_nat i
  | None => (-1)%Z
  end.

(** [s.substring(a, b)] for integers [a], [b]: both are clamped to
    [0..length] and swapped when out of order. *)
Definition substring (s : jsstring) (a b : Z) : jsstring :=
  let n := Z.of_nat (length s) in
  let a' := Z.min (Z.max a 0) n in
  let b' := Z.min (Z.max b 0) n in
  let lo := Z.to_nat (Z.min a' b') in
  let hi := Z.to_nat (Z.max a' b') in
  firstn (hi - lo) (skipn lo s).

(** [s.substring(a)] *)
Definition substring_from (s : jsstring) (a : Z) : jsstring :=
  substring s a (Z.of_nat (length s)).

(** The code units from [lo] (included) to [hi] (excluded). *)
Definition slice (s : jsstring) (lo hi : nat) : jsstring :=
  firstn (hi - lo) (skipn lo s).

(** [s.split(sep)] for a separator of one code unit; never empty. *)
Fixpoint split_on (sep : N) (s : jsstring) : list jsstring :=
  match s with
  | [] => [[]]
  | c :: s' =>
      if (c =? sep)%N then [] :: split_on sep s'
      else match split_on sep s' with
           | [] => [[c]]
           | w :: ws => (c :: w) :: ws
           end
  end.

(** [parts.join(sep)] *)
Fixpoint join (sep : jsstring) (parts : list jsstring) : jsstring :=
  match parts with
  | [] => []
  | [p] => p
  | p :: ps => p ++ sep ++ join sep ps
  end.

(** [s.charCodeAt(0)]; [None] stands for NaN. *)
Definition charCodeAt0 (s : jsstring) : option N := hd_error s.

(** Decimal digits of a natural number, as a string. *)
Definition of_N (n : N) : jsstring :=
  js (NilZero.string_of_uint (N.to_uint n)).

Definition of_nat (n : nat) : jsstring := of_N (N.of_nat n).

End JsString.
Import JsString.

(* ================================================================== *)
(** * Regular expressions *)
(* ================================================================== *)

(** The patterns of the source are quoted next to their terms; where the
    text of a pattern would end the comment, the quotation is cut in two
    at that place. *)

Module Regex.

(** One member of a character class. *)
Inductive class_item :=
| CChar (c : N)             (* a code unit *)
| CRange (lo hi : N)        (* lo-hi *)
| CSpace                    (* \s *)
| CNotSpace                 (* \S *)
| CDigit.                   (* \d *)

(** Patterns, as the ECMAScript grammar has them.  Capture groups carry
    their number (from 1, in the order of their opening parenthesis). *)
Inductive regex :=
| REmpty
| RChar (c : N)
| RAny                                         (* . *)
| RClass (negated : bool) (items : list class_item)
| RSeq (r1 r2 : regex)
| RAlt (r1 r2 : regex)
| RRepeat (min : nat) (max : option nat) (greedy : bool) (r : regex)
| RGroup (n : nat) (r : regex)                 (* ( r ) *)
| RLookahead (negative : bool) (r : regex)     (* (?= r ), (?! r ) *)
| RBol                                         (* ^ *)
| REol                                         (* $ *)
| RWordBoundary.                               (* \b *)

Record flags := { ignoreCase : bool; multiline : bool; dotAll : bool }.

Definition no_flags := {| ignoreCase := false; multiline := false; dotAll := false |}.
Definition flag_i := {| ignoreCase := true; multiline := false; dotAll := false |}.
Definition flag_m := {| ignoreCase := false; multiline := true; dotAll := false |}.
Definition flag_is := {| ignoreCase := true; multiline := false; dotAll := true |}.

(** ** Writing patterns *)

Fixpoint seq (rs : list regex) : regex :=
  match rs with
  | [] => REmpty
  | [r] => r
  | r :: rs' => RSeq r (seq rs')
  end.

Fixpoint alt (rs : list regex) : regex :=
  match rs with
  | [] => REmpty
  | [r] => r
  | r :: rs' => RAlt r (alt rs')
  end.

(** A run of literal characters. *)
Definition lit (s : string) : regex := seq (map RChar (js s)).

Definition star (r : regex) : regex := RRepeat 0 None true r.        (* r*  *)
Definition plus (r : regex) : regex := RRepeat 1 None true r.        (* r+  *)
Definition opt (r : regex) : regex := RRepeat 0 (Some 1) true r.     (* r?  *)
Definition lazy_star (r : regex) : regex := RRepeat 0 None false r.  (* r*? *)
Definition lazy_plus (r : regex) : regex := RRepeat 1 None false r.  (* r+? *)
Definition times (lo hi : nat) (r : regex) : regex := RRepeat lo (Some hi) true r.  (* r{lo,hi} *)

Definition space : regex := RClass false [CSpace].                   (* \s *)
Definition digit : regex := RClass false [CDigit].                   (* \d *)
Definition anything : regex := RClass false [CSpace; CNotSpace].     (* [\s\S] *)
Definition one_of (s : string) : regex := RClass false (map CChar (js s)).
Definition none_of (s : string) : regex := RClass true (map CChar (js s)).
Definition range (lo hi : string) : class_item := CRange (ch lo) (ch hi).

(** ** Matching *)

Definition item_matches (it : class_item) (c : N) : bool :=
  match it with
  | CChar a => (a =? c)%N
  | CRange lo hi => between lo hi c
  | CSpace => is_space c
  | CNotSpace => negb (is_space c)
  | CDigit => is_digit c
  end.

Definition in_class (items : list class_item) (c : N) : bool :=
  existsb (fun it => item_matches it c) items.

(** Canonicalize of the specification, without the [u] flag: a code unit
    is compared through its upper case.  Every pattern of this program
    under the [i] flag lists Basic Latin characters and caseless ones
    only, and a code unit from 128 on never canonicalizes below 128, so
    the Basic Latin case map decides every comparison. *)
Definition canonicalize (fl : flags) (c : N) : N :=
  if ignoreCase fl then ascii_upper c else c.

Definition char_matches (fl : flags) (a c : N) : bool :=
  (canonicalize fl a =? canonicalize fl c)%N.

Definition class_matches (fl : flags) (negated : bool) (items : list class_item) (c : N) : bool :=
  let found :=
    if ignoreCase fl
    then in_class items c || in_class items (ascii_upper c) || in_class items (ascii_lower c)
    else in_class items c in
  xorb negated found.

(** The capture groups opened inside a pattern. *)
Fixpoint groups (r : regex) : list nat :=
  match r with
  | RSeq r1 r2 | RAlt r1 r2 => groups r1 ++ groups r2
  | RRepeat _ _ _ r' | RLookahead _ r' => groups r'
  | RGroup n r' => n :: groups r'
  | _ => []
  end.

(** A state of the matcher: the end index and the captures, group [n] at
    index [n] (index 0 is unused) as a pair of start and end. *)
Record mstate := { pos : nat; caps : list (option (nat * nat)) }.

Definition cont := mstate -> option mstate.

Fixpoint set_nth {A} (n : nat) (v : A) (dflt : A) (l : list A) : list A :=
  match n, l with
  | 0, [] => [v]
  | 0, _ :: l' => v :: l'
  | S n', [] => dflt :: set_nth n' v dflt []
  | S n', a :: l' => a :: set_nth n' v dflt l'
  end.

Definition set_cap (n : nat) (v : option (nat * nat)) (x : mstate) : mstate :=
  {| pos := pos x; caps := set_nth n v None (caps x) |}.

Definition clear_caps (gs : list nat) (x : mstate) : mstate :=
  fold_left (fun y n => set_cap n None y) gs x.

Definition or_else (a : option mstate) (b : unit -> option mstate) : option mstate :=
  match a with
  | Some z => Some z
  | None => b tt
  end.

Section Matcher.
Variable fl : flags.
Variable input : jsstring.

Definition char_at (i : nat) : option N := nth_error input i.

Definition char_before (i : nat) : option N :=
  match i with
  | 0 => None
  | S j => nth_error input j
  end.

Definition step_if (p : N -> bool) (k : cont) (x : mstate) : option mstate :=
  match char_at (pos x) with
  | Some c => if p c then k {| pos := S (pos x); caps := caps x |} else None
  | None => None
  end.

Definition word_at (c : option N) : bool :=
  match c with
  | Some a => is_word a
  | None => false
  end.

Definition at_line_terminator (c : option N) : bool :=
  match c with
  | Some a => is_line_terminator a
  | None => false
  end.

(** RepeatMatcher of the specification.  [mr] matches the repeated
    pattern once; an iteration that is not required and matches the
    empty string is refused, so an optional iteration advances and the
    required ones count down: [min + length input] iterations at most
    can follow one another, and [fuel] starts above that. *)
Fixpoint repeat_matcher (mr : cont -> cont) (gs : list nat) (greedy : bool)
         (fuel : nat) (min : nat) (max : option nat) (k : cont) (x : mstate)
  : option mstate :=
  match fuel with
  | 0 => None
  | S fuel' =>
      match max with
      | Some 0 => k x
      | _ =>
          let d : cont := fun y =>
            if (min =? 0)%nat && (pos y =? pos x)%nat then None
            else repeat_matcher mr gs greedy fuel' (Nat.pred min) (option_map Nat.pred max) k y in
          let xr := clear_caps gs x in
          if negb (min =? 0)%nat then mr d xr
          else if greedy then or_else (mr d xr) (fun _ => k x)
          else or_else (k x) (fun _ => mr d xr)
      end
  end.

(** The matcher of a pattern: it runs the continuation [k] on every
    way the pattern can match from [x], in the order of the
    specification, and returns the first success. *)
Fixpoint matcher (r : regex) (k : cont) (x : mstate) {struct r} : option mstate :=
  match r with
  | REmpty => k x
  | RChar a => step_if (char_matches fl a) k x
  | RAny => step_if (fun c => dotAll fl || negb (is_line_terminator c)) k x
  | RClass negated items => step_if (class_matches fl negated items) k x
  | RSeq r1 r2 => matcher r1 (matcher r2 k) x
  | RAlt r1 r2 => or_else (matcher r1 k x) (fun _ => matcher r2 k x)
  | RRepeat min max greedy r' =>
      repeat_matcher (matcher r') (groups r') greedy (S (min + length input)) min max k x
  | RGroup n r' =>
      matcher r' (fun y => k (set_cap n (Some (pos x, pos y)) y)) x
  | RLookahead negative r' =>
      match matcher r' Some x with
      | Some y => if negative then None else k {| pos := pos x; caps := caps y |}
      | None => if negative then k x else None
      end
  | RBol =>
      if (pos x =? 0)%nat || (multiline fl && at_line_terminator (char_before (pos x)))
      then k x else None
  | REol =>
      if (pos x =? length input)%nat || (multiline fl && at_line_terminator (char_at (pos x)))
      then k x else None
  | RWordBoundary =>
      if xorb (word_at (char_before (pos x))) (word_at (char_at (pos x)))
      then k x else None
  end.

(** A match: where it starts, and the final state. *)
Record match_result := { m_start : nat; m_state : mstate }.

Definition m_end (m : match_result) : nat := pos (m_state m).

(** The pattern tried at index [i] only. *)
Definition match_at (r : regex) (i : nat) : option match_result :=
  match matcher r Some {| pos := i; caps := [] |} with
  | Some y => Some {| m_start := i; m_state := y |}
  | None => None
  end.

(** The leftmost match that starts at [i] or later, among the [n + 1]
    indices from [i] on. *)
Fixpoint search_from (r : regex) (n : nat) (i : nat) : option match_result :=
  match match_at r i with
  | Some m => Some m
  | None =>
      match n with
      | 0 => None
      | S n' => search_from r n' (S i)
      end
  end.

(** The matched text. *)
Definition matched (m : match_result) : jsstring := slice input (m_start m) (m_end m).

(** [match[n]]: [None] is [undefined]. *)
Definition capture (m : match_result) (n : nat) : option jsstring :=
  match nth_error (caps (m_state m)) n with
  | Some (Some (a, b)) => Some (slice input a b)
  | _ => None
  end.

(** [$n] in a replacement string: the empty string for no capture. *)
Definition capture_text (m : match_result) (n : nat) : jsstring :=
  match capture m n with
  | Some s => s
  | None => []
  end.

(** The scan that [replace] with a [g] pattern and [split] do: the
    indices [i], [i+1], ... are visited in turn, [n] of them.
    [last] is lastIndex: an index below it lies inside the match
    before.  [next] is where the text not yet copied starts. *)
Fixpoint replace_scan (r : regex) (repl : match_result -> jsstring)
         (n i last next : nat) : jsstring :=
  match n with
  | 0 => slice input next (length input)
  | S n' =>
      if (i <? last)%nat then replace_scan r repl n' (S i) last next
      else
        match match_at r i with
        | Some m =>
            let e := m_end m in
            slice input next i ++ repl m
              ++ replace_scan r repl n' (S i) (if (e =? i)%nat then S i else e) e
        | None => replace_scan r repl n' (S i) last next
        end
  end.

(** The matches a [while ((match = re.exec(input)) !== null)] loop
    goes through, for a [g] pattern; [None] when a match is empty: exec
    then leaves lastIndex where it is and the loop never ends. *)
Fixpoint exec_scan (r : regex) (n i last : nat) : option (list match_result) :=
  match n with
  | 0 => Some []
  | S n' =>
      if (i <? last)%nat then exec_scan r n' (S i) last
      else
        match match_at r i with
        | Some m =>
            if (m_end m =? i)%nat then None
            else option_map (cons m) (exec_scan r n' (S i) (m_end m))
        | None => exec_scan r n' (S i) last
        end
  end.

(** [split]: [q] runs over the indices below the length, [p] is the
    end of the separator before; a separator that ends at [p] (an empty
    one right after the one before) is passed over. *)
Fixpoint split_scan (r : regex) (n q last p : nat) : list jsstring :=
  match n with
  | 0 => [slice input p (length input)]
  | S n' =>
      if (q <? last)%nat then split_scan r n' (S q) last p
      else
        match match_at r q with
        | Some m =>
            let e := Nat.min (m_end m) (length input) in
            if (e =? p)%nat then split_scan r n' (S q) last p
            else slice input p q :: split_scan r n' (S q) e e
        | None => split_scan r n' (S q) last p
        end
  end.

End Matcher.

(** ** The methods of String and RegExp the program calls *)

(** [s.match(r)] and [r.exec(s)] for a pattern without the [g] flag. *)
Definition exec (fl : flags) (r : regex) (s : jsstring) : option match_result :=
  search_from fl s r (length s) 0.

(** [r.test(s)] *)
Definition test (fl : flags) (r : regex) (s : jsstring) : bool :=
  match exec fl r s with
  | Some _ => true
  | None => false
  end.

(** [s.search(r)] *)
Definition search (fl : flags) (r : regex) (s : jsstring) : Z :=
  match exec fl r s with
  | Some m => Z.of_nat (m_start m)
  | None => (-1)%Z
  end.

(** [s.replace(r, repl)] for a pattern with the [g] flag; [repl] gives
    the replacement text of a match. *)
Definition replace_all (fl : flags) (r : regex) (repl : match_result -> jsstring)
           (s : jsstring) : jsstring :=
  replace_scan fl s r repl (S (length s)) 0 0 0.

(** [s.replace(r, repl)] for a pattern without the [g] flag: the first
    match only. *)
Definition replace_first (fl : flags) (r : regex) (repl : match_result -> jsstring)
           (s : jsstring) : jsstring :=
  match exec fl r s with
  | Some m => slice s 0 (m_start m) ++ repl m ++ slice s (m_end m) (length s)
  | None => s
  end.

(** The matches of an exec loop over a [g] pattern, [None] when the loop
    does not end. *)
Definition exec_all (fl : flags) (r : regex) (s : jsstring) : option (list match_result) :=
  exec_scan fl s r (S (length s)) 0 0.

(** [s.split(r)] for a pattern without capture groups. *)
Definition split (fl : flags) (r : regex) (s : jsstring) : list jsstring :=
  match s with
  | [] => match match_at fl s r 0 with
          | Some _ => []
          | None => [[]]
          end
  | _ => split_scan fl s r (length s) 0 0 0
  end.

(** ** What a pattern tells before it runs *)

(** A lower bound on the length of a match. *)
Fixpoint min_len (r : regex) : nat :=
  match r with
  | RChar _ | RAny | RClass _ _ => 1
  | RSeq r1 r2 => min_len r1 + min_len r2
  | RAlt r1 r2 => Nat.min (min_len r1) (min_len r2)
  | RRepeat min max _ r' =>
      match max with
      | Some m => Nat.min min m
      | None => min
      end * min_len r'
  | RGroup _ r' => min_len r'
  | _ => 0
  end.

Definition mentions (n : nat) (r : regex) : bool :=
  existsb (Nat.eqb n) (groups r).

(** Groups that every match defines: those that a sequence goes
    through, outside of any alternative and repetition. *)
Fixpoint sure_groups (r : regex) : list nat :=
  match r with
  | RGroup n _ => [n]
  | RSeq r1 r2 => filter (fun n => negb (mentions n r2)) (sure_groups r1) ++ sure_groups r2
  | _ => []
  end.

(** [match[n]] where the code goes on to call a method on it: a capture
    that is undefined makes that call throw. *)
Definition group (s : jsstring) (m : match_result) (n : nat) : outcome jsstring :=
  match capture s m n with
  | Some t => Returns t
  | None => Throws TypeError
  end.

End Regex.
Import Regex.

(* ================================================================== *)
(** * Values and JSON.parse *)
(* ================================================================== *)

Module Json.

(** A number, as the decimal [mantissa * 10^exponent] that its literal
    denotes.  The rounding of the literal to a binary64 and the range of
    binary64 are not modelled. *)
Record number := { mantissa : Z; exponent : Z }.

Definition num_of_Z (z : Z) : number := {| mantissa := z; exponent := 0 |}.
Definition num_of_nat (n : nat) : number := num_of_Z (Z.of_nat n).
Definition num_is_zero (n : number) : bool := (mantissa n =? 0)%Z.

(** The values JSON.parse builds.  An object lists its own properties in
    the order Object.keys gives them. *)
Inductive json :=
| JNull
| JBool (b : bool)
| JNum (n : number)
| JStr (s : jsstring)
| JArr (elems : list json)
| JObj (props : list (jsstring * json)).

Definition object := list (jsstring * json).

(** ** Objects *)

Fixpoint lookup (o : object) (key : jsstring) : option json :=
  match o with
  | [] => None
  | (k, v) :: o' => if JsString.eqb k key then Some v else lookup o' key
  end.

Definition has_key (o : object) (key : jsstring) : bool :=
  match lookup o key with
  | Some _ => true
  | None => false
  end.

Definition digits_value (s : jsstring) : N :=
  fold_left (fun acc c => (acc * 10 + (c - 48))%N) s 0%N.

(** An array index: a canonical numeric string below 2^32 - 1.  Such
    keys come first among the properties, in ascending order. *)
Definition array_index (key : jsstring) : option N :=
  match key with
  | [] => None
  | c :: rest =>
      if forallb is_digit key && (negb (c =? 48)%N || match rest with [] => true | _ => false end)
         && (length key <=? 10)%nat && (digits_value key <? 4294967295)%N
      then Some (digits_value key)
      else None
  end.

(** A new property [key] takes its place after the array indices below
    it; a new property that is no array index goes last. *)
Fixpoint insert_index (o : object) (key : jsstring) (i : N) (v : json) : object :=
  match o with
  | [] => [(key, v)]
  | (k, w) :: o' =>
      match array_index k with
      | Some j => if (j <? i)%N then (k, w) :: insert_index o' key i v else (key, v) :: o
      | None => (key, v) :: o
      end
  end.

Fixpoint replace_value (o : object) (key : jsstring) (v : json) : object :=
  match o with
  | [] => []
  | (k, w) :: o' =>
      if JsString.eqb k key then (k, v) :: o' else (k, w) :: replace_value o' key v
  end.

(** CreateDataProperty: [key] becomes an own property with value [v]; a
    property that exists keeps its place. *)
Definition define (o : object) (key : jsstring) (v : json) : object :=
  if has_key o key then replace_value o key v
  else match array_index key with
       | Some i => insert_index o key i v
       | None => o ++ [(key, v)]
       end.

(** [o[key] = v] on an ordinary object whose prototype is
    Object.prototype: an own property, but for the key __proto__ not
    owned by [o], which is the accessor of the prototype and ignores a
    value that is neither an object nor null. *)
Definition assign (o : object) (key : jsstring) (v : json) : object :=
  if JsString.eqb key (js "__proto__") && negb (has_key o key)
  then o
  else define o key v.

(** [v.key] for a key that Object.prototype, Array.prototype and
    String.prototype do not have and that is no index and not "length":
    the own property of an object, [undefined] (here [None]) on every
    other value but null, on which the code never reads. *)
Definition get (v : json) (key : string) : option json :=
  match v with
  | JObj o => lookup o (js key)
  | _ => None
  end.

(** [v?.key] on a value that may be undefined *)
Definition get_opt (v : option json) (key : string) : option json :=
  match v with
  | Some w => get w key
  | None => None
  end.

(** ToBoolean; [None] is undefined. *)
Definition truthy (v : option json) : bool :=
  match v with
  | None | Some JNull => false
  | Some (JBool b) => b
  | Some (JNum n) => negb (num_is_zero n)
  | Some (JStr s) => match s with [] => false | _ => true end
  | Some (JArr _) | Some (JObj _) => true
  end.

(** [{...v}]: the own enumerable properties of [v], in order. *)
Fixpoint indexed {A} (f : A -> json) (l : list A) (i : nat) : object :=
  match l with
  | [] => []
  | a :: l' => (of_nat i, f a) :: indexed f l' (S i)
  end.

Definition spread (v : option json) : object :=
  match v with
  | Some (JObj o) => o
  | Some (JArr l) => indexed (fun x => x) l 0
  | Some (JStr s) => indexed (fun c => JStr [c]) s 0
  | _ => []
  end.

(** ** Number to string *)

Definition strip_trailing_zeros (ds : jsstring) : jsstring :=
  rev (drop_while (fun c => (c =? 48)%N) (rev ds)).

Definition zeros (n : nat) : jsstring := repeat 48%N n.

Definition exponent_text (e : Z) : jsstring :=
  (if (e <? 0)%Z then js "e-" else js "e+") ++ of_N (Z.abs_N e).

(** Number::toString for radix 10, on the decimal: [ds] are the [k]
    significant digits and the value is [0.ds * 10^n]. *)
Definition number_to_string (x : number) : jsstring :=
  if num_is_zero x then js "0" else
  let all := of_N (Z.abs_N (mantissa x)) in
  let ds := strip_trailing_zeros all in
  let k := Z.of_nat (length ds) in
  let n := (Z.of_nat (length all) + exponent x)%Z in
  let sign := if (mantissa x <? 0)%Z then js "-" else [] in
  sign ++
  if (k <=? n)%Z && (n <=? 21)%Z then ds ++ zeros (Z.to_nat (n - k))
  else if (0 <? n)%Z && (n <=? 21)%Z
       then firstn (Z.to_nat n) ds ++ js "." ++ skipn (Z.to_nat n) ds
  else if (-6 <? n)%Z && (n <=? 0)%Z then js "0." ++ zeros (Z.to_nat (- n)) ++ ds
  else match ds with
       | [d] => [d] ++ exponent_text (n - 1)
       | d :: more => [d] ++ js "." ++ more ++ exponent_text (n - 1)
       | [] => []
       end.

(** [String(v)].  An object that owns a property toString has a value
    there that cannot be called, and then no primitive comes out of
    valueOf either: TypeError.  An array is its elements joined by a
    comma, null as the empty string. *)
Fixpoint to_string (v : json) : outcome jsstring :=
  match v with
  | JNull => Returns (js "null")
  | JBool true => Returns (js "true")
  | JBool false => Returns (js "false")
  | JNum n => Returns (number_to_string n)
  | JStr s => Returns s
  | JObj o => if has_key o (js "toString") then Throws TypeError
              else Returns (js "[object Object]")
  | JArr l =>
      let fix elems (l : list json) : outcome (list jsstring) :=
        match l with
        | [] => Returns []
        | JNull :: l' => bind (elems l') (fun ss => Returns ([] :: ss))
        | x :: l' => bind (to_string x) (fun s => bind (elems l') (fun ss => Returns (s :: ss)))
        end in
      bind (elems l) (fun ss => Returns (join (js ",") ss))
  end.

(** ** JSON.parse: tokens *)

Inductive token :=
| TLBrace | TRBrace | TLBracket | TRBracket | TColon | TComma
| TString (s : jsstring)
| TNumber (n : number)
| TTrue | TFalse | TNull.

Fixpoint span (p : N -> bool) (s : jsstring) : jsstring * jsstring :=
  match s with
  | [] => ([], [])
  | c :: s' => if p c then let (a, b) := span p s' in (c :: a, b) else ([], s)
  end.

Definition digits_Z (s : jsstring) : Z := Z.of_N (digits_value s).

(** The exponent part of a number: [e] or [E], a sign, digits. *)
Definition number_exponent (s : jsstring) : option Z :=
  match s with
  | [] => Some 0%Z
  | c :: s1 =>
      if (c =? 101)%N || (c =? 69)%N then
        let (negative, s2) :=
          match s1 with
          | d :: s2 => if (d =? 45)%N then (true, s2)
                       else if (d =? 43)%N then (false, s2) else (false, s1)
          | [] => (false, s1)
          end in
        match s2 with
        | [] => None
        | _ => if forallb is_digit s2
               then Some (if negative then (- digits_Z s2)%Z else digits_Z s2)
               else None
        end
      else None
  end.

(** JSONNumber: an optional minus; 0, or digits that do not start with 0;
    an optional fraction; an optional exponent. *)
Definition number_of_literal (s : jsstring) : option number :=
  let (negative, s1) :=
    match s with
    | c :: s1 => if (c =? 45)%N then (true, s1) else (false, s)
    | [] => (false, s)
    end in
  let (int, s2) := span is_digit s1 in
  match int with
  | [] => None
  | d :: more =>
      if (d =? 48)%N && match more with [] => false | _ => true end then None
      else
        let frac_rest :=
          match s2 with
          | c :: s3 =>
              if (c =? 46)%N
              then let (frac, s4) := span is_digit s3 in
                   match frac with
                   | [] => None
                   | _ => Some (frac, s4)
                   end
              else Some ([], s2)
          | [] => Some ([], s2)
          end in
        match frac_rest with
        | None => None
        | Some (frac, s4) =>
            match number_exponent s4 with
            | None => None
            | Some e =>
                let m := digits_Z (int ++ frac) in
                Some {| mantissa := if negative then (- m)%Z else m;
                        exponent := (e - Z.of_nat (length frac))%Z |}
            end
        end
  end.

Inductive lex_mode :=
| LNormal
| LString (rev_text : jsstring)
| LEscape (rev_text : jsstring)
| LUnicode (rev_text : jsstring) (todo : nat) (value : N)
| LNumber (rev_text : jsstring)
| LWord (rev_text : jsstring).

Definition lex_state := (lex_mode * list token)%type.

Definition hex_value (c : N) : option N :=
  if is_digit c then Some (c - 48)%N
  else if between 97 102 c then Some (c - 87)%N
  else if between 65 70 c then Some (c - 55)%N
  else None.

(** JSON white space: tab, line feed, carriage return, space. *)
Definition json_space (c : N) : bool :=
  (c =? 9)%N || (c =? 10)%N || (c =? 13)%N || (c =? 32)%N.

Definition number_char (c : N) : bool :=
  is_digit c || (c =? 43)%N || (c =? 45)%N || (c =? 46)%N || (c =? 101)%N || (c =? 69)%N.

Definition normal_step (c : N) (toks : list token) : option lex_state :=
  if json_space c then Some (LNormal, toks)
  else if (c =? 123)%N then Some (LNormal, TLBrace :: toks)
  else if (c =? 125)%N then Some (LNormal, TRBrace :: toks)
  else if (c =? 91)%N then Some (LNormal, TLBracket :: toks)
  else if (c =? 93)%N then Some (LNormal, TRBracket :: toks)
  else if (c =? 58)%N then Some (LNormal, TColon :: toks)
  else if (c =? 44)%N then Some (LNormal, TComma :: toks)
  else if (c =? 34)%N then Some (LString [], toks)
  else if is_digit c || (c =? 45)%N then Some (LNumber [c], toks)
  else if is_lower c then Some (LWord [c], toks)
  else None.

Definition close_number (rev_text : jsstring) (toks : list token) : option (list token) :=
  match number_of_literal (rev rev_text) with
  | Some n => Some (TNumber n :: toks)
  | None => None
  end.

Definition close_word (rev_text : jsstring) (toks : list token) : option (list token) :=
  let w := rev rev_text in
  if JsString.eqb w (js "true") then Some (TTrue :: toks)
  else if JsString.eqb w (js "false") then Some (TFalse :: toks)
  else if JsString.eqb w (js "null") then Some (TNull :: toks)
  else None.

(** The character a backslash escape stands for: quotation mark,
    backslash, slash, then b, f, n, r and t. *)
Definition escaped (c : N) : option N :=
  if (c =? 34)%N then Some 34%N
  else if (c =? 92)%N then Some 92%N
  else if (c =? 47)%N then Some 47%N
  else if (c =? 98)%N then Some 8%N
  else if (c =? 102)%N then Some 12%N
  else if (c =? 110)%N then Some 10%N
  else if (c =? 114)%N then Some 13%N
  else if (c =? 116)%N then Some 9%N
  else None.

Definition lex_step (st : lex_state) (c : N) : option lex_state :=
  let (mode, toks) := st in
  match mode with
  | LNormal => normal_step c toks
  | LString t =>
      if (c =? 34)%N then Some (LNormal, TString (rev t) :: toks)
      else if (c =? 92)%N then Some (LEscape t, toks)
      else if (c <? 32)%N then None
      else Some (LString (c :: t), toks)
  | LEscape t =>
      if (c =? 117)%N then Some (LUnicode t 4 0%N, toks)
      else match escaped c with
           | Some e => Some (LString (e :: t), toks)
           | None => None
           end
  | LUnicode t todo v =>
      match hex_value c with
      | Some d =>
          let v' := (v * 16 + d)%N in
          match todo with
          | 0 | 1 => Some (LString (v' :: t), toks)
          | S todo' => Some (LUnicode t todo' v', toks)
          end
      | None => None
      end
  | LNumber t =>
      if number_char c then Some (LNumber (c :: t), toks)
      else match close_number t toks with
           | Some toks' => normal_step c toks'
           | None => None
           end
  | LWord t =>
      if is_lower c then Some (LWord (c :: t), toks)
      else match close_word t toks with
           | Some toks' => normal_step c toks'
           | None => None
           end
  end.

Fixpoint lex (st : lex_state) (s : jsstring) : option (list token) :=
  match s with
  | c :: s' =>
      match lex_step st c with
      | Some st' => lex st' s'
      | None => None
      end
  | [] =>
      let (mode, toks) := st in
      match mode with
      | LNormal => Some (rev toks)
      | LNumber t => option_map (@rev token) (close_number t toks)
      | LWord t => option_map (@rev token) (close_word t toks)
      | _ => None
      end
  end.

(** ** JSON.parse: values *)

(** A container that waits for the value being read. *)
Inductive frame :=
| FArr (rev_elems : list json)
| FObj (props : object) (key : jsstring).

Inductive parse_state :=
| PValue (stack : list frame)
| PArrStart (stack : list frame)
| PAfterElem (rev_elems : list json) (stack : list frame)
| PObjStart (stack : list frame)
| PKey (props : object) (stack : list frame)
| PColon (props : object) (key : jsstring) (stack : list frame)
| PAfterMember (props : object) (stack : list frame)
| PDone (v : json).

Definition deliver (v : json) (stack : list frame) : parse_state :=
  match stack with
  | [] => PDone v
  | FArr es :: stack' => PAfterElem (v :: es) stack'
  | FObj props key :: stack' => PAfterMember (define props key v) stack'
  end.

Definition value_token (t : token) (stack : list frame) : option parse_state :=
  match t with
  | TString s => Some (deliver (JStr s) stack)
  | TNumber n => Some (deliver (JNum n) stack)
  | TTrue => Some (deliver (JBool true) stack)
  | TFalse => Some (deliver (JBool false) stack)
  | TNull => Some (deliver JNull stack)
  | TLBracket => Some (PArrStart stack)
  | TLBrace => Some (PObjStart stack)
  | _ => None
  end.

Definition parse_step (st : parse_state) (t : token) : option parse_state :=
  match st with
  | PValue stack => value_token t stack
  | PArrStart stack =>
      match t with
      | TRBracket => Some (deliver (JArr []) stack)
      | _ => value_token t (FArr [] :: stack)
      end
  | PAfterElem es stack =>
      match t with
      | TComma => Some (PValue (FArr es :: stack))
      | TRBracket => Some (deliver (JArr (rev es)) stack)
      | _ => None
      end
  | PObjStart stack =>
      match t with
      | TRBrace => Some (deliver (JObj []) stack)
      | TString k => Some (PColon [] k stack)
      | _ => None
      end
  | PKey props stack =>
      match t with
      | TString k => Some (PColon props k stack)
      | _ => None
      end
  | PColon props k stack =>
      match t with
      | TColon => Some (PValue (FObj props k :: stack))
      | _ => None
      end
  | PAfterMember props stack =>
      match t with
      | TComma => Some (PKey props stack)
      | TRBrace => Some (deliver (JObj props) stack)
      | _ => None
      end
  | PDone _ => None
  end.

Fixpoint parse_tokens (st : parse_state) (ts : list token) : option json :=
  match ts with
  | t :: ts' =>
      match parse_step st t with
      | Some st' => parse_tokens st' ts'
      | None => None
      end
  | [] =>
      match st with
      | PDone v => Some v
      | _ => None
      end
  end.

(** [JSON.parse(text)]: the value, or SyntaxError. *)
Definition parse (text : jsstring) : outcome json :=
  match lex (LNormal, []) text with
  | Some ts =>
      match parse_tokens (PValue []) ts with
      | Some v => Returns v
      | None => Throws SyntaxError
      end
  | None => Throws SyntaxError
  end.

End Json.
Import Json.

(* ================================================================== *)
(** * server/quiz/parser.ts *)
(* ================================================================== *)

Module QuizParser.

(** QuizQuestion['type'] *)
Inductive QuestionType := multiple_choice | open_ended | true_false | fill_in_blank.

(** An absent optional property is [None]. *)
Record QuizQuestion := {
  id : number;
  type : QuestionType;
  text : jsstring;
  options : option (list jsstring);
  correctAnswer : jsstring;
  explanation : option jsstring
}.

Record Quiz := {
  questions : list QuizQuestion;
  metadata : option object;
  error : option jsstring
}.

Record ParsingOptions := {
  validateQuestions : option bool;
  requireExplanations : option bool;
  normalizeAnswers : option bool
}.

(** [{}] *)
Definition no_options : ParsingOptions :=
  {| validateQuestions := None; requireExplanations := None; normalizeAnswers := None |}.

(** A destructuring default: [value = dflt] *)
Definition default {A} (dflt : A) (v : option A) : A :=
  match v with
  | Some a => a
  | None => dflt
  end.

(** [new Date().toISOString()] is the argument [now] of the functions
    below. *)
Definition generated_at (now : jsstring) : object := [(js "generatedAt", JStr now)].

(** ** normalizeQuestionType *)

Definition normalizeQuestionType (type : jsstring) : QuestionType :=
  let lowerType := toLowerCase type in
  if includes lowerType (js "multiple") || includes lowerType (js "choice") then multiple_choice
  else if includes lowerType (js "true") && includes lowerType (js "false") then true_false
  else if includes lowerType (js "fill") && includes lowerType (js "blank") then fill_in_blank
  else open_ended.

(** normalizeQuestionType on a value of any shape, as normalizeQuestion
    calls it: a value that is no string has no method toLowerCase. *)
Definition normalizeQuestionType_any (type : json) : outcome QuestionType :=
  match type with
  | JStr s => Returns (normalizeQuestionType s)
  | _ => Throws TypeError
  end.

(** ** normalizeQuestion *)

Definition is_object (v : json) : bool :=    (* typeof v === 'object' *)
  match v with
  | JNull | JArr _ | JObj _ => true
  | _ => false
  end.

Definition trimmed_string (v : json) : outcome jsstring :=   (* String(v).trim() *)
  s <- to_string v ;; Returns (trim s).

Definition normalizeQuestion (question : json) : outcome (option QuizQuestion) :=
  if negb (truthy (Some question)) || negb (is_object question) then Returns None
  else
    match get question "text" with
    | Some (JStr ((_ :: _) as question_text)) =>
        let id_ := match get question "id" with
                   | Some (JNum n) => n
                   | _ => num_of_Z 0
                   end in
        type_ <- normalizeQuestionType_any
                   (match get question "type" with
                    | Some t => if truthy (Some t) then t else JStr (js "open_ended")
                    | None => JStr (js "open_ended")
                    end) ;;
        options_ <- match get question "options" with
                    | Some (JArr ((_ :: _) as opts)) =>
                        os <- mapM trimmed_string opts ;; Returns (Some os)
                    | _ => Returns None
                    end ;;
        Returns (Some {|
          id := id_;
          type := type_;
          text := trim question_text;
          options := options_;
          correctAnswer := match get question "correctAnswer" with
                           | Some (JStr a) => trim a
                           | _ => []
                           end;
          explanation := match get question "explanation" with
                         | Some (JStr e) =>
                             if (0 <? length (trim e))%nat then Some (trim e) else None
                         | _ => None
                         end |})
    | _ => Returns None
    end.

(** The elements that are not null. *)
Fixpoint somes {A} (l : list (option A)) : list A :=
  match l with
  | [] => []
  | Some a :: l' => a :: somes l'
  | None :: l' => somes l'
  end.

(** ** parseJSONResponse *)

(** "/```(?:json)?\s*({[\s\S]*?})\s*```/" *)
Definition fenced_json : regex :=
  seq [lit "```"; opt (lit "json"); star space;
       RGroup 1 (seq [lit "{"; lazy_star anything; lit "}"]);
       star space; lit "```"].

(** "/\/\/.*$/gm" *)
Definition line_comment : regex := seq [lit "//"; star RAny; REol].

(** "/,\s*([}\]])/g" *)
Definition trailing_comma : regex := seq [lit ","; star space; RGroup 1 (one_of "}]")].

(** The clean-up of the fenced text: comments removed, then trailing
    commas, each replaced by [$1]. *)
Definition cleanJson (text : jsstring) : jsstring :=
  let uncommented := replace_all flag_m line_comment (fun _ => []) text in
  replace_all no_flags trailing_comma (fun m => capture_text uncommented m 1) uncommented.

(** Spreading [rest] into an object literal after the properties [o]. *)
Definition spread_into (o : object) (rest : object) : object :=
  fold_left (fun acc kv => define acc (fst kv) (snd kv)) rest o.

Definition parseJSONResponse (now : jsstring) (response : jsstring) : outcome (option Quiz) :=
  try_catch
    (match exec no_flags fenced_json response with
     | Some jsonMatch =>
         match capture response jsonMatch 1 with
         | Some ((_ :: _) as json_text) =>
             parsed <- Json.parse (cleanJson json_text) ;;
             match truthy (Some parsed), get parsed "questions" with
             | true, Some (JArr qs) =>
                 normalized <- mapM normalizeQuestion qs ;;
                 Returns (Some {|
                   questions := somes normalized;
                   metadata := Some (spread_into (generated_at now)
                                                 (spread (get parsed "metadata")));
                   error := None |})
             | _, _ => Returns None
             end
         | _ => Returns None
         end
     | None => Returns None
     end)
    (fun _ => Returns None).

(** ** parseMarkdownResponse *)

(** "/#{1,3}\s*Question\s+\d+/i" *)
Definition md_heading : regex :=
  seq [times 1 3 (lit "#"); star space; lit "Question"; plus space; plus digit].

(** "/\*\*Type\*\*:\s*([^\n]+)/i" *)
Definition md_type : regex :=
  seq [lit "**Type**:"; star space; RGroup 1 (plus (RClass true [CChar LF]))].

(** "/^[A-D]\.\s+/" *)
Definition md_option : regex :=
  seq [RBol; RClass false [range "A" "D"]; lit "."; plus space].

(** "/\*\*Correct\s+Answer\*\*:\s*([^\n]+)/i" *)
Definition md_correct : regex :=
  seq [lit "**Correct"; plus space; lit "Answer**:"; star space;
       RGroup 1 (plus (RClass true [CChar LF]))].

(** "/^([A-D])/i" *)
Definition md_letter : regex := seq [RBol; RGroup 1 (RClass false [range "A" "D"])].

(** "/\*\*Explanation\*\*:\s*([^\n].+?)(?=\n\s*(?:#{1,3}|$))/is" *)
Definition md_explanation : regex :=
  seq [lit "**Explanation**:"; star space;
       RGroup 1 (seq [RClass true [CChar LF]; lazy_plus RAny]);
       RLookahead false (seq [RChar LF; star space; alt [times 1 3 (lit "#"); REol]])].

(** [l.findIndex(p)] *)
Fixpoint find_index {A} (p : A -> bool) (l : list A) (i : Z) : Z :=
  match l with
  | [] => (-1)%Z
  | a :: l' => if p a then i else find_index p l' (i + 1)%Z
  end.

Definition findIndex {A} (p : A -> bool) (l : list A) : Z := find_index p l 0%Z.

(** [l[i]] for an integer [i]; [None] is undefined. *)
Definition at_index {A} (l : list A) (i : Z) : option A :=
  if (i <? 0)%Z then None else nth_error l (Z.to_nat i).

(** The lines of a section, trimmed. *)
Definition trimmed_lines (section : jsstring) : list jsstring :=
  map trim (split_on LF section).

Definition is_choice_type (type : jsstring) : bool :=
  includes type (js "multiple") || includes type (js "choice").

(** The code of the letter, minus 65: A=0, B=1, ...  ([None] is NaN) *)
Definition letter_index (letter : jsstring) : option Z :=
  match charCodeAt0 (toUpperCase letter) with
  | Some c => Some (Z.of_N c - 65)%Z
  | None => None
  end.

(** [options[index]] when [index >= 0 && index < options.length], else
    the answer as it is. *)
Definition option_at (options : list jsstring) (index : option Z) (correctAnswer : jsstring)
  : jsstring :=
  match index with
  | Some i =>
      if (0 <=? i)%Z && (i <? Z.of_nat (length options))%Z
      then match at_index options i with
           | Some o => o
           | None => correctAnswer
           end
      else correctAnswer
  | None => correctAnswer
  end.

(** The type of a markdown section, lowercased and trimmed. *)
Definition markdownType (section : jsstring) : outcome jsstring :=
  match exec flag_i md_type section with
  | Some typeMatch => t <- group section typeMatch 1 ;; Returns (trim (toLowerCase t))
  | None => Returns (js "open_ended")
  end.

(** The options of a markdown section: the lines "A. ..." to "D. ..." of
    a question whose type says multiple or choice. *)
Definition markdownOptions (type : jsstring) (lines : list jsstring) : list jsstring :=
  if is_choice_type type
  then map (fun line => trim (replace_first no_flags md_option (fun _ => []) line))
           (filter (test no_flags md_option) lines)
  else [].

(** Convert letter answer to option text for multiple choice *)
Definition markdownResolve (options : list jsstring) (correctAnswer : jsstring)
  : outcome jsstring :=
  if (0 <? length options)%nat then
    match exec flag_i md_letter correctAnswer with
    | Some letterMatch =>
        letter <- group correctAnswer letterMatch 1 ;;
        Returns (option_at options (letter_index letter) correctAnswer)
    | None => Returns correctAnswer
    end
  else Returns correctAnswer.

(** The text after "**Correct Answer**:", trimmed; [None] without it. *)
Definition markdownRawAnswer (section : jsstring) : outcome (option jsstring) :=
  match exec flag_i md_correct section with
  | Some correctMatch => a <- group section correctMatch 1 ;; Returns (Some (trim a))
  | None => Returns None
  end.

Definition truthy_string (s : jsstring) : option jsstring :=
  match s with
  | [] => None
  | _ => Some s
  end.

(** The body of the forEach over the sections. *)
Definition parseMarkdownSection (section : jsstring) (index : nat) : outcome QuizQuestion :=
  let typeMatch := exec flag_i md_type section in
  type_ <- markdownType section ;;
  let lines := trimmed_lines section in
  let questionTextIndex :=
    match typeMatch with
    | Some _ => (findIndex (fun line => includes line (js "**Type**:")) lines + 1)%Z
    | None => findIndex (fun line => (0 <? length line)%nat) lines
    end in
  let questionText :=
    if (0 <=? questionTextIndex)%Z && (questionTextIndex <? Z.of_nat (length lines))%Z
    then match at_index lines questionTextIndex with
         | Some l => l
         | None => []
         end
    else [] in
  let options_ := markdownOptions type_ lines in
  raw <- markdownRawAnswer section ;;
  correctAnswer_ <- match raw with
                    | Some a => markdownResolve options_ a
                    | None => Returns []
                    end ;;
  explanation_ <- match exec flag_is md_explanation section with
                  | Some explanationMatch =>
                      e <- group section explanationMatch 1 ;; Returns (trim e)
                  | None => Returns []
                  end ;;
  Returns {|
    id := num_of_nat (index + 1);
    type := normalizeQuestionType type_;
    text := questionText;
    options := if (0 <? length options_)%nat then Some options_ else None;
    correctAnswer := correctAnswer_;
    explanation := truthy_string explanation_ |}.

(** [l.forEach((x, index) => ...)] pushing each result *)
Fixpoint for_each {A B} (f : A -> nat -> outcome B) (l : list A) (index : nat)
  : outcome (list B) :=
  match l with
  | [] => Returns []
  | a :: l' => b <- f a index ;; bs <- for_each f l' (S index) ;; Returns (b :: bs)
  end.

Definition parseMarkdownResponse (now : jsstring) (response : jsstring) : outcome (option Quiz) :=
  try_catch
    (let questionSections := split flag_i md_heading response in
     let filteredSections := skipn 1 questionSections in
     if (length filteredSections =? 0)%nat then Returns None
     else
       qs <- for_each parseMarkdownSection filteredSections 0 ;;
       Returns (Some {| questions := qs;
                        metadata := Some (generated_at now);
                        error := None |}))
    (fun _ => Returns None).

(** ** parseStructuredResponse *)

Definition letters_AD : regex := RClass false [range "A" "D"].   (* [A-D] *)
Definition letters_ad : regex := RClass false [range "a" "d"].   (* [a-d] *)

(** "/\n\s*(?:Q|Question)\s*\d+\.\s*/i" *)
Definition st_marker : regex :=
  seq [RChar LF; star space; alt [lit "Q"; lit "Question"]; star space;
       plus digit; lit "."; star space].

(** "/\[(?:Question\s+)?Type:\s*([^\]]+)\]/i" *)
Definition st_type : regex :=
  seq [lit "["; opt (seq [lit "Question"; plus space]); lit "Type:"; star space;
       RGroup 1 (plus (none_of "]")); lit "]"].

(** "/\n\s*(?:Options|[A-D]\.|\([a-d]\)|[a-d]\))/i" *)
Definition st_break : regex :=
  seq [RChar LF; star space;
       alt [lit "Options";
            seq [letters_AD; lit "."];
            seq [lit "("; letters_ad; lit ")"];
            seq [letters_ad; lit ")"]]].

(** "/(?:Options|\n\s*[A-D]\.|\n\s*\([a-d]\)|\n\s*[a-d]\))([\s\S]*?)(?=\nCorrect Answer|\nAnswer|$)/i" *)
Definition st_option_section : regex :=
  seq [alt [lit "Options";
            seq [RChar LF; star space; letters_AD; lit "."];
            seq [RChar LF; star space; lit "("; letters_ad; lit ")"];
            seq [RChar LF; star space; letters_ad; lit ")"]];
       RGroup 1 (lazy_star anything);
       RLookahead false
         (alt [seq [RChar LF; lit "Correct Answer"]; seq [RChar LF; lit "Answer"]; REol])].

(** "/^[A-D]\.|\([a-d]\)|[a-d]\)|^[a-d]\)|\s+[A-D]\./i" *)
Definition st_option_line : regex :=
  alt [seq [RBol; letters_AD; lit "."];
       seq [lit "("; letters_ad; lit ")"];
       seq [letters_ad; lit ")"];
       seq [RBol; letters_ad; lit ")"];
       seq [plus space; letters_AD; lit "."]].

(** "/(?:Correct\s+Answer|Answer):\s*([^\n]+)/i" *)
Definition st_correct : regex :=
  seq [alt [seq [lit "Correct"; plus space; lit "Answer"]; lit "Answer"]; lit ":";
       star space; RGroup 1 (plus (RClass true [CChar LF]))].

(** "/^[A-D]$/i" *)
Definition st_letter : regex := seq [RBol; letters_AD; REol].

(** "/(?:Explanation|Rationale):\s*([^\n].*?)(?=\n\s*(?:Q|Question)\s*\d+\.?|$)/is" *)
Definition st_explanation : regex :=
  seq [alt [lit "Explanation"; lit "Rationale"]; lit ":"; star space;
       RGroup 1 (seq [RClass true [CChar LF]; lazy_star RAny]);
       RLookahead false
         (alt [seq [RChar LF; star space; alt [lit "Q"; lit "Question"]; star space;
                    plus digit; opt (lit ".")];
               REol])].

(** [s.split('\n')[0]] *)
Definition first_line (s : jsstring) : jsstring :=
  match split_on LF s with
  | l :: _ => l
  | [] => []
  end.

Definition structuredType (block : jsstring) : outcome jsstring :=
  match exec flag_i st_type block with
  | Some typeMatch => t <- group block typeMatch 1 ;; Returns (trim (toLowerCase t))
  | None => Returns (js "open_ended")
  end.

Definition structuredText (block : jsstring) : jsstring :=
  match exec flag_i st_type block with
  | Some _ =>
      let afterType := trim (substring_from block (indexOf block (js "]") + 1)%Z) in
      let firstBreak := search flag_i st_break afterType in
      if (0 <? firstBreak)%Z
      then trim (substring afterType 0 firstBreak)
      else trim (first_line afterType)
  | None => trim (first_line block)
  end.

(** The options of a block whose type says multiple or choice: in the
    option section, the lines with an option marker, the marker removed;
    an option left empty is not kept. *)
Definition structuredOptions (type : jsstring) (block : jsstring) : outcome (list jsstring) :=
  if is_choice_type type then
    match exec flag_i st_option_section block with
    | Some optionSection =>
        lines_text <- group block optionSection 1 ;;
        let optionLines :=
          filter (fun line => test flag_i st_option_line (trim line)) (split_on LF lines_text) in
        Returns
          (filter (fun option => (0 <? length option)%nat)
                  (map (fun line => trim (replace_first flag_i st_option_line (fun _ => []) line))
                       optionLines))
    | None => Returns []
    end
  else Returns [].

(** Convert letter answer to option text for multiple choice *)
Definition structuredResolve (options : list jsstring) (correctAnswer : jsstring) : jsstring :=
  if (0 <? length options)%nat && test flag_i st_letter correctAnswer
  then option_at options (letter_index correctAnswer) correctAnswer
  else correctAnswer.

(** The text after "Correct Answer:" or "Answer:", trimmed. *)
Definition structuredRawAnswer (block : jsstring) : outcome (option jsstring) :=
  match exec flag_i st_correct block with
  | Some correctMatch => a <- group block correctMatch 1 ;; Returns (Some (trim a))
  | None => Returns None
  end.

(** One turn of the loop over the blocks, for a block that is not empty;
    [number] is [i - startIndex + 1]. *)
Definition parseStructuredBlock (block : jsstring) (number : nat) : outcome QuizQuestion :=
  type_ <- structuredType block ;;
  let questionText := structuredText block in
  options_ <- structuredOptions type_ block ;;
  raw <- structuredRawAnswer block ;;
  let correctAnswer_ := match raw with
                        | Some a => structuredResolve options_ a
                        | None => []
                        end in
  explanation_ <- match exec flag_is st_explanation block with
                  | Some explanationMatch =>
                      e <- group block explanationMatch 1 ;; Returns (trim e)
                  | None => Returns []
                  end ;;
  Returns {|
    id := num_of_nat number;
    type := normalizeQuestionType type_;
    text := questionText;
    options := if (0 <? length options_)%nat then Some options_ else None;
    correctAnswer := correctAnswer_;
    explanation := truthy_string explanation_ |}.

(** The loop [for (let i = startIndex; i < questionBlocks.length; i++)],
    over the blocks from [startIndex] on; [k] is [i - startIndex]. *)
Fixpoint structuredLoop (blocks : list jsstring) (k : nat) : outcome (list QuizQuestion) :=
  match blocks with
  | [] => Returns []
  | b :: blocks' =>
      let block := trim b in
      match block with
      | [] => structuredLoop blocks' (S k)                      (* continue *)
      | _ => q <- parseStructuredBlock block (k + 1) ;;
             qs <- structuredLoop blocks' (S k) ;;
             Returns (q :: qs)
      end
  end.

Definition parseStructuredResponse (now : jsstring) (response : jsstring)
  : outcome (option Quiz) :=
  try_catch
    (let questionBlocks := split flag_i st_marker response in
     first <- match questionBlocks with
              | b :: _ => Returns b
              | [] => Throws TypeError
              end ;;
     let startIndex := if (0 <? length (trim first))%nat then 0 else 1 in
     qs <- structuredLoop (skipn startIndex questionBlocks) 0 ;;
     Returns (if (0 <? length qs)%nat
              then Some {| questions := qs;
                           metadata := Some (generated_at now);
                           error := None |}
              else None))
    (fun _ => Returns None).

(** ** validateQuiz *)

Definition set_id (q : QuizQuestion) (n : number) : QuizQuestion :=
  {| id := n; type := type q; text := text q; options := options q;
     correctAnswer := correctAnswer q; explanation := explanation q |}.

Definition set_correctAnswer (q : QuizQuestion) (a : jsstring) : QuizQuestion :=
  {| id := id q; type := type q; text := text q; options := options q;
     correctAnswer := a; explanation := explanation q |}.

Definition is_multiple_choice (t : QuestionType) : bool :=
  match t with multiple_choice => true | _ => false end.

Definition is_true_false (t : QuestionType) : bool :=
  match t with true_false => true | _ => false end.

(** [!q.options || !Array.isArray(q.options) || q.options.length < 2] *)
Definition too_few_options (q : QuizQuestion) : bool :=
  match options q with
  | None => true
  | Some os => (length os <? 2)%nat
  end.

(** [!q.explanation || q.explanation.trim().length === 0] *)
Definition lacks_explanation (q : QuizQuestion) : bool :=
  match explanation q with
  | None | Some [] => true
  | Some e => (length (trim e) =? 0)%nat
  end.

Definition set_type (q : QuizQuestion) (t : QuestionType) : QuizQuestion :=
  {| id := id q; type := t; text := text q; options := options q;
     correctAnswer := correctAnswer q; explanation := explanation q |}.

(** The string a type is at run time. *)
Definition type_name (t : QuestionType) : jsstring :=
  match t with
  | multiple_choice => js "multiple_choice"
  | open_ended => js "open_ended"
  | true_false => js "true_false"
  | fill_in_blank => js "fill_in_blank"
  end.

(** [['multiple_choice', 'open_ended', 'true_false', 'fill_in_blank'].includes(t)] *)
Definition known_type (t : QuestionType) : bool :=
  existsb (fun name => JsString.eqb name (type_name t))
          [js "multiple_choice"; js "open_ended"; js "true_false"; js "fill_in_blank"].

(** The callback of the map of validateQuiz; [None] is null. *)
Definition validateQuestion (requireExplanations normalizeAnswers : bool)
           (q : QuizQuestion) (index : nat) : option QuizQuestion :=
  (* Fix question ID if needed *)
  let q0 := if num_is_zero (id q) then set_id q (num_of_nat (index + 1)) else q in
  (* Validate question type *)
  let q1 := if negb (known_type (type q0))
            then set_type q0 (normalizeQuestionType (type_name (type q0)))
            else q0 in
  (* Validate options for multiple choice questions *)
  if is_multiple_choice (type q1) && too_few_options q1 then None
  else
    (* Validate true/false questions *)
    let q2 :=
      if is_true_false (type q1) && normalizeAnswers
      then set_correctAnswer q1
             (if includes (toLowerCase (correctAnswer q1)) (js "true")
              then js "True" else js "False")
      else q1 in
    (* Check for required explanation *)
    if requireExplanations && lacks_explanation q2 then None
    else Some q2.

(** [l.map((q, index) => f(q, index))] *)
Fixpoint map_index {A B} (f : A -> nat -> B) (l : list A) (index : nat) : list B :=
  match l with
  | [] => []
  | a :: l' => f a index :: map_index f l' (S index)
  end.

(** [quiz.metadata || { generatedAt: new Date().toISOString() }] *)
Definition metadata_or_now (now : jsstring) (quiz : Quiz) : option object :=
  match metadata quiz with
  | Some md => Some md
  | None => Some (generated_at now)
  end.

(** The questions of a quiz are an array by its type and through every
    parser: the first test of validateQuiz, for a missing questions
    array, never holds and is not written. *)
Definition validateQuiz (now : jsstring) (quiz : Quiz) (options : ParsingOptions) : Quiz :=
  let validateQuestions_ := default true (validateQuestions options) in
  let requireExplanations_ := default false (requireExplanations options) in
  let normalizeAnswers_ := default true (normalizeAnswers options) in
  if negb validateQuestions_ then quiz
  else
    let validQuestions :=
      somes (map_index (validateQuestion requireExplanations_ normalizeAnswers_)
                       (questions quiz) 0) in
    if (length validQuestions =? 0)%nat
    then {| questions := [];
            error := Some (js "No valid questions found after validation");
            metadata := metadata_or_now now quiz |}
    else {| questions := validQuestions;
            metadata := metadata_or_now now quiz;
            error := None |}.

(** ** parseQuizResponse *)

Definition has_questions (quiz : option Quiz) : option Quiz :=
  match quiz with
  | Some q => if (0 <? length (questions q))%nat then Some q else None
  | None => None
  end.

Definition parseQuizResponse (now : jsstring) (response : jsstring) (options : ParsingOptions)
  : outcome Quiz :=
  jsonQuiz <- parseJSONResponse now response ;;
  match has_questions jsonQuiz with
  | Some quiz => Returns (validateQuiz now quiz options)
  | None =>
      markdownQuiz <- parseMarkdownResponse now response ;;
      match has_questions markdownQuiz with
      | Some quiz => Returns (validateQuiz now quiz options)
      | None =>
          structuredQuiz <- parseStructuredResponse now response ;;
          match has_questions structuredQuiz with
          | Some quiz => Returns (validateQuiz now quiz options)
          | None =>
              Returns {| questions := [];
                         error := Some (js "Failed to parse quiz response into a structured format");
                         metadata := Some (generated_at now) |}
          end
      end
  end.

End QuizParser.

(* ================================================================== *)
(** * The response evaluation service *)
(* ================================================================== *)

Module Evaluation.

(** The fields as they are at run time: the validator keeps whatever
    array it finds, and whatever truthy value it finds for the criteria. *)
Record Scores := {
  overall : number;
  criteria : json
}.

Record Feedback := {
  strengths : list json;
  improvements : list json;
  misconceptions : list json;
  summary : jsstring
}.

Record EvaluationResult := {
  scores : Scores;
  feedback : Feedback;
  missingElements : list json;
  explanation : jsstring;
  raw : option json
}.

(** ** validateEvaluationResult *)

(** [Array.isArray(v) ? v : []] *)
Definition array_or_empty (v : option json) : list json :=
  match v with
  | Some (JArr l) => l
  | _ => []
  end.

(** [typeof v === 'string' ? v : ''] *)
Definition string_or_empty (v : option json) : jsstring :=
  match v with
  | Some (JStr s) => s
  | _ => []
  end.

(** [typeof v === 'number' ? v : 0] *)
Definition number_or_zero (v : option json) : number :=
  match v with
  | Some (JNum n) => n
  | _ => num_of_Z 0
  end.

(** [v || {}] *)
Definition value_or_empty_object (v : option json) : json :=
  match v with
  | Some w => if truthy v then w else JObj []
  | None => JObj []
  end.

Definition validateEvaluationResult (result : json) : EvaluationResult :=
  {| scores := {|
       overall := number_or_zero (get_opt (get result "scores") "overall");
       criteria := value_or_empty_object (get_opt (get result "scores") "criteria") |};
     feedback := {|
       strengths := array_or_empty (get_opt (get result "feedback") "strengths");
       improvements := array_or_empty (get_opt (get result "feedback") "improvements");
       misconceptions := array_or_empty (get_opt (get result "feedback") "misconceptions");
       summary := string_or_empty (get_opt (get result "feedback") "summary") |};
     missingElements := array_or_empty (get result "missingElements");
     explanation := string_or_empty (get result "explanation");
     raw := get result "raw" |}.

(** ** extractBulletPoints *)

(** "/(?:\r?\n|^)\s*(?:[-•*]|\d+\.)\s*/", the bullet being U+2022 *)
Definition bullet : regex :=
  seq [alt [seq [opt (RChar CR); RChar LF]; RBol]; star space;
       alt [RClass false [CChar (ch "-"); CChar 8226%N; CChar (ch "*")];
            seq [plus digit; lit "."]];
       star space].

Definition extractBulletPoints (text : option jsstring) : list jsstring :=
  match text with
  | None | Some [] => []
  | Some t =>
      filter (fun p => (0 <? length p)%nat) (map trim (split no_flags bullet t))
  end.

(** ** extractStructuredEvaluation *)

(** "\d+(?:\.\d+)?" *)
Definition decimal : regex := seq [plus digit; opt (seq [lit "."; plus digit])].

(** "\s*(?:\/|\s*out of\s*" ")\s*10" *)
Definition out_of_ten : regex :=
  seq [star space; alt [lit "/"; seq [star space; lit "out of"; star space]];
       star space; lit "10"].

(** "/Overall:\s*(\d+(?:\.\d+)?)\s*(?:\/|\s*out of\s*" ")\s*10/i" *)
Definition overall_score : regex :=
  seq [lit "Overall:"; star space; RGroup 1 decimal; out_of_ten].

(** "/([A-Za-z_]+):\s*(\d+(?:\.\d+)?)\s*(?:\/|\s*out of\s*" ")\s*10/g" *)
Definition criterion_score : regex :=
  seq [RGroup 1 (plus (RClass false [range "A" "Z"; range "a" "z"; CChar (ch "_")]));
       lit ":"; star space; RGroup 2 decimal; out_of_ten].

(** "/(?:Strengths|Strengths:)([\s\S]*?)(?:Areas for Improvement|Improvements|Misconceptions|Missing Elements|$)/i" *)
Definition strengths_section : regex :=
  seq [alt [lit "Strengths"; lit "Strengths:"];
       RGroup 1 (lazy_star anything);
       alt [lit "Areas for Improvement"; lit "Improvements"; lit "Misconceptions";
            lit "Missing Elements"; REol]].

(** "/(?:Areas for Improvement|Improvements:)([\s\S]*?)(?:Misconceptions|Missing Elements|Explanation|$)/i" *)
Definition improvements_section : regex :=
  seq [alt [lit "Areas for Improvement"; lit "Improvements:"];
       RGroup 1 (lazy_star anything);
       alt [lit "Misconceptions"; lit "Missing Elements"; lit "Explanation"; REol]].

(** "/(?:Misconceptions:)([\s\S]*?)(?:Missing Elements|Explanation|$)/i" *)
Definition misconceptions_section : regex :=
  seq [lit "Misconceptions:";
       RGroup 1 (lazy_star anything);
       alt [lit "Missing Elements"; lit "Explanation"; REol]].

(** "/(?:Missing Elements:)([\s\S]*?)(?:Explanation|$)/i" *)
Definition missing_section : regex :=
  seq [lit "Missing Elements:";
       RGroup 1 (lazy_star anything);
       alt [lit "Explanation"; REol]].

(** "/(?:Explanation:)([\s\S]*?)$/i" *)
Definition explanation_section : regex :=
  seq [lit "Explanation:"; RGroup 1 (lazy_star anything); REol].

(** [parseFloat] on digits with an optional fraction, the text the two
    score patterns capture. *)
Definition parseFloat (s : jsstring) : number :=
  let (int, rest) := span is_digit s in
  let frac := match rest with
              | c :: r => if (c =? 46)%N then fst (span is_digit r) else []
              | [] => []
              end in
  {| mantissa := digits_Z (int ++ frac); exponent := (- Z.of_nat (length frac))%Z |}.

(** The body of the loop over the criterion scores. *)
Definition add_criterion (response : jsstring) (criteriaScores : outcome object)
           (m : match_result) : outcome object :=
  scores_ <- criteriaScores ;;
  name <- group response m 1 ;;
  let criterion := trim (toLowerCase name) in
  if negb (JsString.eqb criterion (js "overall"))
  then value <- group response m 2 ;;
       Returns (assign scores_ criterion (JNum (parseFloat value)))
  else Returns scores_.

(** The section a pattern finds, as bullet points. *)
Definition bullets_of (r : regex) (response : jsstring) : list jsstring :=
  match exec flag_i r response with
  | Some m => extractBulletPoints (capture response m 1)
  | None => []
  end.

Definition strings (l : list jsstring) : list json := map JStr l.

Definition extractStructuredEvaluation (response : jsstring) : outcome (option EvaluationResult) :=
  let overallScoreMatch := exec flag_i overall_score response in
  overallScore <- match overallScoreMatch with
                  | Some m => t <- group response m 1 ;; Returns (parseFloat t)
                  | None => Returns (num_of_Z 0)
                  end ;;
  criteriaScores <- match exec_all no_flags criterion_score response with
                    | Some ms => fold_left (add_criterion response) ms (Returns [])
                    | None => Diverges
                    end ;;
  let strengths_ := bullets_of strengths_section response in
  let improvements_ := bullets_of improvements_section response in
  let misconceptions_ := bullets_of misconceptions_section response in
  let missingElements_ := bullets_of missing_section response in
  explanation_ <- match exec flag_i explanation_section response with
                  | Some m => t <- group response m 1 ;; Returns (trim t)
                  | None => Returns []
                  end ;;
  match overallScoreMatch, criteriaScores with
  | None, [] => Returns None
  | _, _ =>
      Returns (Some {|
        scores := {| overall := overallScore; criteria := JObj criteriaScores |};
        feedback := {| strengths := strings strengths_;
                       improvements := strings improvements_;
                       misconceptions := strings misconceptions_;
                       summary := substring explanation_ 0 200 |};
        missingElements := strings missingElements_;
        explanation := explanation_;
        raw := None |})
  end.

(** ** parseEvaluationResponse *)

(** [v.raw = response], in strict mode: TypeError on null and on a
    primitive.  An array takes the property as an object does; the value
    is read by property name only from there on, which an object with
    the same properties answers alike. *)
Definition set_raw (v : json) (response : jsstring) : outcome json :=
  match v with
  | JObj o => Returns (JObj (assign o (js "raw") (JStr response)))
  | JArr l => Returns (JObj (assign (indexed (fun x => x) l 0) (js "raw") (JStr response)))
  | _ => Throws TypeError
  end.

(** [{ ...r, raw: response }] *)
Definition with_raw (r : EvaluationResult) (response : jsstring) : EvaluationResult :=
  {| scores := scores r; feedback := feedback r; missingElements := missingElements r;
     explanation := explanation r; raw := Some (JStr response) |}.

(** Fallback: create a minimal valid result structure *)
Definition fallback (response : jsstring) : EvaluationResult :=
  {| scores := {| overall := num_of_Z 0; criteria := JObj [] |};
     feedback := {| strengths := [];
                    improvements := [JStr (js "Could not parse evaluation")];
                    misconceptions := [];
                    summary := js "Unable to process the evaluation" |};
     missingElements := [];
     explanation := js "The system encountered an error processing the evaluation";
     raw := Some (JStr response) |}.

(** The body of the try. *)
Definition parseEvaluationBody (response : jsstring) : outcome EvaluationResult :=
  let structured :=
    parsedResult <- extractStructuredEvaluation response ;;
    match parsedResult with
    | Some r => Returns (with_raw r response)
    | None => Returns (fallback response)
    end in
  match exec no_flags QuizParser.fenced_json response with
  | Some jsonMatch =>
      match capture response jsonMatch 1 with
      | Some ((_ :: _) as json_text) =>
          parsedJson <- Json.parse (QuizParser.cleanJson json_text) ;;
          parsedJson' <- set_raw parsedJson response ;;
          Returns (validateEvaluationResult parsedJson')
      | _ => structured
      end
  | None => structured
  end.

Definition parseEvaluationResponse (response : jsstring) : outcome EvaluationResult :=
  try_catch (parseEvaluationBody response)
            (fun error =>
               Throws (WrappedError (js "Failed to parse evaluation response: ") error)).

End Evaluation.

(* ================================================================== *)
(** * server/claude/tokens.ts *)
(* ================================================================== *)

Module Tokens.

(** [Math.ceil(text.length / 4)]: a length divided by four is exact in
    binary64, so the quotient is the rational one. *)
Definition estimateTokenCount (text : jsstring) : Z :=
  match text with
  | [] => 0%Z
  | _ => Qceiling (inject_Z (Z.of_nat (length text)) / 4)%Q
  end.

End Tokens.

(* ================================================================== *)
(** * The content preprocessor *)
(* ================================================================== *)

Module Preprocessor.

Definition MAX_CONTENT_TOKENS : Z := 200000.

Definition TOKENS_PER_CHAR : Q := 0.25%Q.

Record PreprocessingOptions := {
  maxTokens : option Z;
  preserveHeadings : option bool;
  extractKeyTerms_ : option bool;          (* the property extractKeyTerms *)
  summarizeLongSections : option bool
}.

(** ** cleanContent *)

(** "/\s+/g" *)
Definition spaces : regex := plus space.

(** "/<script\b[^<]*(?:(?!<\/script>)<[^<]*" ")*<\/script>/gi" and the like
    for style *)
Definition element (name : string) : regex :=
  seq [lit "<"; lit name; RWordBoundary; star (none_of "<");
       star (seq [RLookahead true (seq [lit "</"; lit name; lit ">"]);
                  lit "<"; star (none_of "<")]);
       lit "</"; lit name; lit ">"].

(** "/<!--[\s\S]*?-->/g" *)
Definition html_comment : regex := seq [lit "<!--"; lazy_star anything; lit "-->"].

(** "/<\/?[^>]+(>|$)/g" *)
Definition html_tag : regex :=
  seq [lit "<"; opt (lit "/"); plus (none_of ">"); RGroup 1 (alt [lit ">"; REol])].

Definition remove (fl : flags) (r : regex) (s : jsstring) : jsstring :=
  replace_all fl r (fun _ => []) s.

Definition collapse_spaces (s : jsstring) : jsstring :=
  replace_all no_flags spaces (fun _ => js " ") s.

Definition cleanContent (content : jsstring) : jsstring :=
  match content with
  | [] => []
  | _ =>
      (* Remove excessive whitespace *)
      let c1 := collapse_spaces content in
      (* Remove any script or style content *)
      let c2 := remove flag_i (element "script") c1 in
      let c3 := remove flag_i (element "style") c2 in
      (* Remove HTML comments *)
      let c4 := remove no_flags html_comment c3 in
      (* Remove remaining HTML tags *)
      let c5 := remove no_flags html_tag c4 in
      (* Normalize whitespace *)
      trim (collapse_spaces c5)
  end.

(** ** estimateTokenCount *)

Definition estimateTokenCount (text : jsstring) : Z :=
  match text with
  | [] => 0%Z
  | _ =>
      let charCount := Z.of_nat (length text) in
      Qceiling (inject_Z charCount * TOKENS_PER_CHAR)%Q
  end.

(** ** extractKeyTerms *)

(** "([A-Z][a-z]+(?:\s[A-Z][a-z]+)*" ")" *)
Definition term : regex :=
  let word := seq [RClass false [range "A" "Z"]; plus (RClass false [range "a" "z"])] in
  seq [word; star (seq [space; word])].

(** A term, the words of [link] each after white space, and "([^.]+)" *)
Definition definition_pattern (link : list string) : regex :=
  seq (RGroup 1 term
       :: map (fun w => seq [plus space; lit w]) link
       ++ [plus space; RGroup 2 (plus (none_of "."))]).

(** "/([A-Z][a-z]+(?:\s[A-Z][a-z]+)*" ")\s+is\s+defined\s+as\s+([^.]+)/gi",
    then the same with "refers to", "means" and "is a" *)
Definition termDefinitionPatterns : list regex :=
  [definition_pattern ["is"; "defined"; "as"]%string;
   definition_pattern ["refers"; "to"]%string;
   definition_pattern ["means"]%string;
   definition_pattern ["is"; "a"]%string].

(** The body of the while loop. *)
Definition add_term (content : jsstring) (keyTerms : outcome object) (m : match_result)
  : outcome object :=
  terms <- keyTerms ;;
  t <- group content m 1 ;;
  d <- group content m 2 ;;
  let term := trim t in
  let definition := trim d in
  if (0 <? length term)%nat && (0 <? length definition)%nat && (3 <? length term)%nat
  then Returns (assign terms term (JStr definition))
  else Returns terms.

(** The body of the forEach over the patterns. *)
Definition add_pattern (content : jsstring) (keyTerms : outcome object) (pattern : regex)
  : outcome object :=
  terms <- keyTerms ;;
  match exec_all flag_i pattern content with
  | Some ms => fold_left (add_term content) ms (Returns terms)
  | None => Diverges
  end.

Definition extractKeyTerms (content : jsstring) : outcome object :=
  fold_left (add_pattern content) termDefinitionPatterns (Returns []).

(** ** truncateContent and preprocessContent *)

(** The terms as the template `- ${term}: ${definition}` writes them; a
    definition is a string. *)
Definition term_line (kv : jsstring * json) : jsstring :=
  js "- " ++ fst kv ++ js ": " ++ match snd kv with JStr d => d | _ => [] end.

Definition key_terms_section (terms : object) : jsstring :=
  if (0 <? length terms)%nat
  then js "KEY TERMS:" ++ [LF] ++ join [LF] (map term_line terms) ++ [LF; LF]
  else [].

Section Truncation.

(** What truncateContent does with content over the limit: the choice
    of paragraphs and sections.  It counts with binary64 quotients and
    the factors 0.5 and 0.3, which are outside this model; the
    statements below hold for whatever it returns. *)
Variable truncate_over_limit : jsstring -> Z -> jsstring.

Definition truncateContent (content : jsstring) (maxTokens : Z) : jsstring :=
  match content with
  | [] => []
  | _ =>
      let estimatedTokens := estimateTokenCount content in
      (* If already within limits, return as is *)
      if (estimatedTokens <=? maxTokens)%Z then content
      else truncate_over_limit content maxTokens
  end.

Definition preprocessContent (content : jsstring) (options : PreprocessingOptions)
  : outcome jsstring :=
  let maxTokens_ := QuizParser.default MAX_CONTENT_TOKENS (maxTokens options) in
  let shouldExtractTerms := QuizParser.default true (extractKeyTerms_ options) in
  (* Clean the content first *)
  let processedContent := cleanContent content in
  (* Calculate token estimate *)
  let tokenEstimate := estimateTokenCount processedContent in
  (* Extract key terms if requested *)
  keyTermsSection <- (if shouldExtractTerms
                      then terms <- extractKeyTerms processedContent ;;
                           Returns (key_terms_section terms)
                      else Returns []) ;;
  (* Adjust token budget for key terms section *)
  let keyTermsTokens := estimateTokenCount keyTermsSection in
  let contentTokenBudget := (maxTokens_ - keyTermsTokens)%Z in
  (* If content exceeds token limit, truncate it *)
  let processedContent' :=
    if (contentTokenBudget <? tokenEstimate)%Z
    then truncateContent processedContent contentTokenBudget
    else processedContent in
  Returns (keyTermsSection ++ processedContent').

End Truncation.

End Preprocessor.

(* ================================================================== *)
(** * The retry policy *)
(* ================================================================== *)

Module Retry.

(** The numbers of a configuration are taken as rationals and the
    arithmetic as exact: the rounding of binary64 is not modelled. *)
Record RetryConfig := {
  maxRetries : Q;
  initialDelayMs : Q;
  maxDelayMs : Q;
  backoffFactor : Q
}.

Definition DEFAULT_RETRY_CONFIG : RetryConfig :=
  {| maxRetries := 3; initialDelayMs := 1000; maxDelayMs := 10000; backoffFactor := 2 |}.

(** The delay before the jitter. *)
Definition delay (retryCount : nat) (config : RetryConfig) : Q :=
  Qmin (initialDelayMs config * backoffFactor config ^ Z.of_nat retryCount)
       (maxDelayMs config).

(** [random] is the value Math.random() returns. *)
Definition calculateBackoff (retryCount : nat) (config : RetryConfig) (random : Q) : Q :=
  let delay := delay retryCount config in
  (* Add jitter to prevent thundering herd problem *)
  let jitter := (delay * 0.2 * random)%Q in
  (delay + jitter)%Q.

End Retry.

(* ================================================================== *)
(** * What the theorems speak of *)
(* ================================================================== *)

(** ** The matcher *)

(** The capture of group [n] in a state. *)
Definition cap (x : mstate) (n : nat) : option (nat * nat) := nth n (caps x) None.

(** What a match of [r] from [x] to [y] guarantees: it is as long as the
    pattern says, it leaves the groups outside [r] as they were, it defines
    the sure groups, and it ends inside the input. *)
Definition advances (input : jsstring) (r : regex) (x y : mstate) : Prop :=
  pos x + min_len r <= pos y
  /\ (forall n, ~ In n (groups r) -> cap y n = cap x n)
  /\ (forall n, In n (sure_groups r) -> cap y n <> None)
  /\ (pos x <= length input -> pos y <= length input).

(** Two continuations that agree on the states a match from [x] can
    reach: from the index of [x] on, inside the input. *)
Definition agree_from (input : jsstring) (x : mstate) (k1 k2 : cont) : Prop :=
  forall y, pos x <= pos y -> pos y <= length input -> k1 y = k2 y.

(** ** Outcomes *)

(** The computation ends: it returns or throws. *)
Definition terminates {A} (c : outcome A) : Prop := c <> Diverges.

(** [always P c]: whatever [c] returns satisfies [P]. *)
Definition always {A} (P : A -> Prop) (c : outcome A) : Prop :=
  forall a, c = Returns a -> P a.

(** ** Inputs *)

(** The text [s] with each apostrophe standing for a quotation mark. *)
Definition quoted (s : string) : jsstring :=
  map (fun c => if (c =? 39)%N then 34%N else c) (js s).

(** The time of the clock in the examples. *)
Definition the_clock : jsstring := js "2025-01-01T00:00:00.000Z".

(** ** The runtime model on known cases *)

(** What [s.match(r)] is for a pattern with [n] groups: the matched text
    and the captures. *)
Definition match_array (fl : flags) (r : regex) (s : string) (n : nat)
  : option (list (option jsstring)) :=
  match exec fl r (js s) with
  | Some m => Some (Some (matched (js s) m) :: map (capture (js s) m) (List.seq 1 n))
  | None => None
  end.

Definition texts_of (l : list string) : list jsstring := map js l.

(** "[a-z]" *)
Definition az : regex := RClass false [range "a" "z"].

(** [String(v)], [None] when it throws. *)
Definition shown (v : json) : option jsstring :=
  match to_string v with
  | Returns s => Some s
  | _ => None
  end.

Section QuizParserStatements.

Import QuizParser.

(** A quiz that a format parser returns carries no error. *)
Definition without_error (quiz : option Quiz) : Prop :=
  match quiz with
  | Some q => error q = None
  | None => True
  end.

(** The two shapes of a quiz that parseQuizResponse returns. *)
Definition has_questions_and_no_error (quiz : Quiz) : Prop :=
  questions quiz <> [] /\ error quiz = None.

Definition has_error_and_no_question (quiz : Quiz) : Prop :=
  questions quiz = [] /\ exists e, error quiz = Some e /\ e <> [].

Definition questions_or_error (quiz : Quiz) : Prop :=
  has_questions_and_no_error quiz \/ has_error_and_no_question quiz.

(** The invariant with valid questions: each has a text that is not
    empty once trimmed. *)
Definition valid_questions_or_error (quiz : Quiz) : Prop :=
  (questions quiz <> []
   /\ Forall (fun q => trim (text q) <> []) (questions quiz)
   /\ error quiz = None)
  \/ (questions quiz = [] /\ exists e, error quiz = Some e /\ e <> []).

(** The markdown format that the prompt asks the model for. *)
Definition prompt_format : jsstring := js "## Question 1
**Type**: open_ended

What is photosynthesis?

**Correct Answer**: The process plants use to convert light to energy
".

(** The letters a, b, c, d in either case. *)
Definition answer_letter (c : N) : bool := between 65 68 c || between 97 100 c.

(** The index a letter stands for: A=0, B=1, ... *)
Definition letter_number (c : N) : nat := N.to_nat (ascii_upper c - 65).

Definition capitals : list jsstring := [js "Paris"; js "London"; js "Rome"; js "Berlin"].

Definition markdown_section : jsstring := js "
**Type**: multiple_choice
What is the capital of the United Kingdom?
A. Paris
B. London
C. Rome
D. Berlin
**Correct Answer**: B
".

Definition structured_block : jsstring := js "[Type: multiple choice] What is the capital of the United Kingdom?
Options:
A. Paris
B. London
C. Rome
D. Berlin
Correct Answer: B".

Definition json_response : jsstring := quoted "```json
{'questions': [{'id': 1, 'type': 'multiple_choice', 'text': 'What is the capital of the United Kingdom?',
                'options': ['Paris', 'London', 'Rome', 'Berlin'], 'correctAnswer': 'B'}]}
```".

(** A JSON question whose text is one space. *)
Definition blank_text : jsstring := quoted "```json
{'questions': [{'type': 'open_ended', 'text': ' '}]}
```".

(** validateQuestions is not set to false. *)
Definition validation_enabled (options : ParsingOptions) : Prop :=
  default true (validateQuestions options) = true.

Definition ids_response : jsstring := quoted "```json
{'questions': [{'id': null, 'text': 'first'},
               {'id': 5, 'text': 'second'},
               {'id': 5, 'text': 'third'}]}
```".

Definition returned_ids (r : outcome Quiz) : option (list number) :=
  match r with
  | Returns quiz => Some (map id (questions quiz))
  | _ => None
  end.

Definition three_questions : Quiz :=
  {| questions :=
       map (fun n => {| id := num_of_Z n; type := open_ended; text := js "text";
                        options := None; correctAnswer := []; explanation := None |})
           [0; 5; 5]%Z;
     metadata := None; error := None |}.

(** A format parser produces a quiz: it returns one with a question. *)
Definition produces (c : outcome (option Quiz)) (quiz : Quiz) : Prop :=
  c = Returns (Some quiz) /\ questions quiz <> [].

Definition produces_nothing (c : outcome (option Quiz)) : Prop :=
  c = Returns None \/ exists quiz, c = Returns (Some quiz) /\ questions quiz = [].

(** The quiz that parseQuizResponse goes on with: the one of the first
    format, in the order JSON, markdown, structured text, that produces a
    question. *)
Definition first_produced (now response : jsstring) (quiz : Quiz) : Prop :=
  produces (parseJSONResponse now response) quiz
  \/ (produces_nothing (parseJSONResponse now response)
      /\ produces (parseMarkdownResponse now response) quiz)
  \/ (produces_nothing (parseJSONResponse now response)
      /\ produces_nothing (parseMarkdownResponse now response)
      /\ produces (parseStructuredResponse now response) quiz).

Definition parse_failure (now : jsstring) : Quiz :=
  {| questions := [];
     error := Some (js "Failed to parse quiz response into a structured format");
     metadata := Some (generated_at now) |}.

Definition both_formats : jsstring := quoted "```json
{'questions': [{'id': 1, 'type': 'open_ended', 'text': 'From the JSON block?',
                'correctAnswer': 'yes'}]}
```

## Question 1
**Type**: open_ended
From the markdown section?
**Correct Answer**: no
".

Definition texts (r : outcome Quiz) : option (list jsstring) :=
  match r with
  | Returns quiz => Some (map text (questions quiz))
  | _ => None
  end.

Definition no_valid_questions (now : jsstring) (quiz : Quiz) : Quiz :=
  {| questions := [];
     error := Some (js "No valid questions found after validation");
     metadata := metadata_or_now now quiz |}.

Definition one_option : jsstring := js "## Question 1
**Type**: multiple_choice
What is the capital of France?
A. Paris
**Correct Answer**: A
".

End QuizParserStatements.

Section EvaluationStatements.

Import Evaluation.

(** The text between the fences, when the response has a fenced object. *)
Definition fenced_text (response : jsstring) : option jsstring :=
  match exec no_flags QuizParser.fenced_json response with
  | Some m =>
      match capture response m 1 with
      | Some ((_ :: _) as text) => Some text
      | _ => None
      end
  | None => None
  end.

Definition failed_to_parse : jsstring := js "Failed to parse evaluation response: ".

Definition not_json : jsstring := js "```json
{this is not JSON}
```".

Definition only_overall : jsstring := quoted "```json
{'scores':{'overall':7}}
```".

(** The value [v] is no array: undefined, or of another type. *)
Definition not_an_array (v : option json) : Prop :=
  match v with
  | Some (JArr _) => False
  | _ => True
  end.

Definition not_a_string (v : option json) : Prop :=
  match v with
  | Some (JStr _) => False
  | _ => True
  end.

End EvaluationStatements.

Section PreprocessorStatements.

Import Preprocessor.

(** The options of the claim: a budget of 100 tokens above the estimate
    of the text. *)
Definition under_budget (content : jsstring) : PreprocessingOptions :=
  {| maxTokens := Some (estimateTokenCount content + 100)%Z;
     preserveHeadings := None;
     extractKeyTerms_ := None;
     summarizeLongSections := None |}.

(** The section of key terms that preprocessContent writes in front. *)
Definition section_written (content : jsstring) (opts : PreprocessingOptions)
           (section : jsstring) : Prop :=
  if QuizParser.default true (extractKeyTerms_ opts)
  then exists terms, extractKeyTerms (cleanContent content) = Returns terms
                     /\ section = key_terms_section terms
  else section = [].

(** A policy for content over the limit, for the examples. *)
Definition keep (content : jsstring) (maxTokens : Z) : jsstring := content.

Definition clean_text : jsstring := js "Plants turn light into sugar.".

End PreprocessorStatements.

Section RetryStatements.

Import Retry.
Open Scope Q_scope.

(** The delay that is not capped. *)
Definition uncapped (retryCount : nat) (config : RetryConfig) : Q :=
  initialDelayMs config * backoffFactor config ^ Z.of_nat retryCount.

(** A configuration whose delays make sense: a delay that is not
    negative and a factor that does not shrink it. *)
Definition sensible (config : RetryConfig) : Prop :=
  0 <= initialDelayMs config /\ 1 <= backoffFactor config.

(** A factor below 1, and a negative delay. *)
Definition shrinking : RetryConfig :=
  {| maxRetries := 3; initialDelayMs := 1000; maxDelayMs := 10000; backoffFactor := 1 # 2 |}.

Definition negative : RetryConfig :=
  {| maxRetries := 3; initialDelayMs := - 1000; maxDelayMs := 10000; backoffFactor := 2 |}.

End RetryStatements.

Section ValidationStatements.
Import QuizParser.

(** [kept] is what is left of [l] when some elements are taken out. *)
Inductive taken_from {A} : list A -> list A -> Prop :=
| taken_nil : taken_from [] []
| taken_keep a kept l : taken_from kept l -> taken_from (a :: kept) (a :: l)
| taken_drop a kept l : taken_from kept l -> taken_from kept (a :: l).

(** What validation leaves of a question as it was. *)
Definition same_content (q q' : QuizQuestion) : Prop :=
  text q' = text q /\ type q' = type q /\ options q' = options q
  /\ explanation q' = explanation q.

(** The answer validation gives a true_false question. *)
Definition canonical_answer (a : jsstring) : jsstring :=
  if includes (toLowerCase a) (js "true") then js "True" else js "False".

Definition answers_normalized (options : ParsingOptions) : Prop :=
  normalizeAnswers options <> Some false.

Definition explanations_required (options : ParsingOptions) : Prop :=
  requireExplanations options = Some true.

(** A quiz with a true_false question, a multiple_choice question with
    one option, and an open_ended question without explanation. *)
Definition mixed_quiz : Quiz :=
  {| questions :=
       [ {| id := num_of_Z 7; type := true_false; text := js "The sky is blue.";
            options := None; correctAnswer := js "It is TRUE"; explanation := Some (js "Rayleigh") |};
         {| id := num_of_Z 0; type := multiple_choice; text := js "Pick one";
            options := Some [js "only"]; correctAnswer := js "only"; explanation := Some (js "x") |};
         {| id := num_of_Z 0; type := open_ended; text := js "Why?";
            options := None; correctAnswer := js "Because"; explanation := None |} ];
     metadata := None; error := None |}.

Definition explanations_on : ParsingOptions :=
  {| validateQuestions := None; requireExplanations := Some true; normalizeAnswers := None |}.

(** The numbers 1, 2, ..., n as ids. *)
Definition ids_from_one (n : nat) : list number := map num_of_nat (List.seq 1 n).

(** The metadata of a quiz has a property generatedAt. *)
Definition stamped (quiz : option Quiz) : Prop :=
  match quiz with
  | Some q => exists md, metadata q = Some md /\ has_key md (js "generatedAt") = true
  | None => True
  end.

(** The metadata of a quiz is [{ generatedAt: now }]. *)
Definition stamped_now (now : jsstring) (quiz : option Quiz) : Prop :=
  match quiz with
  | Some q => metadata q = Some (generated_at now)
  | None => True
  end.

End ValidationStatements.

Section StructuredEvaluationStatements.
Import Evaluation.

(** A bullet point as extractBulletPoints returns it: a string that is
    not empty and has no white space at either end. *)
Definition bullet_point (v : json) : Prop :=
  exists p, v = JStr p /\ p <> [] /\ trim p = p.

(** A criterion score: a number that is not negative. *)
Definition criterion_entry (kv : jsstring * json) : Prop :=
  exists n, snd kv = JNum n /\ (0 <= mantissa n)%Z.

(** An evaluation in the markdown format of the prompt. *)
Definition markdown_evaluation : jsstring := js "## Scores
- Overall: 7/10
- Accuracy: 8/10
- Clarity: 6.5 out of 10

### Strengths:
- Names the process
- Gives an example

### Areas for Improvement:
- Say where it happens

## Explanation:
  A fair answer.  ".

End StructuredEvaluationStatements.

(** ** Patterns seen from the text *)

(** Whether pattern [r] can match at all where the next code unit is [c]
    ([None] at the end of the text): a test on the first thing the
    pattern asks for, true when in doubt. *)
Fixpoint first_ok (fl : flags) (r : regex) (c : option N) : bool :=
  match r with
  | RChar a => match c with Some x => char_matches fl a x | None => false end
  | RAny => match c with
            | Some x => dotAll fl || negb (is_line_terminator x)
            | None => false
            end
  | RClass negated items =>
      match c with Some x => class_matches fl negated items x | None => false end
  | RSeq r1 _ => first_ok fl r1 c
  | RAlt r1 r2 => first_ok fl r1 c || first_ok fl r2 c
  | RRepeat min max _ r' =>
      match min, max with
      | 0, _ | _, Some 0 => true
      | _, _ => first_ok fl r' c
      end
  | RGroup _ r' => first_ok fl r' c
  | RLookahead false r' => first_ok fl r' c
  | _ => true
  end.

(** The number of code units at the head of [s] that satisfy [p]. *)
Fixpoint run (p : N -> bool) (s : jsstring) : nat :=
  match s with
  | c :: s' => if p c then S (run p s') else 0
  | [] => 0
  end.

(** A global replace read off the text: where [len] gives [Some n] for
    the text from an index on, a match of [n + 1] code units starts
    there and [replacement] takes its place; [skip] code units are still
    inside the match before. *)
Fixpoint replace_by (len : jsstring -> option nat) (replacement : jsstring)
         (skip : nat) (s : jsstring) : jsstring :=
  match s with
  | [] => []
  | c :: s' =>
      match skip with
      | S k => replace_by len replacement k s'
      | 0 =>
          match len s with
          | Some n => replacement ++ replace_by len replacement n s'
          | None => c :: replace_by len replacement 0 s'
          end
      end
  end.

(** ** sanitizeInput (the evaluation prompts) *)

Module Prompts.

(** "/[\u0000-\u001F\u007F-\u009F]/g" *)
Definition control : regex := RClass false [CRange 0 31; CRange 127 159].

(** Sanitize user input to prevent prompt injection *)
Definition sanitizeInput (input : jsstring) : jsstring :=
  (* Remove any control characters *)
  let sanitized := replace_all no_flags control (fun _ => []) input in
  (* Trim excessive whitespace *)
  trim (replace_all no_flags Preprocessor.spaces (fun _ => js " ") sanitized).

End Prompts.

(** ** Shapes of a text *)

Definition is_control (c : N) : bool := between 0 31 c || between 127 159 c.

(** Every run of white space replaced by one space: [in_run] says that
    the code unit before was white space. *)
Fixpoint squeeze_from (in_run : bool) (s : jsstring) : jsstring :=
  match s with
  | [] => []
  | c :: s' =>
      if is_space c
      then if in_run then squeeze_from true s' else 32%N :: squeeze_from true s'
      else c :: squeeze_from false s'
  end.

Definition squeeze (s : jsstring) : jsstring := squeeze_from false s.

(** The only white space of [s] is the space U+0020, and no two spaces
    follow one another. *)
Fixpoint single_spaced (s : jsstring) : Prop :=
  match s with
  | [] => True
  | c :: s' =>
      (is_space c = true ->
       c = 32%N /\ match s' with d :: _ => is_space d = false | [] => True end)
      /\ single_spaced s'
  end.

(** Single spaces between words and none at either end. *)
Definition normalized (s : jsstring) : Prop := single_spaced s /\ trim s = s.

(** Every "<" of [s] is followed by ">" or ends the text: no tag, comment
    or element opens in [s]. *)
Fixpoint tag_closed (s : jsstring) : Prop :=
  match s with
  | [] => True
  | c :: s' =>
      (c = 60%N -> match s' with d :: _ => d = 62%N | [] => True end)
      /\ tag_closed s'
  end.

(** Any code unit but ">". *)
Definition not_gt (c : N) : bool := negb (62 =? c)%N.

(** The tag that starts [s], as "/<\/?[^>]+(>|$)/" matches it: its
    length minus one. *)
Definition tag_len (s : jsstring) : option nat :=
  match s with
  | c :: t =>
      if (c =? 60)%N && (0 <? run not_gt t)%nat
      then Some (run not_gt t + match skipn (run not_gt t) t with
                                | _ :: _ => 1
                                | [] => 0
                                end)
      else None
  | [] => None
  end.

(** ** More of String and Array *)

Section MatchAll.
Variable fl : flags.
Variable input : jsstring.

(** The matches that [input.match(r)] and [input.matchAll(r)] list for a
    pattern with the [g] flag: each search starts where the match before
    ended, one index further after an empty match. *)
Fixpoint match_scan (r : regex) (n i last : nat) : list match_result :=
  match n with
  | 0 => []
  | S n' =>
      if (i <? last)%nat then match_scan r n' (S i) last
      else
        match match_at fl input r i with
        | Some m =>
            m :: match_scan r n' (S i) (if (m_end m =? i)%nat then S i else m_end m)
        | None => match_scan r n' (S i) last
        end
  end.

End MatchAll.

Definition match_all (fl : flags) (r : regex) (s : jsstring) : list match_result :=
  match_scan fl s r (S (length s)) 0 0.

(** [l.slice(start, stop)] for integers: a negative index counts from
    the end, and both are clamped to the array. *)
Definition array_slice {A} (l : list A) (start stop : Z) : list A :=
  let n := Z.of_nat (length l) in
  let k := if (start <? 0)%Z then Z.max (n + start) 0 else Z.min start n in
  let e := if (stop <? 0)%Z then Z.max (n + stop) 0 else Z.min stop n in
  firstn (Z.to_nat (e - k)) (skipn (Z.to_nat k) l).

(** ** truncateContent over the limit, and what it calls *)

Module Truncation.

Import Preprocessor.

(** "/\n\s*\n/" *)
Definition paragraph_break : regex := seq [RChar LF; star space; RChar LF].

(** "/\n\s*#{1,3}\s+[^\n]+|\n\s*\n/g" *)
Definition sectionDelimiters : regex :=
  alt [seq [RChar LF; star space; times 1 3 (lit "#"); plus space;
            plus (RClass true [CChar LF])];
       seq [RChar LF; star space; RChar LF]].

(** The sections between the delimiters [ms], from [lastIndex] on. *)
Fixpoint sections_between (content : jsstring) (ms : list match_result) (lastIndex : nat)
  : list jsstring :=
  match ms with
  | [] =>
      (* Add the last section *)
      if (lastIndex <? length content)%nat
      then [slice content lastIndex (length content)] else []
  | m :: ms' =>
      (if (lastIndex <? m_start m)%nat then [slice content lastIndex (m_start m)] else [])
        ++ sections_between content ms' (m_end m)
  end.

Definition splitIntoSections (content : jsstring) : outcome (list jsstring) :=
  match exec_all no_flags sectionDelimiters content with
  | Some ms =>
      (* Filter out empty sections *)
      Returns (filter (fun section => (0 <? length (trim section))%nat)
                      (sections_between content ms 0))
  | None => Diverges
  end.

(** "/#{1,3}\s+.*?(important|key|main|significant|primary|central)/i" *)
Definition heading_keyword : regex :=
  seq [times 1 3 (lit "#"); plus space; lazy_star RAny;
       RGroup 1 (alt [lit "important"; lit "key"; lit "main"; lit "significant";
                      lit "primary"; lit "central"])].

(** "/\n\s*[-*]\s+|\n\s*\d+\.\s+/g" *)
Definition list_item : regex :=
  alt [seq [RChar LF; star space; RClass false [CChar (ch "-"); CChar (ch "*")]; plus space];
       seq [RChar LF; star space; plus digit; lit "."; plus space]].

(** "/conclusion|therefore|thus|in summary|key point|importantly/gi" *)
Definition conclusion_word : regex :=
  alt [lit "conclusion"; lit "therefore"; lit "thus"; lit "in summary"; lit "key point";
       lit "importantly"].

(** Simple importance score calculation *)
Definition section_score (section : jsstring) : nat :=
  (if test flag_i heading_keyword section then 10 else 0)
  + length (match_all no_flags list_item section) * 2
  + length (match_all flag_i conclusion_word section) * 3
  + (if (length (split no_flags spaces section) <? 50)%nat then 2 else 0).

(** One step of a stable sort by score, descending: [x] goes behind
    every item that does not score less. *)
Fixpoint insert_ranked (x : jsstring * nat) (l : list (jsstring * nat))
  : list (jsstring * nat) :=
  match l with
  | [] => [x]
  | y :: l' => if (snd y <? snd x)%nat then x :: l else y :: insert_ranked x l'
  end.

(** [items.sort((a, b) => b.score - a.score)] *)
Definition sort_by_score (items : list (jsstring * nat)) : list (jsstring * nat) :=
  fold_left (fun sorted x => insert_ranked x sorted) items [].

Definition rankSectionsByImportance (sections : list jsstring) : list jsstring :=
  map fst (sort_by_score (map (fun section => (section, section_score section)) sections)).

(** "/[^.!?]+[.!?]+/g" *)
Definition sentence : regex := seq [plus (none_of ".!?"); plus (one_of ".!?")].

(** Add more sentences until we reach the token limit *)
Fixpoint add_sentences (sentences : list jsstring) (summary : jsstring)
         (tokenCount maxTokens : Z) : jsstring :=
  match sentences with
  | [] => summary
  | nextSentence :: rest =>
      if (tokenCount <? maxTokens)%Z then
        match nextSentence with
        | [] => add_sentences rest summary tokenCount maxTokens          (* continue *)
        | _ =>
            let nextTokens := estimateTokenCount nextSentence in
            if (tokenCount + nextTokens <=? maxTokens)%Z
            then add_sentences rest (summary ++ js " " ++ nextSentence)
                               (tokenCount + nextTokens) maxTokens
            else summary                                                 (* break *)
        end
      else summary
  end.

Definition summarizeSection (section : jsstring) (maxTokens : Z) : jsstring :=
  match map (matched section) (match_all no_flags sentence section) with
  | [] => []
  | first :: more =>
      (* If section is short enough, return as-is *)
      if (estimateTokenCount section <=? maxTokens)%Z then section
      else add_sentences more first (estimateTokenCount first) maxTokens ++ js " [...]"
  end.

(** Select sections until we reach the token limit *)
Fixpoint select_sections (rankedSections : list jsstring) (tokenCount remainingTokens : Z)
  : list jsstring :=
  match rankedSections with
  | [] => []
  | section :: rest =>
      let sectionTokens := estimateTokenCount section in
      if (tokenCount + sectionTokens <=? remainingTokens)%Z
      then section :: select_sections rest (tokenCount + sectionTokens) remainingTokens
      else
        (* If we can't fit the whole section, summarize it *)
        let summaryTokenBudget := (remainingTokens - tokenCount)%Z in
        if (100 <? summaryTokenBudget)%Z
        then [summarizeSection section summaryTokenBudget]
        else []
  end.

Definition summarized_note : jsstring := js "[Some content summarized for length...]".
Definition omitted_note : jsstring := js "[Some content omitted for length...]".
Definition truncated_note : jsstring := js "[Content truncated for length...]".

(** What follows the introduction when no section is selected and the
    conclusion is empty. *)
Definition notes_tail : jsstring :=
  [LF; LF] ++ summarized_note ++ [LF; LF] ++ omitted_note ++ [LF; LF].

Definition extractImportantContent (content : jsstring) (maxTokens : Z) : outcome jsstring :=
  sections <- splitIntoSections content ;;
  (* Get introduction (first section) *)
  let introduction := hd [] sections in
  let sections := tl sections in
  (* Get conclusion (last section) *)
  let conclusion := last sections [] in
  let sections := removelast sections in
  let introTokens := estimateTokenCount introduction in
  let conclusionTokens := estimateTokenCount conclusion in
  let remainingTokens := (maxTokens - introTokens - conclusionTokens)%Z in
  let rankedSections := rankSectionsByImportance sections in
  let selectedSections := select_sections rankedSections 0 remainingTokens in
  Returns (join [LF; LF]
                ([introduction; summarized_note] ++ selectedSections
                 ++ [omitted_note; conclusion])).

(** truncateContent from "Split by paragraphs" on: the content is not
    empty and its estimate is above [maxTokens].  The quotients are the
    exact rational ones. *)
Definition truncateOverLimit (content : jsstring) (maxTokens : Z) : outcome jsstring :=
  let estimatedTokens := estimateTokenCount content in
  (* Split by paragraphs *)
  let paragraphs := split no_flags paragraph_break content in
  let count := Z.of_nat (length paragraphs) in
  (* Calculate approximate token budget per paragraph *)
  let averageTokensPerParagraph := (inject_Z estimatedTokens / inject_Z count)%Q in
  let maxParagraphs := Qfloor (inject_Z maxTokens / averageTokensPerParagraph)%Q in
  (* If we need to reduce significantly, extract most important parts *)
  if negb (Qle_bool (inject_Z count / 2) (inject_Z maxParagraphs))%Q
  then extractImportantContent content maxTokens
  else
    let startParagraphs := Qceiling (inject_Z maxParagraphs * 0.5)%Q in
    let endParagraphs := Qceiling (inject_Z maxParagraphs * 0.3)%Q in
    let middleParagraphs := (maxParagraphs - startParagraphs - endParagraphs)%Z in
    let middleStart := Qfloor (inject_Z (count - middleParagraphs) / 2)%Q in
    Returns (join [LF; LF]
      (array_slice paragraphs 0 startParagraphs
       ++ (if (maxParagraphs <? count)%Z then [truncated_note] else [])
       ++ (if (0 <? middleParagraphs)%Z
           then array_slice paragraphs middleStart (middleStart + middleParagraphs)
                  ++ [truncated_note]
           else [])
       ++ (if (0 <? endParagraphs)%Z
           then array_slice paragraphs (count - endParagraphs) count
           else []))).

(** The text that truncateOverLimit returns. *)
Definition truncated (content : jsstring) (maxTokens : Z) : jsstring :=
  match truncateOverLimit content maxTokens with
  | Returns text => text
  | _ => []
  end.

(** truncateContent and preprocessContent with their own truncation. *)
Definition truncateContent : jsstring -> Z -> jsstring :=
  Preprocessor.truncateContent truncated.

Definition preprocessContent : jsstring -> PreprocessingOptions -> outcome jsstring :=
  Preprocessor.preprocessContent truncated.

End Truncation.

(** ** Texts for the truncation *)

Definition six_paragraphs : jsstring := js "one one one one

two two two two

three three three

four four four four

five five five five

six six six six".

Definition tight_budget : Preprocessor.PreprocessingOptions :=
  {| Preprocessor.maxTokens := Some 5%Z;
     Preprocessor.preserveHeadings := None;
     Preprocessor.extractKeyTerms_ := None;
     Preprocessor.summarizeLongSections := None |}.

Definition long_line : string := "Plants turn light into sugar. They need water. They need air. They grow toward the sun.".

(** ** The follow-up questions of the evaluation service *)

Module FollowUp.

Record FollowUpQuestion := {
  question : jsstring;
  purpose : jsstring;
  targetedMisconception : option jsstring;
  targetedMissingElement : option jsstring
}.

Record FollowUpQuestionsResult := {
  followUpQuestions : list FollowUpQuestion;
  explanation : jsstring;
  raw : option json
}.

(** [typeof v === 'string' ? v : undefined] *)
Definition string_or_undefined (v : option json) : option jsstring :=
  match v with
  | Some (JStr s) => Some s
  | _ => None
  end.

(** The callback of the map of validateFollowUpResult: reading a
    property of null throws. *)
Definition validateFollowUpQuestion (q : json) : outcome FollowUpQuestion :=
  match q with
  | JNull => Throws TypeError
  | _ =>
      Returns {| question := Evaluation.string_or_empty (get q "question");
                 purpose := Evaluation.string_or_empty (get q "purpose");
                 targetedMisconception := string_or_undefined (get q "targetedMisconception");
                 targetedMissingElement := string_or_undefined (get q "targetedMissingElement") |}
  end.

Definition validateFollowUpResult (result : json) : outcome FollowUpQuestionsResult :=
  questions <- match get result "followUpQuestions" with
               | Some (JArr qs) => mapM validateFollowUpQuestion qs
               | _ => Returns []
               end ;;
  Returns {| followUpQuestions := questions;
             explanation := Evaluation.string_or_empty (get result "explanation");
             raw := get result "raw" |}.

(** "(?:\n|$)" *)
Definition line_end : regex := alt [RChar LF; REol].

(** "/(?:\d+\.|\*|-)\s*(.+?)(?:\n|$)(?:\s*-\s*Purpose:\s*(.+?)(?:\n|$))?(?:\s*-\s*Targets:\s*(.+?)(?:\n|$))?/gi" *)
Definition questionRegex : regex :=
  seq [alt [seq [plus digit; lit "."]; lit "*"; lit "-"]; star space;
       RGroup 1 (lazy_plus RAny); line_end;
       opt (seq [star space; lit "-"; star space; lit "Purpose:"; star space;
                 RGroup 2 (lazy_plus RAny); line_end]);
       opt (seq [star space; lit "-"; star space; lit "Targets:"; star space;
                 RGroup 3 (lazy_plus RAny); line_end])].

(** "/(?:Explanation:|Why these questions will help:)([\s\S]*?)$/i" *)
Definition explanation_section : regex :=
  seq [alt [lit "Explanation:"; lit "Why these questions will help:"];
       RGroup 1 (lazy_star anything); REol].

(** [a || b] on strings *)
Definition or_string (a b : jsstring) : jsstring :=
  match a with
  | [] => b
  | _ => a
  end.

(** [match[3]?.includes(word) ? match[3]?.trim() : undefined] *)
Definition targeted (targets : option jsstring) (word : string) : option jsstring :=
  match targets with
  | Some t => if includes t (js word) then Some (trim t) else None
  | None => None
  end.

(** The body of the while loop: the questions pushed so far, last first. *)
Definition add_question (response : jsstring) (m : match_result)
           (followUpQuestions : list FollowUpQuestion) : list FollowUpQuestion :=
  match option_map trim (capture response m 1) with
  | Some ((_ :: _) as question_) =>
      followUpQuestions
        ++ [{| question := question_;
               purpose := or_string (match capture response m 2 with
                                     | Some p => trim p
                                     | None => []
                                     end)
                                    (js "Help fill gaps in understanding");
               targetedMisconception := targeted (capture response m 3) "misconception";
               targetedMissingElement := targeted (capture response m 3) "missing" |}]
  | _ => followUpQuestions
  end.

Definition extractStructuredFollowUps (response : jsstring)
  : outcome (option FollowUpQuestionsResult) :=
  followUpQuestions <- match exec_all flag_i questionRegex response with
                       | Some ms =>
                           Returns (fold_left (fun qs m => add_question response m qs) ms [])
                       | None => Diverges
                       end ;;
  explanation_ <- match exec flag_i explanation_section response with
                  | Some m => t <- group response m 1 ;; Returns (trim t)
                  | None => Returns []
                  end ;;
  (* If we couldn't extract any questions, return null *)
  match followUpQuestions with
  | [] => Returns None
  | _ => Returns (Some {| followUpQuestions := followUpQuestions;
                          explanation := explanation_;
                          raw := None |})
  end.

(** Fallback: create a minimal valid result structure *)
Definition fallback (response : jsstring) : FollowUpQuestionsResult :=
  {| followUpQuestions :=
       [{| question := js "What else would you like to know about this topic?";
           purpose := js "General follow-up to encourage further exploration";
           targetedMisconception := None;
           targetedMissingElement := None |}];
     explanation := js "Unable to generate specific follow-up questions";
     raw := Some (JStr response) |}.

(** [{ ...r, raw: response }] *)
Definition with_raw (r : FollowUpQuestionsResult) (response : jsstring)
  : FollowUpQuestionsResult :=
  {| followUpQuestions := followUpQuestions r; explanation := explanation r;
     raw := Some (JStr response) |}.

(** The body of the try. *)
Definition parseFollowUpBody (response : jsstring) : outcome FollowUpQuestionsResult :=
  let structured :=
    parsedResult <- extractStructuredFollowUps response ;;
    match parsedResult with
    | Some r => Returns (with_raw r response)
    | None => Returns (fallback response)
    end in
  match exec no_flags QuizParser.fenced_json response with
  | Some jsonMatch =>
      match capture response jsonMatch 1 with
      | Some ((_ :: _) as json_text) =>
          parsedJson <- Json.parse (QuizParser.cleanJson json_text) ;;
          parsedJson' <- Evaluation.set_raw parsedJson response ;;
          validateFollowUpResult parsedJson'
      | _ => structured
      end
  | None => structured
  end.

Definition parseFollowUpResponse (response : jsstring) : outcome FollowUpQuestionsResult :=
  try_catch (parseFollowUpBody response)
            (fun error =>
               Throws (WrappedError (js "Failed to parse follow-up response: ") error)).

End FollowUp.

(** ** Follow-up responses *)

Definition numbered_follow_ups : jsstring := js "## Follow-Up Questions
1. Where does photosynthesis take place?
   - Purpose: Locate the process
   - Targets: missing element about chloroplasts

2. What gas is released?

## Explanation
They fill the gaps.".

Definition null_follow_up : jsstring := quoted "```json
{'followUpQuestions': [null]}
```".

Definition has_text (q : FollowUp.FollowUpQuestion) : Prop :=
  FollowUp.question q <> [] /\ trim (FollowUp.question q) = FollowUp.question q
  /\ FollowUp.purpose q <> [].

(** ** What a pattern needs *)

(** Patterns that match no text without a digit: a digit class that a
    sequence goes through, in every alternative, at least once. *)
Fixpoint needs_digit (r : regex) : bool :=
  match r with
  | RClass false [CDigit] => true
  | RSeq r1 r2 => needs_digit r1 || needs_digit r2
  | RAlt r1 r2 => needs_digit r1 && needs_digit r2
  | RRepeat (S _) max _ r' =>
      match max with
      | Some 0 => false
      | _ => needs_digit r'
      end
  | RGroup _ r' => needs_digit r'
  | _ => false
  end.

Definition digit_between (input : jsstring) (a b : nat) : Prop :=
  exists i c, a <= i < b /\ nth_error input i = Some c /\ is_digit c = true.

Definition no_digit (s : jsstring) : Prop := Forall (fun c => is_digit c = false) s.

(* ================================================================== *)
(** * The errors of the API and the replies in plain text *)
(* ================================================================== *)

Module Errors.

Inductive ClaudeErrorType :=
| invalid_request_error
| authentication_error
| permission_error
| not_found_error
| rate_limit_error
| api_error
| timeout_error
| connection_error
| parsing_error
| unknown_error.

Record ClaudeApiError := {
  message : jsstring;
  type : ClaudeErrorType;
  statusCode : option N;
  retryable : bool
}.

(** What a catch clause receives: a ClaudeApiError, another Error with
    its message, or a value that is no Error, with the text String gives
    for it. *)
Inductive thrown :=
| Api (error : ClaudeApiError)
| Err (message : jsstring)
| Other (text : jsstring).

(** "/status (\d+)/" *)
Definition status : regex := seq [lit "status "; RGroup 1 (plus digit)].

(** [parseInt(text, 10)] on a capture of digits; [None] is NaN. *)
Definition parseInt (text : option jsstring) : option N :=
  option_map digits_value text.

Definition classifyApiError (error : thrown) : ClaudeApiError :=
  match error with
  | Api error => error
  | Err message_ =>
      (* Check for network/connection errors *)
      if includes message_ (js "ECONNREFUSED") || includes message_ (js "ETIMEDOUT")
      then {| message := js "Connection error: " ++ message_;
              type := connection_error; statusCode := None; retryable := true |}
      (* Check for timeout errors *)
      else if includes message_ (js "timeout") || includes message_ (js "TIMEOUT")
      then {| message := js "Request timed out: " ++ message_;
              type := timeout_error; statusCode := None; retryable := true |}
      else
        let unknown := {| message := js "Unknown error: " ++ message_;
                          type := unknown_error; statusCode := None; retryable := false |} in
        match exec no_flags status message_ with
        | Some statusMatch =>
            match parseInt (capture message_ statusMatch 1) with
            | Some statusCode_ =>
                if (statusCode_ =? 401)%N
                then {| message := js "Authentication failed: " ++ message_;
                        type := authentication_error; statusCode := Some statusCode_;
                        retryable := false |}
                else if (statusCode_ =? 400)%N
                then {| message := js "Invalid request: " ++ message_;
                        type := invalid_request_error; statusCode := Some statusCode_;
                        retryable := false |}
                else if (statusCode_ =? 429)%N
                then {| message := js "Rate limit exceeded: " ++ message_;
                        type := rate_limit_error; statusCode := Some statusCode_;
                        retryable := true |}
                else if (statusCode_ =? 500)%N || (statusCode_ =? 502)%N
                        || (statusCode_ =? 503)%N || (statusCode_ =? 504)%N
                then {| message := js "Server error: " ++ message_;
                        type := api_error; statusCode := Some statusCode_;
                        retryable := true |}
                else unknown
            | None => unknown
            end
        | None => unknown
        end
  | Other text =>
      {| message := js "Unexpected error: " ++ text;
         type := unknown_error; statusCode := None; retryable := false |}
  end.

(** ** parseQuizQuestions *)

Definition flag_gs := {| ignoreCase := false; multiline := false; dotAll := true |}.

(** "/Q(\d+):\s*(.+?)(?=Q\d+:|$)/gs" *)
Definition questionRegex : regex :=
  seq [lit "Q"; RGroup 1 (plus digit); lit ":"; star space; RGroup 2 (lazy_plus RAny);
       RLookahead false (alt [seq [lit "Q"; plus digit; lit ":"]; REol])].

(** "/(\d+)\.\s*(.+?)(?=\d+\.|$)/gs" *)
Definition altRegex : regex :=
  seq [RGroup 1 (plus digit); lit "."; star space; RGroup 2 (lazy_plus RAny);
       RLookahead false (alt [seq [plus digit; lit "."]; REol])].

(** [matches.map(match => match[2].trim())] *)
Definition questions_of (responseText : jsstring) (matches : list match_result)
  : list jsstring :=
  map (fun m => trim (capture_text responseText m 2)) matches.

(** The error is on the left. *)
Definition parseQuizQuestions (responseText : jsstring)
  : ClaudeApiError + list jsstring :=
  let matches := match_all flag_gs questionRegex responseText in
  match matches with
  | [] =>
      (* Try alternative format: numbered questions without 'Q' prefix *)
      let altMatches := match_all flag_gs altRegex responseText in
      match altMatches with
      | [] => inl {| message := js "Failed to parse quiz questions from response";
                     type := parsing_error; statusCode := None; retryable := false |}
      | _ => inr (questions_of responseText altMatches)
      end
  | _ => inr (questions_of responseText matches)
  end.

(** ** parseEvaluationScore *)

(** "(\d+(?:\.\d+)?)" *)
Definition score_number : regex :=
  RGroup 1 (seq [plus digit; opt (seq [lit "."; plus digit])]).

(** "(?:\/\s*\d+)?" *)
Definition out_of : regex := opt (seq [lit "/"; star space; plus digit]).

(** "/Score:\s*(\d+(?:\.\d+)?)\s*(?:\/\s*\d+)?/i" *)
Definition scoreRegex : regex :=
  seq [lit "Score:"; star space; score_number; star space; out_of].

(** The alternative formats, each with its flags:
    "/Rating:\s*(\d+(?:\.\d+)?)\s*(?:\/\s*\d+)?/i",
    "/(\d+(?:\.\d+)?)\s*\/\s*\d+/" and
    "/scored\s*(\d+(?:\.\d+)?)\s*(?:out of|\/)\s*\d+/i" *)
Definition altRegexes : list (flags * regex) :=
  [(flag_i, seq [lit "Rating:"; star space; score_number; star space; out_of]);
   (no_flags, seq [score_number; star space; lit "/"; star space; plus digit]);
   (flag_i, seq [lit "scored"; star space; score_number; star space;
                 alt [lit "out of"; lit "/"]; star space; plus digit])].

(** [parseFloat(match[1])]; [None] is NaN. *)
Definition score_of (responseText : jsstring) (m : match_result) : option number :=
  option_map Evaluation.parseFloat (capture responseText m 1).

(** The loop over the alternative formats. *)
Fixpoint first_score (responseText : jsstring) (regexes : list (flags * regex))
  : option number :=
  match regexes with
  | [] =>
      (* If no score found, assume a default middle score *)
      Some {| mantissa := 5; exponent := 0 |}
  | (fl, regex) :: rest =>
      match exec fl regex responseText with
      | Some altMatch => score_of responseText altMatch
      | None => first_score responseText rest
      end
  end.

Definition parseEvaluationScore (responseText : jsstring) : option number :=
  match exec flag_i scoreRegex responseText with
  | None => first_score responseText altRegexes
  | Some m => score_of responseText m
  end.

End Errors.

(* ================================================================== *)
(** * The retry loop of the client *)
(* ================================================================== *)

Module Client.

Import Errors Retry.

Section RetryLoop.

(** What the API answers. *)
Variable ClaudeResponse : Type.

(** How the call of each attempt ends: sendMessageToClaude, raced
    against the timer when a timeout is set, resolves or rejects. *)
Variable call : nat -> ClaudeResponse + thrown.

(** The value Math.random() returns in the backoff of each attempt. *)
Variable random : nat -> Q.

Variable retryConfig : RetryConfig.

(** [attempt < retryConfig.maxRetries] *)
Definition retries_left (attempt : nat) : bool :=
  negb (Qle_bool (maxRetries retryConfig) (inject_Z (Z.of_nat attempt))).

(** The loop from [attempt] on, [rounds] being the number of values of
    [attempt] left with [attempt <= retryConfig.maxRetries].  The
    result comes with the waits of setTimeout, in order; a rejection is
    on the left. *)
Fixpoint attempts_from (rounds attempt : nat) (lastError : option ClaudeApiError)
         (waits : list Q) : (ClaudeApiError + ClaudeResponse) * list Q :=
  match rounds with
  | 0 =>
      (inl match lastError with
           | Some error => error
           | None => {| message := js "Unknown error during retry logic";
                        type := unknown_error; statusCode := None; retryable := false |}
           end, waits)
  | S rounds' =>
      match call attempt with
      | inl response => (inr response, waits)
      | inr error =>
          let claudeError := match error with
                             | Api e => e
                             | _ => classifyApiError error
                             end in
          (* Only retry if the error is retryable and we haven't exceeded max retries *)
          if retryable claudeError && retries_left attempt
          then let backoffMs := calculateBackoff attempt retryConfig (random attempt) in
               attempts_from rounds' (S attempt) (Some claudeError) (waits ++ [backoffMs])
          else (inl claudeError, waits)
      end
  end.

(** The values 0, 1, ... of [attempt] that pass [attempt <= maxRetries]. *)
Definition rounds : nat := Z.to_nat (Qfloor (maxRetries retryConfig) + 1).

Definition sendMessageToClaudeWithRetry : (ClaudeApiError + ClaudeResponse) * list Q :=
  attempts_from rounds 0 None [].

End RetryLoop.

Arguments attempts_from {ClaudeResponse} call random retryConfig rounds attempt lastError waits.
Arguments sendMessageToClaudeWithRetry {ClaudeResponse} call random retryConfig.

End Client.

(* ================================================================== *)
(** * The tokens of a conversation *)
(* ================================================================== *)

Module Messages.

Record Message := { role : jsstring; content : jsstring }.

Definition estimateMessageTokens (messages : list Message) : Z :=
  (* Add estimated tokens for each message, and the overhead for role
     and message formatting *)
  let totalTokens :=
    fold_left (fun totalTokens msg =>
                 (totalTokens + Tokens.estimateTokenCount (content msg) + 4)%Z)
              messages 0%Z in
  (* Add system overhead *)
  (totalTokens + 10)%Z.

End Messages.

(** ** Statements on errors and retries *)

Section ErrorStatements.

Import Errors.

(** The types that classifyApiError marks for a retry. *)
Definition transient (t : ClaudeErrorType) : bool :=
  match t with
  | connection_error | timeout_error | rate_limit_error | api_error => true
  | _ => false
  end.

(** The status codes that go with a type. *)
Definition status_of (t : ClaudeErrorType) (code : option N) : Prop :=
  match t with
  | authentication_error => code = Some 401%N
  | invalid_request_error => code = Some 400%N
  | rate_limit_error => code = Some 429%N
  | api_error => In code [Some 500%N; Some 502%N; Some 503%N; Some 504%N]
  | connection_error | timeout_error | unknown_error => code = None
  | _ => False
  end.

Definition text_of (error : thrown) : jsstring :=
  match error with
  | Api e => message e
  | Err m => m
  | Other t => t
  end.

(** The error the retry loop handles: [error instanceof ClaudeApiError
    ? error : classifyApiError(error)]. *)
Definition handled (error : thrown) : ClaudeApiError :=
  match error with
  | Api e => e
  | _ => classifyApiError error
  end.

(** An attempt that ends with an error marked for a retry. *)
Definition fails_retryable {R} (call : nat -> R + thrown) (i : nat) : Prop :=
  exists error, call i = inr error /\ retryable (handled error) = true.

(** Two attempts that meet a server error, then an answer. *)
Definition third_time_lucky (attempt : nat) : unit + thrown :=
  if (attempt <? 2)%nat then inr (Err (js "Request failed with status 503")) else inl tt.

Definition conversation : list Messages.Message :=
  [{| Messages.role := js "user"; Messages.content := js "Hello" |};
   {| Messages.role := js "assistant"; Messages.content := js "Hi there" |}].

End ErrorStatements.

(* ================================================================== *)
(** * The cache of the evaluation service *)
(* ================================================================== *)

Module EvaluationCache.

(** ** The key *)

(** ToInt32: the integer modulo 2^32, between -2^31 and 2^31 - 1. *)
Definition to_int32 (z : Z) : Z := ((z + 2 ^ 31) mod 2 ^ 32 - 2 ^ 31)%Z.

(** One round of the loop of simpleHash.  [hash << 5] is an int32, the
    subtraction and the addition are exact, and [hash & hash] is
    ToInt32. *)
Definition hash_step (hash : Z) (char : N) : Z :=
  let hash := (to_int32 (hash * 32) - hash + Z.of_N char)%Z in
  to_int32 hash.

Definition hash_value (str : jsstring) : Z := fold_left hash_step str 0%Z.

(** The digit [d] below 36 as toString(36) writes it. *)
Definition digit36 (d : N) : N := if (d <? 10)%N then (48 + d)%N else (87 + d)%N.

Fixpoint digits36 (fuel : nat) (n : N) (acc : jsstring) : jsstring :=
  match fuel with
  | 0 => acc
  | S fuel' =>
      let acc' := digit36 (n mod 36) :: acc in
      if (n / 36 =? 0)%N then acc' else digits36 fuel' (n / 36) acc'
  end.

(** [z.toString(36)] for an integer. *)
Definition to_base36 (z : Z) : jsstring :=
  let n := Z.to_N (Z.abs z) in
  let digits := digits36 (S (N.to_nat (N.log2 n))) n [] in
  if (z <? 0)%Z then ch "-" :: digits else digits.

Definition simpleHash (str : jsstring) : jsstring := to_base36 (hash_value str).

(** The order of [sort()] without a comparison function: strings by
    their code units. *)
Fixpoint leb (a b : jsstring) : bool :=
  match a, b with
  | [], _ => true
  | _ :: _, [] => false
  | x :: a', y :: b' => (x <? y)%N || ((x =? y)%N && leb a' b')
  end.

Fixpoint insert (x : jsstring) (l : list jsstring) : list jsstring :=
  match l with
  | [] => [x]
  | y :: l' => if leb x y then x :: l else y :: insert x l'
  end.

(** [l.sort()]: the strings in increasing order. *)
Definition sort (l : list jsstring) : list jsstring := fold_right insert [] l.

Inductive EvaluationPromptType := FACTUAL | ANALYTICAL | CONCEPTUAL.

Definition type_text (t : EvaluationPromptType) : jsstring :=
  match t with
  | FACTUAL => js "factual"
  | ANALYTICAL => js "analytical"
  | CONCEPTUAL => js "conceptual"
  end.

Section Key.

(** String.prototype.toLowerCase: the key is built from any text, and
    what follows holds for whatever the case map does. *)
Variable toLowerCase : jsstring -> jsstring.

Definition generateCacheKey (userResponse question : jsstring)
           (expectedElements : list jsstring) (questionType : EvaluationPromptType)
  : jsstring :=
  let normalizedResponse := toLowerCase (trim userResponse) in
  let normalizedQuestion := toLowerCase (trim question) in
  let normalizedElements :=
    join (js "|") (sort (map (fun e => toLowerCase (trim e)) expectedElements)) in
  let input := normalizedResponse ++ js "|" ++ normalizedQuestion ++ js "|"
               ++ normalizedElements ++ js "|" ++ type_text questionType in
  simpleHash input.

End Key.

(** ** The entries *)

Section Cache.

(** What is cached. *)
Variable data : Type.

Record item := { timestamp : Z; data_of : data }.

(** A Map from strings: the entries in the order of insertion. *)
Definition cache := list (jsstring * item).

(** Map.prototype.get *)
Fixpoint map_get (c : cache) (key : jsstring) : option item :=
  match c with
  | [] => None
  | (k, v) :: c' => if JsString.eqb k key then Some v else map_get c' key
  end.

(** Map.prototype.set: the value is replaced where the key is, or the
    entry comes last. *)
Fixpoint map_set (c : cache) (key : jsstring) (v : item) : cache :=
  match c with
  | [] => [(key, v)]
  | (k, w) :: c' =>
      if JsString.eqb k key then (k, v) :: c' else (k, w) :: map_set c' key v
  end.

(** Map.prototype.delete *)
Definition map_delete (c : cache) (key : jsstring) : cache :=
  filter (fun kv => negb (JsString.eqb (fst kv) key)) c.

(** [this.options.cacheExpiry], in minutes. *)
Variable cacheExpiry : Q.

Definition expiryMs : Q := (cacheExpiry * 60 * 1000)%Q.

(** [now - item.timestamp > expiryMs] *)
Definition expired (now : Z) (it : item) : bool :=
  negb (Qle_bool (inject_Z (now - timestamp it)) expiryMs).

(** [now] is what Date.now() returns; the result comes with the cache
    as the call leaves it, and [None] is null. *)
Definition getFromCache (now : Z) (key : jsstring) (c : cache) : option data * cache :=
  match map_get c key with
  | None => (None, c)
  | Some it =>
      (* Check if expired *)
      if expired now it then (None, map_delete c key)
      else (Some (data_of it), c)
  end.

(** The forEach of cleanCache deletes the entry it visits. *)
Definition cleanCache (now : Z) (c : cache) : cache :=
  filter (fun kv => negb (expired now (snd kv))) c.

(** [now] is the Date.now() of the entry and [later] that of
    cleanCache. *)
Definition saveToCache (now later : Z) (key : jsstring) (d : data) (c : cache) : cache :=
  cleanCache later (map_set c key {| timestamp := now; data_of := d |}).

End Cache.

Arguments timestamp {data} i.
Arguments data_of {data} i.
Arguments map_get {data} c key.
Arguments map_set {data} c key v.
Arguments map_delete {data} c key.
Arguments expired {data} cacheExpiry now it.
Arguments getFromCache {data} cacheExpiry now key c.
Arguments cleanCache {data} cacheExpiry now c.
Arguments saveToCache {data} cacheExpiry now later key d c.

End EvaluationCache.

(** ** Statements on the cache *)

Section CacheStatements.

Import EvaluationCache.

(** The 31-polynomial of the code units. *)
Definition polynomial (str : jsstring) : Z :=
  fold_left (fun h c => (31 * h + Z.of_N c)%Z) str 0%Z.

(** An entry that is not expired at [now]. *)
Definition fresh {data} (cacheExpiry : Q) (now : Z) (kv : jsstring * item data) : Prop :=
  (inject_Z (now - timestamp (snd kv)) <= expiryMs cacheExpiry)%Q.

End CacheStatements.

(** ** Key terms *)

(** An entry of the key terms as extractKeyTerms admits it: a term of
    more than three characters and a definition that is not empty, both
    without white space around them. *)
Definition key_term (kv : jsstring * json) : Prop :=
  3 < length (fst kv) /\ trim (fst kv) = fst kv
  /\ exists d, snd kv = JStr d /\ d <> [] /\ trim d = d.

(* ================================================================== *)
(** * The storage of the quizzes *)
(* ================================================================== *)

Module QuizStorage.

Import QuizParser.

(** Maximum number of quizzes to keep in storage *)
Definition MAX_STORED_QUIZZES : nat := 50.

Record StoredQuiz := {
  quiz_id : jsstring;                      (* the property id *)
  tabId : option Z;
  url : jsstring;
  title : jsstring;
  createdAt : jsstring;
  updatedAt : jsstring;
  stored_questions : list QuizQuestion;    (* the property questions *)
  stored_metadata : object                 (* the property metadata *)
}.

Record SaveQuizOptions := {
  options_tabId : option Z;
  options_url : jsstring;
  options_title : jsstring;
  options_metadata : option object
}.

(** Partial<StoredQuiz>: [None] is a property that is absent. *)
Record Updates := {
  new_id : option jsstring;
  new_tabId : option Z;
  new_url : option jsstring;
  new_title : option jsstring;
  new_createdAt : option jsstring;
  new_updatedAt : option jsstring;
  new_questions : option (list QuizQuestion);
  new_metadata : option object
}.

(** What chrome.storage.local holds under the key of the quizzes;
    [None] when nothing was stored. *)
Definition storage := option (list StoredQuiz).

(** Whether the calls of chrome.storage.local.get and of
    chrome.storage.local.set resolve; a call that does not rejects. *)
Record chrome := { get_resolves : bool; set_resolves : bool }.

(** [generateQuizId]: [timestamp] is what Date.now() returns and
    [random] the six characters taken from Math.random().toString(36). *)
Definition generateQuizId (timestamp : Z) (random : jsstring) : jsstring :=
  js "quiz_" ++ EvaluationCache.to_base36 timestamp ++ js "_" ++ random.

Definition getStoredQuizzes (env : chrome) (st : storage) : list StoredQuiz :=
  if get_resolves env
  then match st with
       | Some quizzes => quizzes
       | None => []
       end
  else [].

(** [created] and [updated] are the two readings of
    [new Date().toISOString()].  The result is the promise, a rejection
    with its message on the left, and the storage afterwards. *)
Definition saveQuiz (timestamp : Z) (random created updated : jsstring) (env : chrome)
           (quiz : Quiz) (options : SaveQuizOptions) (st : storage)
  : (jsstring + StoredQuiz) * storage :=
  (* Create a storage object with metadata *)
  let storedQuiz :=
    {| quiz_id := generateQuizId timestamp random;
       tabId := options_tabId options;
       url := options_url options;
       title := options_title options;
       createdAt := created;
       updatedAt := updated;
       stored_questions := questions quiz;
       stored_metadata := spread_into (spread_into [] (default [] (metadata quiz)))
                                      (default [] (options_metadata options)) |} in
  (* Get existing quizzes *)
  let storedQuizzes := getStoredQuizzes env st in
  (* Add new quiz *)
  let storedQuizzes := storedQuiz :: storedQuizzes in
  (* Enforce maximum storage limit *)
  let trimmedQuizzes := firstn MAX_STORED_QUIZZES storedQuizzes in
  (* Save back to storage *)
  if set_resolves env then (inr storedQuiz, Some trimmedQuizzes)
  else (inl (js "Failed to save quiz to storage"), st).

Definition getQuizById (env : chrome) (id : jsstring) (st : storage) : option StoredQuiz :=
  find (fun quiz => JsString.eqb (quiz_id quiz) id) (getStoredQuizzes env st).

Definition getQuizByUrl (env : chrome) (url_ : jsstring) (st : storage) : option StoredQuiz :=
  find (fun quiz => JsString.eqb (url quiz) url_) (getStoredQuizzes env st).

Definition getQuizByTabId (env : chrome) (tabId_ : Z) (st : storage) : option StoredQuiz :=
  find (fun quiz => match tabId quiz with
                    | Some t => (t =? tabId_)%Z
                    | None => false
                    end)
       (getStoredQuizzes env st).

(** [{ ...quiz, ...updates, updatedAt: now }] *)
Definition updated_quiz (quiz : StoredQuiz) (updates : Updates) (now : jsstring) : StoredQuiz :=
  {| quiz_id := default (quiz_id quiz) (new_id updates);
     tabId := match new_tabId updates with
              | Some t => Some t
              | None => tabId quiz
              end;
     url := default (url quiz) (new_url updates);
     title := default (title quiz) (new_title updates);
     createdAt := default (createdAt quiz) (new_createdAt updates);
     updatedAt := now;
     stored_questions := default (stored_questions quiz) (new_questions updates);
     stored_metadata := default (stored_metadata quiz) (new_metadata updates) |}.

(** Array.prototype.findIndex; [None] is -1. *)
Fixpoint findIndex {A} (p : A -> bool) (l : list A) : option nat :=
  match l with
  | [] => None
  | x :: l' => if p x then Some 0 else option_map S (findIndex p l')
  end.

(** [l[i] = v] for an index inside the array. *)
Fixpoint replace_at {A} (i : nat) (v : A) (l : list A) : list A :=
  match l, i with
  | [], _ => []
  | _ :: l', 0 => v :: l'
  | x :: l', S i' => x :: replace_at i' v l'
  end.

Definition updateQuiz (now : jsstring) (env : chrome) (id : jsstring) (updates : Updates)
           (st : storage) : option StoredQuiz * storage :=
  let quizzes := getStoredQuizzes env st in
  match findIndex (fun quiz => JsString.eqb (quiz_id quiz) id) quizzes with
  | None => (None, st)
  | Some quizIndex =>
      match nth_error quizzes quizIndex with
      | Some quiz =>
          (* Update quiz *)
          let quizzes' := replace_at quizIndex (updated_quiz quiz updates now) quizzes in
          (* Save back to storage *)
          if set_resolves env
          then (nth_error quizzes' quizIndex, Some quizzes')
          else (None, st)
      | None => (None, st)       (* the index found is inside the array *)
      end
  end.

Definition deleteQuiz (env : chrome) (id : jsstring) (st : storage) : bool * storage :=
  let quizzes := getStoredQuizzes env st in
  let filteredQuizzes := filter (fun quiz => negb (JsString.eqb (quiz_id quiz) id)) quizzes in
  (* If no quiz was removed, return false *)
  if (length filteredQuizzes =? length quizzes)%nat then (false, st)
  else if set_resolves env then (true, Some filteredQuizzes)
  else (false, st).

Definition clearQuizzes (env : chrome) (st : storage) : bool * storage :=
  if set_resolves env then (true, Some []) else (false, st).

End QuizStorage.

(** ** Statements on the storage *)

Section StorageStatements.

Import QuizStorage.

(** A browser whose storage answers. *)
Definition working : chrome := {| get_resolves := true; set_resolves := true |}.

(** The read fails and the write goes through. *)
Definition unreadable : chrome := {| get_resolves := false; set_resolves := true |}.

Definition article : SaveQuizOptions :=
  {| options_tabId := Some 7%Z; options_url := js "https://example.org/leaves";
     options_title := js "Leaves"; options_metadata := None |}.

Definition old_quiz : StoredQuiz :=
  {| quiz_id := js "quiz_old_000000"; tabId := None; url := js "https://example.org/roots";
     title := js "Roots"; createdAt := js "2023-01-01T00:00:00.000Z";
     updatedAt := js "2023-01-01T00:00:00.000Z"; stored_questions := [];
     stored_metadata := [] |}.

Definition empty_quiz : QuizParser.Quiz :=
  {| QuizParser.questions := []; QuizParser.metadata := None; QuizParser.error := None |}.

End StorageStatements.

(* ================================================================== *)
(** * Facts about the matcher *)
(* ================================================================== *)

Section MatcherFacts.

Variable fl : flags.
Variable input : jsstring.

Lemma nth_set_nth_same {A} (n : nat) (v d : A) (l : list A) :
  nth n (set_nth n v d l) d = v.
Proof.
  revert l; induction n as [|n IH]; intros [|a l]; simpl; auto.
Qed.

Lemma nth_set_nth_other {A} (n m : nat) (v d : A) (l : list A) :
  m <> n -> nth m (set_nth n v d l) d = nth m l d.
Proof.
  revert m l; induction n as [|n IH]; intros [|m] [|a l] Hne; simpl; auto; try congruence.
  - destruct m; reflexivity.
  - rewrite IH by congruence. destruct m; reflexivity.
Qed.

Lemma cap_set_cap_same n v x : cap (set_cap n v x) n = v.
Proof. apply nth_set_nth_same. Qed.

Lemma cap_set_cap_other n m v x : m <> n -> cap (set_cap n v x) m = cap x m.
Proof. apply nth_set_nth_other. Qed.

Lemma pos_clear_caps gs x : pos (clear_caps gs x) = pos x.
Proof.
  unfold clear_caps. revert x; induction gs as [|g gs IH]; intro x; simpl; auto.
  rewrite IH. reflexivity.
Qed.

Lemma cap_clear_caps gs x n : ~ In n gs -> cap (clear_caps gs x) n = cap x n.
Proof.
  unfold clear_caps. revert x; induction gs as [|g gs IH]; intros x Hn; simpl; auto.
  rewrite IH by (intro; apply Hn; right; assumption).
  apply cap_set_cap_other. intro; apply Hn; left; congruence.
Qed.

Lemma mentions_In n r : mentions n r = true <-> In n (groups r).
Proof.
  unfold mentions. rewrite existsb_exists. split.
  - intros (m & Hin & Heq). apply Nat.eqb_eq in Heq. congruence.
  - intro H. exists n. split; auto. apply Nat.eqb_refl.
Qed.

Lemma step_if_inv p k x z :
  step_if input p k x = Some z ->
  k {| pos := S (pos x); caps := caps x |} = Some z /\ pos x < length input.
Proof.
  unfold step_if, char_at. destruct (nth_error input (pos x)) eqn:E; try discriminate.
  destruct (p n); try discriminate. intro H. split; auto.
  apply nth_error_Some. congruence.
Qed.

Lemma or_else_inv a b z :
  or_else a b = Some z -> a = Some z \/ b tt = Some z.
Proof. destruct a; simpl; auto. Qed.

(** The repetition of a pattern whose single match obeys [advances]. *)
Lemma repeat_matcher_advances (r : regex) (mr : cont -> cont) greedy :
  (forall k x z, mr k x = Some z -> exists y, k y = Some z /\ advances input r x y) ->
  forall fuel min max k x z,
    repeat_matcher mr (groups r) greedy fuel min max k x = Some z ->
    exists y, k y = Some z
              /\ pos x + match max with Some m => Nat.min min m | None => min end * min_len r
                 <= pos y
              /\ (forall n, ~ In n (groups r) -> cap y n = cap x n)
              /\ (pos x <= length input -> pos y <= length input).
Proof.
  intros Hmr. induction fuel as [|fuel IH]; intros min max k x z H; simpl in H.
  - discriminate.
  - assert (Hstep : forall min' max',
               mr (fun y =>
                     if (min =? 0)%nat && (pos y =? pos x)%nat then None
                     else repeat_matcher mr (groups r) greedy fuel min' max' k y)
                  (clear_caps (groups r) x) = Some z ->
               exists y, k y = Some z
                         /\ pos x + min_len r
                            + match max' with Some m => Nat.min min' m | None => min' end
                              * min_len r <= pos y
                         /\ (forall n, ~ In n (groups r) -> cap y n = cap x n)
                         /\ (pos x <= length input -> pos y <= length input)).
    { intros min' max' Hm. apply Hmr in Hm.
      destruct Hm as (y & Hd & Hadv & Hcap & _ & Hb).
      destruct ((min =? 0)%nat && (pos y =? pos x)%nat); try discriminate.
      apply IH in Hd. destruct Hd as (y' & Hk & Hpos & Hcap' & Hb').
      exists y'. split; auto. rewrite pos_clear_caps in Hadv, Hb. split; [lia|]. split.
      - intros n Hn. rewrite Hcap' by assumption. rewrite Hcap by assumption.
        apply cap_clear_caps; assumption.
      - auto. }
    destruct max as [[|m]|].
    + exists x. split; auto. split; [rewrite Nat.min_0_r; lia | auto].
    + destruct min as [|min]; simpl in H.
      * destruct greedy; apply or_else_inv in H; destruct H as [H|H];
          try (exists x; split; [exact H|split; [lia|auto]]);
          apply Hstep in H; destruct H as (y & Hk & Hpos & Hcap);
          exists y; (split; [exact Hk|split; [lia|exact Hcap]]).
      * apply Hstep in H. destruct H as (y & Hk & Hpos & Hcap).
        exists y. split; [exact Hk|split; [|exact Hcap]].
        simpl in Hpos. simpl. destruct m; simpl in *; lia.
    + destruct min as [|min]; simpl in H.
      * destruct greedy; apply or_else_inv in H; destruct H as [H|H];
          try (exists x; split; [exact H|split; [lia|auto]]);
          apply Hstep in H; destruct H as (y & Hk & Hpos & Hcap);
          exists y; (split; [exact Hk|split; [lia|exact Hcap]]).
      * apply Hstep in H. destruct H as (y & Hk & Hpos & Hcap).
        exists y. split; [exact Hk|split; [|exact Hcap]].
        simpl in Hpos. simpl. lia.
Qed.

Ltac leaf := simpl; repeat split; auto; try lia; try (intros ? []).

(** Every success of the matcher of [r] goes through the continuation,
    at a state that [r] leads to. *)
Lemma matcher_advances (r : regex) :
  forall k x z, matcher fl input r k x = Some z ->
                exists y, k y = Some z /\ advances input r x y.
Proof.
  unfold advances.
  induction r as [ |c| |neg items|r1 IH1 r2 IH2|r1 IH1 r2 IH2|min max greedy r IH
                 |g r IH|neg r IH| | | ]; intros k x z H.
  - simpl in H. exists x. leaf.
  - simpl in H. apply step_if_inv in H. destruct H as [H Hlt].
    eexists; split; [exact H|]. leaf.
  - simpl in H. apply step_if_inv in H. destruct H as [H Hlt].
    eexists; split; [exact H|]. leaf.
  - simpl in H. apply step_if_inv in H. destruct H as [H Hlt].
    eexists; split; [exact H|]. leaf.
  - simpl in H. apply IH1 in H. destruct H as (y1 & H & Hp1 & Hc1 & Hs1 & Hb1).
    apply IH2 in H. destruct H as (y2 & H & Hp2 & Hc2 & Hs2 & Hb2).
    exists y2. split; auto. simpl. split; [lia|]. split; [|split].
    + intros n Hn. rewrite Hc2, Hc1; auto; intro; apply Hn; apply in_or_app; auto.
    + intros n Hn. apply in_app_or in Hn. destruct Hn as [Hn|Hn]; auto.
      apply filter_In in Hn. destruct Hn as [Hn Hm].
      rewrite Hc2; auto. intro Hin. apply mentions_In in Hin. rewrite Hin in Hm. discriminate.
    + auto.
  - simpl in H. apply or_else_inv in H. destruct H as [H|H].
    + apply IH1 in H. destruct H as (y & H & Hp & Hc & _ & Hb). exists y. split; auto.
      simpl. split; [lia|]. split; [|split; [intros n []|exact Hb]].
      intros n Hn. apply Hc. intro; apply Hn; apply in_or_app; auto.
    + apply IH2 in H. destruct H as (y & H & Hp & Hc & _ & Hb). exists y. split; auto.
      simpl. split; [lia|]. split; [|split; [intros n []|exact Hb]].
      intros n Hn. apply Hc. intro; apply Hn; apply in_or_app; auto.
  - change (repeat_matcher (matcher fl input r) (groups r) greedy
                           (S (min + length input)) min max k x = Some z) in H.
    eapply repeat_matcher_advances with (r := r) in H.
    + destruct H as (y & Hk & Hp & Hc & Hb). exists y. split; [exact Hk|]. simpl.
      split; [exact Hp|]. split; [exact Hc|]. split; [intros n []|exact Hb].
    + intros k' x' z' H'. apply IH in H'. exact H'.
  - simpl in H. apply IH in H. destruct H as (y & H & Hp & Hc & _ & Hb).
    eexists; split; [exact H|]. simpl. split; [exact Hp|]. split; [|split].
    + intros n Hn. rewrite cap_set_cap_other by (intro; apply Hn; left; congruence).
      apply Hc. intro; apply Hn; right; assumption.
    + intros n [Hn|[]]. subst n. rewrite cap_set_cap_same. discriminate.
    + exact Hb.
  - simpl in H. destruct (matcher fl input r Some x) as [y|] eqn:Hm.
    + destruct neg; try discriminate.
      apply IH in Hm. destruct Hm as (y' & Hy & _ & Hc & _). injection Hy as ->.
      eexists; split; [exact H|]. leaf.
    + destruct neg; try discriminate.
      exists x. leaf.
  - simpl in H. destruct (_ || _); try discriminate. exists x. leaf.
  - simpl in H. destruct (_ || _); try discriminate. exists x. leaf.
  - simpl in H. destruct (xorb _ _); try discriminate. exists x. leaf.
Qed.

(** ** Matches *)

Lemma cap_defined y n :
  cap y n <> None -> exists a b, nth_error (caps y) n = Some (Some (a, b)).
Proof.
  unfold cap. revert n. induction (caps y) as [|c l IH]; intros [|n] H; simpl in *.
  - congruence.
  - congruence.
  - destruct c as [[a b]|]; [eauto|congruence].
  - auto.
Qed.

(** A match found at [i] starts there, is at least as long as the
    pattern says, ends inside the input and defines the sure groups. *)
Lemma match_at_inv r i m :
  match_at fl input r i = Some m ->
  m_start m = i
  /\ i + min_len r <= m_end m
  /\ (i <= length input -> m_end m <= length input)
  /\ (forall n, In n (sure_groups r) -> exists t, capture input m n = Some t).
Proof.
  unfold match_at. destruct (matcher _ _ _ _ _) as [y|] eqn:H; try discriminate.
  intro E. injection E as <-. apply matcher_advances in H.
  destruct H as (y' & Hy & Hp & _ & Hs & Hb). injection Hy as ->.
  simpl in *. unfold m_end. simpl. repeat split; auto.
  intros n Hn. apply Hs in Hn. apply cap_defined in Hn. destruct Hn as (a & b & Hn).
  unfold capture. simpl. rewrite Hn. eauto.
Qed.

Lemma search_from_inv r n i m :
  search_from fl input r n i = Some m ->
  exists j, i <= j <= i + n /\ match_at fl input r j = Some m.
Proof.
  revert i; induction n as [|n IH]; intros i H; simpl in H.
  - destruct (match_at fl input r i) eqn:E; try discriminate.
    exists i. split; [lia|congruence].
  - destruct (match_at fl input r i) eqn:E.
    + exists i. split; [lia|congruence].
    + apply IH in H. destruct H as (j & Hj & H). exists j. split; [lia|exact H].
Qed.

(** The matches of an exec loop, when every match has positive length:
    the loop ends, and each match defines the sure groups. *)
Lemma exec_scan_total r :
  0 < min_len r ->
  forall n i last,
  exists ms, exec_scan fl input r n i last = Some ms
             /\ Forall (fun m => forall g, In g (sure_groups r) ->
                                           exists t, capture input m g = Some t) ms.
Proof.
  intros Hpos. induction n as [|n IH]; intros i last; simpl.
  - exists []. split; auto.
  - destruct (i <? last)%nat; [apply IH|].
    destruct (match_at fl input r i) as [m|] eqn:E; [|apply IH].
    apply match_at_inv in E. destruct E as (_ & Hlen & _ & Hs).
    destruct (Nat.eqb_spec (m_end m) i) as [Heq|Hne]; [lia|].
    destruct (IH (S i) (m_end m)) as (ms & -> & Hall).
    exists (m :: ms). split; auto.
Qed.

(** ** The fuel of a repetition *)

Lemma step_if_cong p k1 k2 x :
  agree_from input x k1 k2 -> step_if input p k1 x = step_if input p k2 x.
Proof.
  intro H. unfold step_if, char_at. destruct (nth_error input (pos x)) eqn:E; [|reflexivity].
  destruct (p n); [|reflexivity]. apply H; simpl; [lia|].
  apply Nat.le_succ_l. apply nth_error_Some. congruence.
Qed.

Lemma agree_from_later x y k1 k2 :
  pos x <= pos y -> agree_from input x k1 k2 -> agree_from input y k1 k2.
Proof. intros Hxy H z Hz Hl. apply H; [lia|exact Hl]. Qed.

Section Repeat.

Variable mr : cont -> cont.
Variable gs : list nat.
Variable greedy : bool.

(** The pattern repeated looks at its continuation only where a match
    can lead. *)
Hypothesis mr_cong :
  forall k1 k2 x, pos x <= length input -> agree_from input x k1 k2 -> mr k1 x = mr k2 x.

Lemma repeat_matcher_cong fuel :
  forall min max k1 k2 x,
    pos x <= length input -> agree_from input x k1 k2 ->
    repeat_matcher mr gs greedy fuel min max k1 x
    = repeat_matcher mr gs greedy fuel min max k2 x.
Proof.
  induction fuel as [|fuel IH]; intros min max k1 k2 x Hx Hk; simpl; [reflexivity|].
  assert (k1 x = k2 x) as Hkx by (apply Hk; lia).
  assert (forall min' max',
             mr (fun y => if (min =? 0)%nat && (pos y =? pos x)%nat then None
                          else repeat_matcher mr gs greedy fuel min' max' k1 y)
                (clear_caps gs x)
             = mr (fun y => if (min =? 0)%nat && (pos y =? pos x)%nat then None
                            else repeat_matcher mr gs greedy fuel min' max' k2 y)
                  (clear_caps gs x)) as Hm.
  { intros min' max'. apply mr_cong; [rewrite pos_clear_caps; exact Hx|].
    intros y Hy Hl. rewrite pos_clear_caps in Hy.
    destruct (_ && _); [reflexivity|].
    apply IH; [exact Hl|]. apply agree_from_later with x; assumption. }
  destruct max as [[|m]|]; [exact Hkx| |]; rewrite Hm, Hkx; reflexivity.
Qed.

(** Fuel above [min] and the characters left changes nothing. *)
Lemma repeat_matcher_fuel fuel1 :
  forall fuel2 min max k x,
    pos x <= length input ->
    min + (length input - pos x) < fuel1 ->
    min + (length input - pos x) < fuel2 ->
    repeat_matcher mr gs greedy fuel1 min max k x
    = repeat_matcher mr gs greedy fuel2 min max k x.
Proof.
  induction fuel1 as [|fuel1 IH]; intros fuel2 min max k x Hx H1 H2; [lia|].
  destruct fuel2 as [|fuel2]; [lia|]. simpl.
  assert (mr (fun y => if (min =? 0)%nat && (pos y =? pos x)%nat then None
                       else repeat_matcher mr gs greedy fuel1 (Nat.pred min)
                                           (option_map Nat.pred max) k y)
             (clear_caps gs x)
          = mr (fun y => if (min =? 0)%nat && (pos y =? pos x)%nat then None
                         else repeat_matcher mr gs greedy fuel2 (Nat.pred min)
                                             (option_map Nat.pred max) k y)
               (clear_caps gs x)) as Hm.
  { apply mr_cong; [rewrite pos_clear_caps; exact Hx|].
    intros y Hy Hl. rewrite pos_clear_caps in Hy.
    destruct (Nat.eqb_spec min 0) as [Hz|Hnz]; cbn [andb].
    - destruct (Nat.eqb_spec (pos y) (pos x)); [reflexivity|].
      apply IH; [exact Hl|lia|lia].
    - apply IH; [exact Hl|lia|lia]. }
  destruct max as [[|m]|]; [reflexivity| |]; rewrite Hm; reflexivity.
Qed.

End Repeat.

(** The matcher of a pattern looks at its continuation only where a
    match can lead: from the index of the state on, inside the input. *)
Lemma matcher_cong (r : regex) :
  forall k1 k2 x, pos x <= length input -> agree_from input x k1 k2 ->
                  matcher fl input r k1 x = matcher fl input r k2 x.
Proof.
  induction r as [ |c| |neg items|r1 IH1 r2 IH2|r1 IH1 r2 IH2|min max greedy r IH
                 |g r IH|neg r IH| | | ]; intros k1 k2 x Hx Hk.
  - simpl. apply Hk; [lia|exact Hx].
  - simpl. apply step_if_cong. exact Hk.
  - simpl. apply step_if_cong. exact Hk.
  - simpl. apply step_if_cong. exact Hk.
  - simpl. apply IH1; [exact Hx|]. intros y Hy Hl. apply IH2; [exact Hl|].
    apply agree_from_later with x; assumption.
  - simpl. rewrite (IH1 k1 k2 x Hx Hk), (IH2 k1 k2 x Hx Hk). reflexivity.
  - change (repeat_matcher (matcher fl input r) (groups r) greedy
                           (S (min + length input)) min max k1 x
            = repeat_matcher (matcher fl input r) (groups r) greedy
                             (S (min + length input)) min max k2 x).
    apply repeat_matcher_cong; assumption.
  - simpl. apply IH; [exact Hx|]. intros y Hy Hl. apply Hk; assumption.
  - simpl. destruct (matcher fl input r Some x) as [y|]; destruct neg; try reflexivity.
    + apply Hk; simpl; [lia|exact Hx].
    + apply Hk; [lia|exact Hx].
  - simpl. destruct (_ || _); [|reflexivity]. apply Hk; [lia|exact Hx].
  - simpl. destruct (_ || _); [|reflexivity]. apply Hk; [lia|exact Hx].
  - simpl. destruct (xorb _ _); [|reflexivity]. apply Hk; [lia|exact Hx].
Qed.

(** The fuel of a repetition never runs out: more of it leaves the
    result as it is. *)
Lemma matcher_fuel_enough r min max greedy k x more :
  pos x <= length input ->
  matcher fl input (RRepeat min max greedy r) k x
  = repeat_matcher (matcher fl input r) (groups r) greedy
                   (S (min + length input) + more) min max k x.
Proof.
  intro Hx.
  change (repeat_matcher (matcher fl input r) (groups r) greedy
                         (S (min + length input)) min max k x
          = repeat_matcher (matcher fl input r) (groups r) greedy
                           (S (min + length input) + more) min max k x).
  apply repeat_matcher_fuel; [apply matcher_cong|exact Hx|lia|lia].
Qed.

End MatcherFacts.

(* ================================================================== *)
(** * The runtime model on known cases *)
(* ================================================================== *)

(** The examples of the notes of the specification of RepeatMatcher and
    of lookahead. *)
Example repeat_bounds :
  match_array no_flags (seq [lit "a"; times 2 4 az]) "abcdefghi" 0 = Some [Some (js "abcde")]
  /\ match_array no_flags (seq [lit "a"; RRepeat 2 (Some 4) false az]) "abcdefghi" 0
     = Some [Some (js "abc")].
Proof. split; vm_compute; reflexivity. Qed.

Example repeat_alternatives :
  match_array no_flags
              (star (RGroup 1 (alt [lit "aa"; lit "aabaac"; lit "ba"; lit "b"; lit "c"])))
              "aabaac" 1
  = Some [Some (js "aaba"); Some (js "ba")].
Proof. vm_compute; reflexivity. Qed.

Example repeat_clears_captures :
  match_array no_flags
              (seq [RGroup 1 (lit "z");
                    star (RGroup 2 (seq [opt (RGroup 3 (plus (lit "a")));
                                         opt (RGroup 4 (plus (lit "b")));
                                         RGroup 5 (lit "c")]))])
              "zaacbbbcac" 5
  = Some [Some (js "zaacbbbcac"); Some (js "z"); Some (js "ac"); Some (js "a"); None;
          Some (js "c")].
Proof. vm_compute; reflexivity. Qed.

Example empty_iteration_refused :
  match_array no_flags (star (RGroup 1 (star (lit "a")))) "b" 1 = Some [Some []; None].
Proof. vm_compute; reflexivity. Qed.

Example lookahead_keeps_captures :
  match_array no_flags (RLookahead false (RGroup 1 (plus (lit "a")))) "baaabac" 1
  = Some [Some []; Some (js "aaa")].
Proof. vm_compute; reflexivity. Qed.

Example lazy_and_greedy :
  match_array no_flags (lazy_plus (lit "a")) "aaa" 0 = Some [Some (js "a")]
  /\ match_array no_flags (plus (lit "a")) "aaa" 0 = Some [Some (js "aaa")]
  /\ match_array no_flags (seq [lazy_star (lit "a"); REol]) "aaa" 0 = Some [Some (js "aaa")].
Proof. repeat split; vm_compute; reflexivity. Qed.

Example flags_of_a_pattern :
  test flag_i (lit "question") (js "QUESTION") = true
  /\ test no_flags (lit "question") (js "QUESTION") = false
  /\ test no_flags (seq [lit "a"; RAny; lit "b"]) (js "a
b") = false
  /\ test flag_is (seq [lit "a"; RAny; lit "b"]) (js "a
b") = true
  /\ test flag_m (seq [RBol; lit "b"]) (js "a
b") = true
  /\ test no_flags (seq [RBol; lit "b"]) (js "a
b") = false.
Proof. repeat split; vm_compute; reflexivity. Qed.

Example word_boundary :
  test no_flags (seq [RWordBoundary; lit "cat"; RWordBoundary]) (js "a cat.") = true
  /\ test no_flags (seq [RWordBoundary; lit "cat"; RWordBoundary]) (js "concat") = false.
Proof. split; vm_compute; reflexivity. Qed.

Example replace_every_match :
  replace_all no_flags (star (lit "a")) (fun _ => js "x") (js "baaac") = js "xbxxcx"
  /\ replace_all no_flags (RLookahead false (lit "y")) (fun _ => js "-") (js "xyz") = js "x-yz"
  /\ replace_all no_flags (alt [RGroup 1 (lit "a"); lit "x"])
                 (fun m => js "[" ++ capture_text (js "x") m 1 ++ js "]") (js "x")
     = js "[]".
Proof. repeat split; vm_compute; reflexivity. Qed.

Example split_by_pattern :
  split no_flags digit (js "A1b2") = texts_of ["A"; "b"; EmptyString]%string
  /\ split no_flags (lit "x") (js EmptyString) = [[]]
  /\ split no_flags (star (lit "x")) (js EmptyString) = []
  /\ split no_flags REmpty (js "abc") = texts_of ["a"; "b"; "c"]%string
  /\ split no_flags (star space) (js "a b  c") = texts_of ["a"; "b"; "c"]%string.
Proof. repeat split; vm_compute; reflexivity. Qed.

Example string_methods :
  trim (js "  x y 
") = js "x y"
  /\ toLowerCase (js "Multiple CHOICE") = js "multiple choice"
  /\ split_on LF (js "a

b") = texts_of ["a"; EmptyString; "b"]%string
  /\ split_on LF (js EmptyString) = [[]]
  /\ substring (js "hello") 1 3 = js "el"
  /\ substring (js "hello") 3 1 = js "el"
  /\ substring (js "hello") (-1) 2 = js "he"
  /\ indexOf (js "a]b") (js "]") = 1%Z
  /\ indexOf (js "ab") (js "]") = (-1)%Z
  /\ includes (js "true or false") (js "false") = true.
Proof. repeat split; vm_compute; reflexivity. Qed.

Example json_parse_values :
  Json.parse (quoted "{'b': 1, '2': 2, '1': 3, 'b': 4}")
  = Returns (JObj [(js "1", JNum (num_of_Z 3)); (js "2", JNum (num_of_Z 2));
                   (js "b", JNum (num_of_Z 4))])
  /\ Json.parse (quoted " [1, 2.5e1, -0, 'AB\n', true, null] ")
     = Returns (JArr [JNum (num_of_Z 1); JNum {| mantissa := 25; exponent := 0 |};
                      JNum (num_of_Z 0); JStr (js "AB" ++ [LF]); JBool true; JNull]).
Proof. split; vm_compute; reflexivity. Qed.

Example json_parse_errors :
  map Json.parse [js "{'a': 1}"; js "[1,]"; js "01"; js EmptyString; js "nul"; js "1 2";
                  quoted "{'a' 1}"; quoted "'a
b'"; js "{"; js "+1"; js "1."; js ".5"]
  = repeat (Throws SyntaxError) 12.
Proof. vm_compute; reflexivity. Qed.

Example string_of_a_value :
  map shown [JArr [JNum (num_of_Z 1); JArr [JNum (num_of_Z 2); JNum (num_of_Z 3)]; JNull;
                   JStr (js "x")];
             JObj [];
             JNum {| mantissa := 1; exponent := 21 |};
             JNum {| mantissa := 12345678901234568; exponent := 4 |};
             JNum {| mantissa := 1; exponent := -6 |};
             JNum {| mantissa := 1; exponent := -7 |};
             JNum {| mantissa := -15; exponent := -1 |};
             JNum (num_of_Z 100);
             JObj [(js "toString", JNull)]]
  = [Some (js "1,2,3,,x"); Some (js "[object Object]"); Some (js "1e+21");
     Some (js "123456789012345680000"); Some (js "0.000001"); Some (js "1e-7");
     Some (js "-1.5"); Some (js "100"); None].
Proof. vm_compute; reflexivity. Qed.

(* ================================================================== *)
(** * Facts about outcomes *)
(* ================================================================== *)

Lemma terminates_Returns {A} (a : A) : terminates (Returns a).
Proof. discriminate. Qed.

Lemma terminates_Throws {A} (e : exn) : terminates (@Throws A e).
Proof. discriminate. Qed.

Lemma terminates_bind {A B} (c : outcome A) (f : A -> outcome B) :
  terminates c -> (forall a, terminates (f a)) -> terminates (bind c f).
Proof.
  intros Hc Hf. destruct c; simpl; auto.
  - discriminate.
  - exfalso. apply Hc. reflexivity.
Qed.

Lemma terminates_mapM {A B} (f : A -> outcome B) (l : list A) :
  (forall a, terminates (f a)) -> terminates (mapM f l).
Proof.
  intro Hf. induction l as [|a l IH]; simpl.
  - apply terminates_Returns.
  - apply terminates_bind; auto. intro b. apply terminates_bind; auto.
    intro bs. apply terminates_Returns.
Qed.

Lemma terminates_group s m n : terminates (group s m n).
Proof. unfold group. destruct (capture s m n); discriminate. Qed.

(** A try whose body ends and whose handler returns, returns. *)
Lemma try_catch_returns {A} (body : outcome A) (handler : exn -> outcome A) :
  terminates body -> (forall e, returns (handler e)) -> returns (try_catch body handler).
Proof.
  intros Hb Hh. destruct body; simpl; auto.
  - eexists; reflexivity.
  - contradiction.
Qed.

Create HintDb terminates.
#[local] Hint Resolve terminates_Returns terminates_Throws terminates_group : terminates.

(** Goals [terminates c] for a [c] built from binds, matches and tests. *)
Ltac terminating :=
  repeat first
    [ progress intros
    | match goal with
      | |- terminates (Returns _) => apply terminates_Returns
      | |- terminates (Throws _) => apply terminates_Throws
      | |- terminates (bind _ _) => apply terminates_bind
      | |- terminates (mapM _ _) => apply terminates_mapM
      | |- terminates (match ?x with _ => _ end) => destruct x
      | |- terminates (if ?b then _ else _) => destruct b
      end
    | solve [auto with terminates] ].

(** Induction on a value, through the elements of an array. *)
Lemma json_elements_ind (P : json -> Prop) :
  P JNull -> (forall b, P (JBool b)) -> (forall n, P (JNum n)) -> (forall s, P (JStr s)) ->
  (forall l, Forall P l -> P (JArr l)) -> (forall o, P (JObj o)) ->
  forall v, P v.
Proof.
  intros HNull HBool HNum HStr HArr HObj.
  fix IH 1. intros v. destruct v as [ | b | n | s | l | o ].
  - exact HNull.
  - apply HBool.
  - apply HNum.
  - apply HStr.
  - apply HArr. revert l. fix IHl 1. intros [|x l]; constructor; [apply IH|apply IHl].
  - apply HObj.
Qed.

Lemma terminates_to_string v : terminates (to_string v).
Proof.
  induction v as [ | b | n | s | l IH | o ] using json_elements_ind; simpl; terminating.
  induction IH as [|x l Hx Hl IHl]; simpl; terminating.
Qed.

#[local] Hint Resolve terminates_to_string : terminates.

Lemma terminates_parse text : terminates (Json.parse text).
Proof.
  unfold Json.parse. destruct (lex _ text) as [ts|]; [|discriminate].
  destruct (parse_tokens _ ts); discriminate.
Qed.

#[local] Hint Resolve terminates_parse : terminates.

Lemma always_Returns {A} (P : A -> Prop) (a : A) : P a -> always P (Returns a).
Proof. intros H b E. injection E as <-. exact H. Qed.

Lemma always_Throws {A} (P : A -> Prop) (e : exn) : always P (Throws e).
Proof. intros b E. discriminate. Qed.

Lemma always_Diverges {A} (P : A -> Prop) : always P Diverges.
Proof. intros b E. discriminate. Qed.

Lemma always_bind {A B} (P : B -> Prop) (c : outcome A) (f : A -> outcome B) :
  (forall a, always P (f a)) -> always P (bind c f).
Proof.
  intros Hf b E. destruct c; simpl in E; try discriminate. exact (Hf a b E).
Qed.

Lemma always_try_catch {A} (P : A -> Prop) (body : outcome A) (handler : exn -> outcome A) :
  always P body -> (forall e, always P (handler e)) -> always P (try_catch body handler).
Proof.
  intros Hb Hh a E. destruct body; simpl in E; try discriminate.
  - exact (Hb a E).
  - exact (Hh e a E).
Qed.

(* ================================================================== *)
(** * Facts about the quiz parser *)
(* ================================================================== *)

Section QuizParserFacts.

Import QuizParser.

Lemma terminates_normalizeQuestion question : terminates (normalizeQuestion question).
Proof.
  unfold normalizeQuestion, normalizeQuestionType_any, trimmed_string. terminating.
Qed.

#[local] Hint Resolve terminates_normalizeQuestion : terminates.

Lemma terminates_parseMarkdownSection section index :
  terminates (parseMarkdownSection section index).
Proof.
  unfold parseMarkdownSection, markdownType, markdownRawAnswer, markdownResolve.
  terminating.
Qed.

Lemma terminates_for_each {A B} (f : A -> nat -> outcome B) (l : list A) :
  (forall a i, terminates (f a i)) -> forall i, terminates (for_each f l i).
Proof.
  intro Hf. induction l as [|a l IH]; intro i; simpl; terminating.
Qed.

Lemma terminates_parseStructuredBlock block number :
  terminates (parseStructuredBlock block number).
Proof.
  unfold parseStructuredBlock, structuredType, structuredOptions, structuredRawAnswer.
  terminating.
Qed.

Lemma terminates_structuredLoop blocks : forall k, terminates (structuredLoop blocks k).
Proof.
  induction blocks as [|b blocks IH]; intro k; simpl.
  - terminating.
  - destruct (trim b) eqn:E; [apply IH|].
    apply terminates_bind; [apply terminates_parseStructuredBlock|].
    intro q. apply terminates_bind; [apply IH|]. terminating.
Qed.

Lemma parseJSONResponse_returns now response : returns (parseJSONResponse now response).
Proof.
  unfold parseJSONResponse. apply try_catch_returns.
  - terminating.
  - intro e. eexists; reflexivity.
Qed.

Lemma parseMarkdownResponse_returns now response :
  returns (parseMarkdownResponse now response).
Proof.
  unfold parseMarkdownResponse. apply try_catch_returns.
  - terminating. apply terminates_for_each. apply terminates_parseMarkdownSection.
  - intro e. eexists; reflexivity.
Qed.

Lemma parseStructuredResponse_returns now response :
  returns (parseStructuredResponse now response).
Proof.
  unfold parseStructuredResponse. apply try_catch_returns.
  - terminating; apply terminates_structuredLoop.
  - intro e. eexists; reflexivity.
Qed.

Ltac always_tac :=
  repeat first
    [ progress intros
    | match goal with
      | |- always _ (Returns _) => apply always_Returns
      | |- always _ (Throws _) => apply always_Throws
      | |- always _ Diverges => apply always_Diverges
      | |- always _ (bind _ _) => apply always_bind
      | |- always _ (try_catch _ _) => apply always_try_catch
      | |- always _ (match ?x with _ => _ end) => destruct x
      | |- always _ (if ?b then _ else _) => destruct b
      end ];
  try exact I; try reflexivity.

Lemma parseJSONResponse_without_error now response :
  always without_error (parseJSONResponse now response).
Proof. unfold parseJSONResponse. always_tac. Qed.

Lemma parseMarkdownResponse_without_error now response :
  always without_error (parseMarkdownResponse now response).
Proof. unfold parseMarkdownResponse. always_tac. Qed.

Lemma parseStructuredResponse_without_error now response :
  always without_error (parseStructuredResponse now response).
Proof.
  unfold parseStructuredResponse. always_tac.
  destruct (_ <? _)%nat; [reflexivity|exact I].
Qed.

Lemma has_questions_Some quiz q :
  has_questions quiz = Some q -> quiz = Some q /\ questions q <> [].
Proof.
  unfold has_questions. destruct quiz as [q'|]; try discriminate.
  destruct (questions q') eqn:E; simpl; try discriminate.
  intro H. injection H as <-. split; auto. rewrite E. discriminate.
Qed.

Lemma validateQuiz_questions_or_error now quiz options :
  questions quiz <> [] -> error quiz = None ->
  questions_or_error (validateQuiz now quiz options).
Proof.
  intros Hq He. unfold validateQuiz.
  destruct (negb (default true (validateQuestions options))).
  - left. split; assumption.
  - destruct (somes _) as [|v vs] eqn:E; simpl.
    + right. split; [reflexivity|]. eexists. split; [reflexivity|]. discriminate.
    + left. split; [discriminate|reflexivity].
Qed.

(** parseQuizResponse never throws and never runs forever, and what it
    returns is one of the two shapes. *)
Lemma parseQuizResponse_shape now response options :
  exists quiz, parseQuizResponse now response options = Returns quiz
               /\ questions_or_error quiz.
Proof.
  unfold parseQuizResponse.
  destruct (parseJSONResponse_returns now response) as [jq Ej].
  pose proof (parseJSONResponse_without_error now response jq Ej) as Hj.
  rewrite Ej. simpl.
  destruct (has_questions jq) as [q|] eqn:Hq.
  { apply has_questions_Some in Hq. destruct Hq as [-> Hne].
    eexists. split; [reflexivity|]. apply validateQuiz_questions_or_error; auto. }
  destruct (parseMarkdownResponse_returns now response) as [mq Em].
  pose proof (parseMarkdownResponse_without_error now response mq Em) as Hm.
  rewrite Em. simpl.
  destruct (has_questions mq) as [q|] eqn:Hq'.
  { apply has_questions_Some in Hq'. destruct Hq' as [-> Hne].
    eexists. split; [reflexivity|]. apply validateQuiz_questions_or_error; auto. }
  destruct (parseStructuredResponse_returns now response) as [sq Es].
  pose proof (parseStructuredResponse_without_error now response sq Es) as Hs.
  rewrite Es. simpl.
  destruct (has_questions sq) as [q|] eqn:Hq''.
  { apply has_questions_Some in Hq''. destruct Hq'' as [-> Hne].
    eexists. split; [reflexivity|]. apply validateQuiz_questions_or_error; auto. }
  eexists. split; [reflexivity|]. right. split; [reflexivity|].
  eexists. split; [reflexivity|]. discriminate.
Qed.



(** The JSON normalizer asks for a text that is a string and not the
    empty one, and trims it afterwards: a text of spaces is kept, empty. *)
Example blank_text_in_json :
  exists quiz q,
    parseQuizResponse the_clock blank_text no_options = Returns quiz
    /\ questions quiz = [q] /\ text q = [] /\ error quiz = None.
Proof.
  eexists. eexists. split; [vm_compute; reflexivity|].
  split; [reflexivity|]. split; reflexivity.
Qed.

Lemma bind_Returns_inv {A B} (c : outcome A) (f : A -> outcome B) b :
  bind c f = Returns b -> exists a, c = Returns a /\ f a = Returns b.
Proof. destruct c; simpl; try discriminate. eauto. Qed.

Lemma answer_letter_cases c :
  answer_letter c = true ->
  In c [65; 66; 67; 68; 97; 98; 99; 100]%N.
Proof.
  unfold answer_letter, between. rewrite orb_true_iff, !andb_true_iff, !N.leb_le.
  intro H. simpl.
  assert (c = 65 \/ c = 66 \/ c = 67 \/ c = 68 \/ c = 97 \/ c = 98 \/ c = 99 \/ c = 100)%N
    as Hc by lia.
  intuition auto.
Qed.

Lemma option_at_nth options c :
  answer_letter c = true ->
  option_at options (letter_index [c]) [c] = nth (letter_number c) options [c].
Proof.
  intro H. apply answer_letter_cases in H. simpl in H.
  assert (letter_index [c] = Some (Z.of_nat (letter_number c))) as ->.
  { intuition subst; reflexivity. }
  unfold option_at, at_index.
  assert ((0 <=? Z.of_nat (letter_number c))%Z = true) as -> by (apply Z.leb_le; lia).
  assert ((Z.of_nat (letter_number c) <? 0)%Z = false) as -> by (apply Z.ltb_ge; lia).
  rewrite Nat2Z.id. simpl.
  destruct (Z.ltb_spec (Z.of_nat (letter_number c)) (Z.of_nat (length options))).
  - destruct (nth_error options (letter_number c)) eqn:E.
    + symmetry. apply nth_error_nth. exact E.
    + apply nth_error_None in E. lia.
  - symmetry. apply nth_overflow. lia.
Qed.

Lemma markdownResolve_letter options c :
  answer_letter c = true -> options <> [] ->
  markdownResolve options [c] = Returns (nth (letter_number c) options [c]).
Proof.
  intros H Hne. unfold markdownResolve.
  destruct options as [|o os]; [congruence|]. simpl length. simpl Nat.ltb.
  rewrite <- (option_at_nth (o :: os) c H).
  apply answer_letter_cases in H. simpl in H.
  intuition subst; reflexivity.
Qed.

Lemma structuredResolve_letter options c :
  answer_letter c = true -> options <> [] ->
  structuredResolve options [c] = nth (letter_number c) options [c].
Proof.
  intros H Hne. unfold structuredResolve.
  destruct options as [|o os]; [congruence|]. simpl length. simpl Nat.ltb.
  rewrite <- (option_at_nth (o :: os) c H).
  apply answer_letter_cases in H. simpl in H.
  intuition subst; reflexivity.
Qed.

Lemma options_field_inv (os opts : list jsstring) :
  (if (0 <? length os)%nat then Some os else None) = Some opts -> os = opts /\ opts <> [].
Proof.
  destruct os; simpl; try discriminate. intro H. injection H as <-. split; auto. discriminate.
Qed.

Lemma parseMarkdownSection_letter section index q c opts :
  parseMarkdownSection section index = Returns q ->
  markdownRawAnswer section = Returns (Some [c]) ->
  answer_letter c = true ->
  options q = Some opts ->
  correctAnswer q = nth (letter_number c) opts [c].
Proof.
  unfold parseMarkdownSection. intros H Hraw Hc Hopts.
  apply bind_Returns_inv in H. destruct H as (ty & _ & H).
  apply bind_Returns_inv in H. destruct H as (raw & Hr & H).
  rewrite Hraw in Hr. injection Hr as <-.
  apply bind_Returns_inv in H. destruct H as (ans & Hans & H).
  apply bind_Returns_inv in H. destruct H as (ex & _ & H).
  injection H as <-. cbn [options correctAnswer] in *.
  apply options_field_inv in Hopts. destruct Hopts as [Heq Hne].
  rewrite Heq in Hans.
  rewrite markdownResolve_letter in Hans by assumption. congruence.
Qed.

Lemma parseStructuredBlock_letter block number q c opts :
  parseStructuredBlock block number = Returns q ->
  structuredRawAnswer block = Returns (Some [c]) ->
  answer_letter c = true ->
  options q = Some opts ->
  correctAnswer q = nth (letter_number c) opts [c].
Proof.
  unfold parseStructuredBlock. intros H Hraw Hc Hopts.
  apply bind_Returns_inv in H. destruct H as (ty & _ & H).
  apply bind_Returns_inv in H. destruct H as (os & _ & H).
  apply bind_Returns_inv in H. destruct H as (raw & Hr & H).
  rewrite Hraw in Hr. injection Hr as <-.
  apply bind_Returns_inv in H. destruct H as (ex & _ & H).
  injection H as <-. cbn [options correctAnswer] in *.
  apply options_field_inv in Hopts. destruct Hopts as [Heq Hne].
  rewrite Heq. apply structuredResolve_letter; assumption.
Qed.

Lemma normalizeQuestion_answer question q :
  normalizeQuestion question = Returns (Some q) ->
  correctAnswer q = match get question "correctAnswer" with
                    | Some (JStr a) => trim a
                    | _ => []
                    end.
Proof.
  unfold normalizeQuestion. intro H.
  destruct (_ || _); try discriminate.
  destruct (get question "text") as [[ | | |[|t ts]| | ]|]; try discriminate.
  apply bind_Returns_inv in H. destruct H as (ty & _ & H).
  apply bind_Returns_inv in H. destruct H as (os & _ & H).
  injection H as <-. reflexivity.
Qed.

(** Claim C3, as the code has it.  For a correct answer that is one
    letter among A-D, in either case, and a question with options: the
    markdown parser and the structured-text parser store the option at the
    index of the letter, and the letter itself when the options are fewer;
    the JSON path, whose normalizeQuestion has no such step, stores the
    letter as it is. *)
Theorem letter_resolution (c : N) (opts : list jsstring) :
  answer_letter c = true ->
  (forall section index q,
      parseMarkdownSection section index = Returns q ->
      markdownRawAnswer section = Returns (Some [c]) ->
      options q = Some opts ->
      correctAnswer q = nth (letter_number c) opts [c])
  /\ (forall block number q,
         parseStructuredBlock block number = Returns q ->
         structuredRawAnswer block = Returns (Some [c]) ->
         options q = Some opts ->
         correctAnswer q = nth (letter_number c) opts [c])
  /\ (forall question q,
         normalizeQuestion question = Returns (Some q) ->
         get question "correctAnswer" = Some (JStr [c]) ->
         correctAnswer q = [c]).
Proof.
  intro Hc. split; [|split].
  - intros. eapply parseMarkdownSection_letter; eauto.
  - intros. eapply parseStructuredBlock_letter; eauto.
  - intros question q H Hq. rewrite (normalizeQuestion_answer _ _ H), Hq.
    apply answer_letter_cases in Hc. simpl in Hc. intuition subst; reflexivity.
Qed.

(** The answer B over the options Paris, London, Rome, Berlin is London,
    in a markdown section and in a structured block. *)
Lemma letter_resolution_witness :
  answer_letter (ch "B") = true
  /\ (exists q, parseMarkdownSection markdown_section 0 = Returns q
                /\ options q = Some capitals /\ correctAnswer q = js "London")
  /\ (exists q, parseStructuredBlock structured_block 1 = Returns q
                /\ options q = Some capitals /\ correctAnswer q = js "London").
Proof.
  split; [reflexivity|].
  destruct (letter_resolution (ch "B") capitals eq_refl) as (Hmd & Hst & _).
  split.
  - eexists. split; [vm_compute; reflexivity|]. split; [reflexivity|].
    apply (Hmd markdown_section 0); vm_compute; reflexivity.
  - eexists. split; [vm_compute; reflexivity|]. split; [reflexivity|].
    apply (Hst structured_block 1); vm_compute; reflexivity.
Defined.

(** Claim C3 as it is stated fails on the JSON path: with the same
    options and the answer B, the question returned has the answer B, not
    London. *)
Lemma letter_kept_in_json :
  exists q md,
    parseQuizResponse (js "2025-01-01T00:00:00.000Z") json_response no_options
    = Returns {| questions := [q]; metadata := md; error := None |}
    /\ options q = Some capitals
    /\ correctAnswer q = js "B"
    /\ correctAnswer q <> nth 1 capitals (js "B").
Proof.
  eexists. eexists. split; [vm_compute; reflexivity|].
  split; [reflexivity|]. split; [reflexivity|]. discriminate.
Qed.

Lemma known_type_true t : known_type t = true.
Proof. destruct t; reflexivity. Qed.

(** What a question that passes validation keeps, and why it passed. *)
Lemma validateQuestion_inv re na q index q' :
  validateQuestion re na q index = Some q' ->
  id q' = (if num_is_zero (id q) then num_of_nat (index + 1) else id q)
  /\ type q' = type q
  /\ options q' = options q
  /\ is_multiple_choice (type q) && too_few_options q = false.
Proof.
  unfold validateQuestion. rewrite known_type_true. cbn [negb].
  destruct q as [i t tx o ca e]. cbn [id type options set_id].
  destruct (num_is_zero i); cbn [id type options set_id too_few_options];
    (destruct (is_multiple_choice t && _) eqn:Hm; [discriminate|]);
    (destruct (re && _); [discriminate|]);
    intro H; injection H as <-;
    destruct (is_true_false t && na); cbn; auto.
Qed.

Lemma validateQuestion_id re na q index q' :
  validateQuestion re na q index = Some q' ->
  id q' = (if num_is_zero (id q) then num_of_nat (index + 1) else id q).
Proof. intro H. apply validateQuestion_inv in H. tauto. Qed.

Lemma num_of_nat_not_zero index : num_is_zero (num_of_nat (index + 1)) = false.
Proof.
  unfold num_is_zero, num_of_nat, num_of_Z. simpl. apply Z.eqb_neq. lia.
Qed.

(** The questions that come out of the map and filter of validateQuiz. *)
Lemma somes_map_index {A B} (f : A -> nat -> option B) (l : list A) (P : B -> Prop) :
  forall i,
    (forall k a b, nth_error l k = Some a -> f a (i + k) = Some b -> P b) ->
    Forall P (somes (map_index f l i)).
Proof.
  induction l as [|a l IH]; intros i H; simpl.
  - constructor.
  - destruct (f a i) as [b|] eqn:E.
    + constructor.
      * apply (H 0 a b); [reflexivity|]. rewrite Nat.add_0_r. exact E.
      * apply IH. intros k a' b' Hk Hf. apply (H (S k) a' b'); auto.
        rewrite <- Nat.add_succ_comm. exact Hf.
    + apply IH. intros k a' b' Hk Hf. apply (H (S k) a' b'); auto.
      rewrite <- Nat.add_succ_comm. exact Hf.
Qed.

Lemma validateQuiz_questions now quiz options :
  validation_enabled options ->
  questions (validateQuiz now quiz options)
  = somes (map_index (validateQuestion (default false (requireExplanations options))
                                       (default true (normalizeAnswers options)))
                     (questions quiz) 0).
Proof.
  unfold validation_enabled, validateQuiz. intros ->. simpl.
  destruct (somes _) eqn:E; reflexivity.
Qed.




Lemma produces_has_questions c quiz :
  produces c quiz -> exists oq, c = Returns oq /\ has_questions oq = Some quiz.
Proof.
  intros [-> Hne]. eexists. split; [reflexivity|]. simpl.
  destruct (questions quiz); [congruence|reflexivity].
Qed.

Lemma produces_nothing_has_questions c :
  produces_nothing c -> exists oq, c = Returns oq /\ has_questions oq = None.
Proof.
  intros [->|(quiz & -> & Hq)]; eexists; (split; [reflexivity|]); simpl; auto.
  rewrite Hq. reflexivity.
Qed.

Lemma parseQuizResponse_first_produced now response opts quiz :
  first_produced now response quiz ->
  parseQuizResponse now response opts = Returns (validateQuiz now quiz opts).
Proof.
  unfold parseQuizResponse. intros [Hj|[(Hj & Hm)|(Hj & Hm & Hs)]].
  - apply produces_has_questions in Hj. destruct Hj as (oq & -> & Hq).
    cbn [bind]. rewrite Hq. reflexivity.
  - apply produces_nothing_has_questions in Hj. destruct Hj as (oj & -> & Hj).
    apply produces_has_questions in Hm. destruct Hm as (om & -> & Hm).
    cbn [bind]. rewrite Hj. cbn [bind]. rewrite Hm. reflexivity.
  - apply produces_nothing_has_questions in Hj. destruct Hj as (oj & -> & Hj).
    apply produces_nothing_has_questions in Hm. destruct Hm as (om & -> & Hm).
    apply produces_has_questions in Hs. destruct Hs as (os & -> & Hs).
    cbn [bind]. rewrite Hj. cbn [bind]. rewrite Hm. cbn [bind]. rewrite Hs. reflexivity.
Qed.

(** Claim C5.  parseQuizResponse takes the quiz of the first format, in
    the order JSON, markdown, structured text, whose parser produces at
    least one question, and returns it validated; whatever the later
    formats would produce is not looked at.  When no format produces a
    question, it returns the quiz of the parse failure. *)
Theorem format_priority now response opts :
  (forall quiz,
      produces (parseJSONResponse now response) quiz ->
      parseQuizResponse now response opts = Returns (validateQuiz now quiz opts))
  /\ (forall quiz,
         produces_nothing (parseJSONResponse now response) ->
         produces (parseMarkdownResponse now response) quiz ->
         parseQuizResponse now response opts = Returns (validateQuiz now quiz opts))
  /\ (forall quiz,
         produces_nothing (parseJSONResponse now response) ->
         produces_nothing (parseMarkdownResponse now response) ->
         produces (parseStructuredResponse now response) quiz ->
         parseQuizResponse now response opts = Returns (validateQuiz now quiz opts))
  /\ (produces_nothing (parseJSONResponse now response) ->
      produces_nothing (parseMarkdownResponse now response) ->
      produces_nothing (parseStructuredResponse now response) ->
      parseQuizResponse now response opts = Returns (parse_failure now)).
Proof.
  repeat split.
  - intros quiz Hj. apply parseQuizResponse_first_produced. left. exact Hj.
  - intros quiz Hj Hm. apply parseQuizResponse_first_produced. right. left. auto.
  - intros quiz Hj Hm Hs. apply parseQuizResponse_first_produced. right. right. auto.
  - unfold parseQuizResponse. intros Hj Hm Hs.
    apply produces_nothing_has_questions in Hj. destruct Hj as (oj & -> & Hj).
    apply produces_nothing_has_questions in Hm. destruct Hm as (om & -> & Hm).
    apply produces_nothing_has_questions in Hs. destruct Hs as (os & -> & Hs).
    cbn [bind]. rewrite Hj. cbn [bind]. rewrite Hm. cbn [bind]. rewrite Hs. reflexivity.
Qed.

(** A response with a fenced JSON block and a markdown section, each
    with a question: the question returned is the one of the JSON block. *)
Lemma format_priority_witness :
  (exists quiz, produces (parseJSONResponse the_clock both_formats) quiz)
  /\ (exists quiz, produces (parseMarkdownResponse the_clock both_formats) quiz
                   /\ map text (questions quiz) = [js "From the markdown section?"])
  /\ texts (parseQuizResponse the_clock both_formats no_options)
     = Some [js "From the JSON block?"].
Proof.
  assert (exists quiz, produces (parseJSONResponse the_clock both_formats) quiz
                       /\ texts (Returns (validateQuiz the_clock quiz no_options))
                          = Some [js "From the JSON block?"]) as (quiz & Hq & Ht).
  { eexists. split; [split; [vm_compute; reflexivity|discriminate]|vm_compute; reflexivity]. }
  split; [exists quiz; exact Hq|]. split.
  - eexists. split; [split; [vm_compute; reflexivity|discriminate]|vm_compute; reflexivity].
  - rewrite (proj1 (format_priority the_clock both_formats no_options) quiz Hq). exact Ht.
Defined.

(** Claim C7.  With validation on: a multiple_choice question whose
    options are missing or fewer than two is dropped; every multiple_choice
    question that is returned has two options or more; and when no
    question is left, validateQuiz, and so parseQuizResponse on every
    response whose first producing format gave that quiz, returns no
    question, the error "No valid questions found after validation", and
    the metadata. *)
Theorem multiple_choice_floor now quiz opts :
  validation_enabled opts ->
  (forall q index,
      type q = multiple_choice -> too_few_options q = true ->
      validateQuestion (default false (requireExplanations opts))
                       (default true (normalizeAnswers opts)) q index = None)
  /\ Forall (fun q => type q = multiple_choice ->
                      exists os, options q = Some os /\ 2 <= length os)
            (questions (validateQuiz now quiz opts))
  /\ (questions (validateQuiz now quiz opts) = [] ->
      validateQuiz now quiz opts = no_valid_questions now quiz
      /\ forall response,
          first_produced now response quiz ->
          parseQuizResponse now response opts = Returns (no_valid_questions now quiz)).
Proof.
  intro Hv.
  assert (questions (validateQuiz now quiz opts) = [] ->
          validateQuiz now quiz opts = no_valid_questions now quiz) as Hempty.
  { unfold validation_enabled in Hv. unfold validateQuiz. rewrite Hv. cbn [negb].
    destruct (somes _) eqn:E; cbn; [reflexivity|discriminate]. }
  split; [|split].
  - intros q index Ht Hf. unfold validateQuestion, too_few_options in *.
    rewrite known_type_true. cbn [negb].
    destruct (num_is_zero (id q)); cbn [type options set_id];
      rewrite Ht; cbn [is_multiple_choice andb]; rewrite Hf; reflexivity.
  - rewrite validateQuiz_questions by assumption.
    apply somes_map_index. intros k q q' _ Hq. cbn [Nat.add] in Hq.
    apply validateQuestion_inv in Hq. destruct Hq as (_ & Ht & Ho & Hm).
    rewrite Ht, Ho. intro Hmc. rewrite Hmc in Hm. cbn in Hm.
    unfold too_few_options in Hm. destruct (options q) as [os|]; [|discriminate].
    exists os. split; auto. apply Nat.ltb_ge in Hm. exact Hm.
  - intro He. split; [exact (Hempty He)|].
    intros response Hp. rewrite (parseQuizResponse_first_produced now response opts quiz Hp).
    rewrite (Hempty He). reflexivity.
Qed.

(** A markdown response whose only question is multiple_choice with the
    one option Paris. *)
Lemma multiple_choice_floor_witness :
  validation_enabled no_options
  /\ (exists quiz q,
         produces (parseMarkdownResponse the_clock one_option) quiz
         /\ questions quiz = [q] /\ type q = multiple_choice
         /\ options q = Some [js "Paris"]
         /\ validateQuiz the_clock quiz no_options = no_valid_questions the_clock quiz)
  /\ parseQuizResponse the_clock one_option no_options
     = Returns {| questions := [];
                  error := Some (js "No valid questions found after validation");
                  metadata := Some [(js "generatedAt", JStr the_clock)] |}.
Proof.
  split; [reflexivity|]. split; [|vm_compute; reflexivity].
  eexists. eexists. split; [split; [vm_compute; reflexivity|discriminate]|].
  split; [reflexivity|]. split; [reflexivity|]. split; [reflexivity|].
  match goal with
  | |- validateQuiz _ ?quiz _ = _ =>
      destruct (multiple_choice_floor the_clock quiz no_options eq_refl)
        as (Hdrop & _ & Hempty)
  end.
  refine (proj1 (Hempty _)).
  rewrite validateQuiz_questions by reflexivity. cbn [questions map_index somes].
  rewrite Hdrop; reflexivity.
Defined.

End QuizParserFacts.

(* ================================================================== *)
(** * Facts about the evaluation parser *)
(* ================================================================== *)

(** ** Matches of exec and of exec loops *)

Lemma exec_group fl r s m n :
  exec fl r s = Some m -> In n (sure_groups r) -> exists t, group s m n = Returns t.
Proof.
  unfold exec. intros H Hn. apply search_from_inv in H. destruct H as (j & _ & H).
  apply match_at_inv in H. destruct H as (_ & _ & _ & Hs).
  destruct (Hs n Hn) as (t & Ht). exists t. unfold group. rewrite Ht. reflexivity.
Qed.

Lemma exec_all_total fl r s :
  0 < min_len r ->
  exists ms, exec_all fl r s = Some ms
             /\ Forall (fun m => forall g, In g (sure_groups r) ->
                                           exists t, group s m g = Returns t) ms.
Proof.
  intro Hpos. unfold exec_all.
  destruct (exec_scan_total fl s r Hpos (S (length s)) 0 0) as (ms & -> & Hall).
  exists ms. split; auto. eapply Forall_impl; [|exact Hall].
  intros m Hm g Hg. destruct (Hm g Hg) as (t & Ht). exists t.
  unfold group. rewrite Ht. reflexivity.
Qed.

Section EvaluationFacts.

Import Evaluation.

Lemma fold_add_criterion response ms :
  Forall (fun m => forall g, In g [1; 2] -> exists t, group response m g = Returns t) ms ->
  forall acc, exists acc', fold_left (add_criterion response) ms (Returns acc) = Returns acc'.
Proof.
  induction 1 as [|m ms Hm _ IH]; intro acc; cbn [fold_left].
  - eauto.
  - destruct (Hm 1) as (t1 & H1); [simpl; auto|].
    destruct (Hm 2) as (t2 & H2); [simpl; auto|].
    assert (exists acc1, add_criterion response (Returns acc) m = Returns acc1) as (acc1 & ->).
    { unfold add_criterion. cbn [bind]. rewrite H1. cbn [bind].
      destruct (negb _); [rewrite H2; cbn [bind]|]; eauto. }
    apply IH.
Qed.

Lemma extractStructuredEvaluation_returns response :
  returns (extractStructuredEvaluation response).
Proof.
  unfold extractStructuredEvaluation.
  assert (exists n, match exec flag_i overall_score response with
                    | Some m => t <- group response m 1 ;; Returns (parseFloat t)
                    | None => Returns (num_of_Z 0)
                    end = Returns n) as (n & ->).
  { destruct (exec flag_i overall_score response) as [m|] eqn:E; [|eauto].
    destruct (exec_group _ _ _ _ 1 E) as (t & ->); [vm_compute; auto|]. cbn [bind]. eauto. }
  cbn [bind].
  destruct (exec_all_total no_flags criterion_score response) as (ms & -> & Hms);
    [vm_compute; lia|].
  cbv beta iota. change (sure_groups criterion_score) with [1; 2] in Hms.
  destruct (fold_add_criterion response ms Hms []) as (acc & Hacc).
  match goal with
  | |- context [fold_left ?f ms ?a] =>
      replace (fold_left f ms a) with (@Returns object acc) by (symmetry; exact Hacc)
  end.
  cbn [bind].
  assert (exists e, match exec flag_i explanation_section response with
                    | Some m => t <- group response m 1 ;; Returns (trim t)
                    | None => Returns []
                    end = Returns e) as (e & ->).
  { destruct (exec flag_i explanation_section response) as [m|] eqn:E; [|eauto].
    destruct (exec_group _ _ _ _ 1 E) as (t & ->); [vm_compute; auto|]. cbn [bind]. eauto. }
  cbn [bind].
  destruct (exec flag_i overall_score response), acc; eexists; reflexivity.
Qed.

Lemma parseEvaluationResponse_fenced response text :
  fenced_text response = Some text ->
  parseEvaluationResponse response
  = try_catch (v <- Json.parse (QuizParser.cleanJson text) ;;
               v' <- set_raw v response ;;
               Returns (validateEvaluationResult v'))
              (fun e => Throws (WrappedError failed_to_parse e)).
Proof.
  unfold fenced_text, parseEvaluationResponse, parseEvaluationBody.
  destruct (exec _ _ response) as [m|]; [|discriminate].
  destruct (capture response m 1) as [[|c t]|]; try discriminate.
  intro H. injection H as <-. reflexivity.
Qed.

Lemma parseEvaluationResponse_unfenced response :
  fenced_text response = None ->
  exists r, parseEvaluationResponse response = Returns r.
Proof.
  unfold fenced_text, parseEvaluationResponse, parseEvaluationBody.
  destruct (extractStructuredEvaluation_returns response) as (sr & Hs).
  intro H.
  assert (exists r, (parsedResult <- extractStructuredEvaluation response ;;
                     match parsedResult with
                     | Some r => Returns (with_raw r response)
                     | None => Returns (fallback response)
                     end) = Returns r) as (r & Hr).
  { rewrite Hs. cbn [bind]. destruct sr; eauto. }
  destruct (exec _ _ response) as [m|].
  - destruct (capture response m 1) as [[|c t]|]; try discriminate;
      rewrite Hr; eexists; reflexivity.
  - rewrite Hr. eexists; reflexivity.
Qed.



(** ** Properties of an object *)

Lemma eqb_eq a b : JsString.eqb a b = true <-> a = b.
Proof.
  revert b; induction a as [|x a IH]; intros [|y b]; simpl; split; intro H;
    try discriminate; auto.
  - apply andb_true_iff in H. destruct H as [Hx Hab].
    apply N.eqb_eq in Hx. apply IH in Hab. congruence.
  - injection H as -> ->. rewrite N.eqb_refl. apply IH. reflexivity.
Qed.

Lemma eqb_trans_false a b c :
  JsString.eqb a b = true -> JsString.eqb b c = false -> JsString.eqb a c = false.
Proof. intros H. apply eqb_eq in H. subst. auto. Qed.

Lemma lookup_replace_value_other o k v k' :
  JsString.eqb k k' = false -> lookup (replace_value o k v) k' = lookup o k'.
Proof.
  intro H. induction o as [|[k0 w] o IH]; simpl; auto.
  destruct (JsString.eqb k0 k) eqn:E; simpl.
  - rewrite (eqb_trans_false _ _ _ E H). reflexivity.
  - rewrite IH. reflexivity.
Qed.

Lemma lookup_insert_index_other o k i v k' :
  JsString.eqb k k' = false -> lookup (insert_index o k i v) k' = lookup o k'.
Proof.
  intro H. induction o as [|[k0 w] o IH]; simpl.
  - rewrite H. reflexivity.
  - destruct (array_index k0) as [j|].
    + destruct (j <? i)%N; simpl; [rewrite IH|rewrite H]; reflexivity.
    + simpl. rewrite H. reflexivity.
Qed.

Lemma lookup_app_other o k v k' :
  JsString.eqb k k' = false -> lookup (o ++ [(k, v)]) k' = lookup o k'.
Proof.
  intro H. induction o as [|[k0 w] o IH]; simpl.
  - rewrite H. reflexivity.
  - rewrite IH. reflexivity.
Qed.

Lemma lookup_define_other o k v k' :
  JsString.eqb k k' = false -> lookup (define o k v) k' = lookup o k'.
Proof.
  intro H. unfold define. destruct (has_key o k).
  - apply lookup_replace_value_other; assumption.
  - destruct (array_index k).
    + apply lookup_insert_index_other; assumption.
    + apply lookup_app_other; assumption.
Qed.

Lemma lookup_replace_value_same o k v :
  has_key o k = true -> lookup (replace_value o k v) k = Some v.
Proof.
  unfold has_key. induction o as [|[k0 w] o IH]; simpl; [discriminate|].
  destruct (JsString.eqb k0 k) eqn:E; simpl; rewrite E; auto.
Qed.

Lemma lookup_app_same o k v :
  has_key o k = false -> lookup (o ++ [(k, v)]) k = Some v.
Proof.
  unfold has_key. induction o as [|[k0 w] o IH]; simpl.
  - assert (JsString.eqb k k = true) as -> by (apply eqb_eq; reflexivity). reflexivity.
  - destruct (JsString.eqb k0 k); [discriminate|auto].
Qed.

(** The result keeps the response under raw and reads the other
    properties as they were before raw was set. *)
Lemma lookup_assign_raw o response :
  lookup (assign o (js "raw") (JStr response)) (js "raw") = Some (JStr response)
  /\ forall key, JsString.eqb (js "raw") key = false ->
                 lookup (assign o (js "raw") (JStr response)) key = lookup o key.
Proof.
  unfold assign. cbn [JsString.eqb js]. change (JsString.eqb (js "raw") (js "__proto__")) with false.
  cbn [andb]. split.
  - unfold define. destruct (has_key o (js "raw")) eqn:E.
    + apply lookup_replace_value_same; assumption.
    + change (array_index (js "raw")) with (@None N). apply lookup_app_same; assumption.
  - intros key H. apply lookup_define_other; assumption.
Qed.

(** Claim C6.  On the fenced object with scores.overall = 7 and nothing
    else, parseEvaluationResponse returns the overall score 7, no
    criteria, empty strengths, improvements, misconceptions and missing
    elements, and empty strings for the summary and the explanation.
    validateEvaluationResult gives the empty array for each array property
    that is absent or no array, and the empty string for each string
    property that is absent or no string; parseEvaluationResponse applies
    it to every fenced object that parses, and keeps the response under
    raw. *)
Theorem evaluation_defaults :
  parseEvaluationResponse only_overall
  = Returns {| scores := {| overall := num_of_Z 7; criteria := JObj [] |};
               feedback := {| strengths := []; improvements := []; misconceptions := [];
                              summary := [] |};
               missingElements := [];
               explanation := [];
               raw := Some (JStr only_overall) |}
  /\ (forall result,
         let r := validateEvaluationResult result in
         (not_an_array (get_opt (get result "feedback") "strengths") ->
          strengths (feedback r) = [])
         /\ (not_an_array (get_opt (get result "feedback") "improvements") ->
             improvements (feedback r) = [])
         /\ (not_an_array (get_opt (get result "feedback") "misconceptions") ->
             misconceptions (feedback r) = [])
         /\ (not_an_array (get result "missingElements") -> missingElements r = [])
         /\ (not_a_string (get_opt (get result "feedback") "summary") ->
             summary (feedback r) = [])
         /\ (not_a_string (get result "explanation") -> explanation r = [])
         /\ (get_opt (get result "scores") "criteria" = None -> criteria (scores r) = JObj []))
  /\ (forall response text o,
         fenced_text response = Some text ->
         Json.parse (QuizParser.cleanJson text) = Returns (JObj o) ->
         exists r, parseEvaluationResponse response = Returns r
                   /\ raw r = Some (JStr response)
                   /\ scores r = scores (validateEvaluationResult (JObj o))
                   /\ feedback r = feedback (validateEvaluationResult (JObj o))
                   /\ missingElements r = missingElements (validateEvaluationResult (JObj o))
                   /\ explanation r = explanation (validateEvaluationResult (JObj o))).
Proof.
  split; [vm_compute; reflexivity|]. split.
  - intros result r. subst r. unfold validateEvaluationResult, not_an_array, not_a_string.
    cbn [strengths improvements misconceptions summary feedback missingElements
         explanation criteria scores].
    repeat split; intro H;
      match goal with
      | H : match ?v with _ => _ end |- _ => destruct v as [[ | | | | | ]|]
      | H : ?v = None |- _ => rewrite H
      end; try reflexivity; contradiction.
  - intros response text o E Hp.
    rewrite (parseEvaluationResponse_fenced response text E), Hp. cbn [bind set_raw try_catch].
    eexists. split; [reflexivity|].
    destruct (lookup_assign_raw o response) as [Hraw Hother].
    unfold validateEvaluationResult. cbn [raw scores feedback missingElements explanation get].
    rewrite Hraw. rewrite !Hother by reflexivity. repeat split; reflexivity.
Qed.

(** The strengths of the object of the claim. *)
Lemma evaluation_defaults_witness :
  not_an_array (get_opt (get (JObj [(js "scores", JObj [(js "overall", JNum (num_of_Z 7))])])
                             "feedback") "strengths")
  /\ strengths (feedback (validateEvaluationResult
                            (JObj [(js "scores", JObj [(js "overall", JNum (num_of_Z 7))])])))
     = [].
Proof.
  split; [exact I|].
  apply (proj1 (proj1 (proj2 evaluation_defaults)
                      (JObj [(js "scores", JObj [(js "overall", JNum (num_of_Z 7))])]))).
  exact I.
Defined.

End EvaluationFacts.

(* ================================================================== *)
(** * Facts about the preprocessor and the token estimates *)
(* ================================================================== *)

(** ** The length of a replacement *)

Lemma length_slice s a b : length (slice s a b) <= b - a.
Proof. unfold slice. rewrite length_firstn. lia. Qed.

Lemma length_slice_end s a : length (slice s a (length s)) = length s - a.
Proof. unfold slice. rewrite length_firstn, length_skipn. lia. Qed.

Section ReplaceLength.

Variable fl : flags.
Variable s : jsstring.
Variable r : regex.
Variable repl : match_result -> jsstring.

(** No replacement is longer than the shortest match. *)
Hypothesis repl_short : forall m, length (repl m) <= min_len r.

Lemma replace_scan_length n :
  forall i last next,
    i + n = S (length s) -> next <= last ->
    length (replace_scan fl s r repl n i last next) <= length s - next.
Proof.
  induction n as [|n IH]; intros i last next Hn Hl; simpl.
  - rewrite length_slice_end. lia.
  - destruct (Nat.ltb_spec i last) as [Hlt|Hge]; [apply IH; lia|].
    destruct (match_at fl s r i) as [m|] eqn:E; [|apply IH; lia].
    apply match_at_inv in E. destruct E as (_ & Hmin & Hend & _).
    assert (m_end m <= length s) as He by (apply Hend; lia).
    rewrite !length_app.
    pose proof (length_slice s next i) as Hs.
    pose proof (repl_short m) as Hr.
    assert (length (replace_scan fl s r repl n (S i)
                                 (if (m_end m =? i)%nat then S i else m_end m) (m_end m))
            <= length s - m_end m) as Hrest.
    { apply IH; [lia|]. destruct (Nat.eqb_spec (m_end m) i); lia. }
    lia.
Qed.

Lemma replace_all_length : length (replace_all fl r repl s) <= length s.
Proof.
  unfold replace_all.
  pose proof (replace_scan_length (S (length s)) 0 0 0) as H. lia.
Qed.

End ReplaceLength.

Lemma length_drop_while p s : length (drop_while p s) <= length s.
Proof.
  induction s as [|c s IH]; simpl; auto. destruct (p c); simpl; lia.
Qed.

Lemma length_trim s : length (trim s) <= length s.
Proof.
  unfold trim, trimEnd, trimStart. rewrite length_rev.
  etransitivity; [apply length_drop_while|]. rewrite length_rev. apply length_drop_while.
Qed.

Section PreprocessorFacts.

Import Preprocessor.

Lemma length_remove fl r s : length (remove fl r s) <= length s.
Proof. unfold remove. apply replace_all_length. intro m. simpl. lia. Qed.

Lemma length_collapse_spaces s : length (collapse_spaces s) <= length s.
Proof. unfold collapse_spaces. apply replace_all_length. intro m. simpl. lia. Qed.

Lemma length_cleanContent content : length (cleanContent content) <= length content.
Proof.
  unfold cleanContent. destruct content as [|c content]; [reflexivity|].
  etransitivity; [apply length_trim|].
  etransitivity; [apply length_collapse_spaces|].
  etransitivity; [apply length_remove|].
  etransitivity; [apply length_remove|].
  etransitivity; [apply length_remove|].
  etransitivity; [apply length_remove|].
  apply length_collapse_spaces.
Qed.

Lemma estimateTokenCount_nonneg text : (0 <= estimateTokenCount text)%Z.
Proof.
  unfold estimateTokenCount. destruct text as [|c t]; [lia|].
  change 0%Z with (Qceiling 0). apply Qceiling_resp_le.
  apply Qmult_le_0_compat; [|discriminate].
  change 0%Q with (inject_Z 0). rewrite <- Zle_Qle. lia.
Qed.

Lemma estimateTokenCount_mono a b :
  length a <= length b -> (estimateTokenCount a <= estimateTokenCount b)%Z.
Proof.
  intro H. destruct a as [|x a]; [apply estimateTokenCount_nonneg|].
  destruct b as [|y b]; [simpl in H; lia|].
  unfold estimateTokenCount. apply Qceiling_resp_le.
  apply Qmult_le_compat_r; [|discriminate].
  rewrite <- Zle_Qle. lia.
Qed.

(** ** extractKeyTerms returns *)

Lemma fold_add_term content ms :
  Forall (fun m => forall g, In g [1; 2] -> exists t, group content m g = Returns t) ms ->
  forall acc, exists acc', fold_left (add_term content) ms (Returns acc) = Returns acc'.
Proof.
  induction 1 as [|m ms Hm _ IH]; intro acc; cbn [fold_left].
  - eauto.
  - destruct (Hm 1) as (t1 & H1); [simpl; auto|].
    destruct (Hm 2) as (t2 & H2); [simpl; auto|].
    assert (exists acc1, add_term content (Returns acc) m = Returns acc1) as (acc1 & ->).
    { unfold add_term. cbn [bind]. rewrite H1. cbn [bind]. rewrite H2. cbn [bind].
      cbv zeta. destruct (_ && _); eauto. }
    apply IH.
Qed.

Lemma add_pattern_returns content pattern acc :
  In pattern termDefinitionPatterns ->
  exists acc', add_pattern content (Returns acc) pattern = Returns acc'.
Proof.
  intro Hin. unfold add_pattern. cbn [bind].
  assert (0 < min_len pattern /\ sure_groups pattern = [1; 2]) as [Hlen Hsure].
  { unfold termDefinitionPatterns in Hin. cbn [In] in Hin.
    destruct Hin as [<-|[<-|[<-|[<-|[]]]]];
      (split; [vm_compute; lia|vm_compute; reflexivity]). }
  destruct (exec_all_total flag_i pattern content Hlen) as (ms & -> & Hms).
  rewrite Hsure in Hms. apply fold_add_term. exact Hms.
Qed.

Lemma extractKeyTerms_returns content : exists terms, extractKeyTerms content = Returns terms.
Proof.
  unfold extractKeyTerms.
  assert (forall ps acc, incl ps termDefinitionPatterns ->
                         exists acc', fold_left (add_pattern content) ps (Returns acc)
                                      = Returns acc') as H.
  { induction ps as [|p ps IH]; intros acc Hincl; cbn [fold_left]; [eauto|].
    destruct (add_pattern_returns content p acc) as (acc1 & ->).
    - apply Hincl. left. reflexivity.
    - apply IH. intros x Hx. apply Hincl. right. exact Hx. }
  apply H. apply incl_refl.
Qed.

Lemma section_written_exists content opts : exists section, section_written content opts section.
Proof.
  unfold section_written. destruct (QuizParser.default true (extractKeyTerms_ opts)).
  - destruct (extractKeyTerms_returns (cleanContent content)) as (terms & H). eauto.
  - eauto.
Qed.

Lemma preprocessContent_fits truncate content opts section :
  section_written content opts section ->
  (estimateTokenCount (cleanContent content)
   <= QuizParser.default MAX_CONTENT_TOKENS (maxTokens opts) - estimateTokenCount section)%Z ->
  preprocessContent truncate content opts = Returns (section ++ cleanContent content).
Proof.
  unfold section_written, preprocessContent. intros Hs Hfit.
  destruct (QuizParser.default true (extractKeyTerms_ opts)).
  - destruct Hs as (terms & -> & ->). cbn [bind].
    apply Z.ltb_ge in Hfit. rewrite Hfit. reflexivity.
  - subst section. cbn [bind]. apply Z.ltb_ge in Hfit. rewrite Hfit. reflexivity.
Qed.

(** Claim C8, as the code has it.  preprocessContent returns the section
    of key terms followed by the cleaned content, with no truncation,
    whenever the estimate of the cleaned content is at most maxTokens
    minus the estimate of that section.  With maxTokens 100 above the
    estimate of the input and no key term written, this always holds, and
    the result is the cleaned content: the input itself only when cleaning
    leaves it as it is. *)
Theorem preprocess_within_budget truncate content opts :
  exists section,
    section_written content opts section
    /\ ((estimateTokenCount (cleanContent content)
         <= QuizParser.default MAX_CONTENT_TOKENS (maxTokens opts)
            - estimateTokenCount section)%Z ->
        preprocessContent truncate content opts = Returns (section ++ cleanContent content))
    /\ (section = [] ->
        maxTokens opts = Some (estimateTokenCount content + 100)%Z ->
        preprocessContent truncate content opts = Returns (cleanContent content)).
Proof.
  destruct (section_written_exists content opts) as (section & Hs).
  exists section. split; [exact Hs|]. split.
  - apply preprocessContent_fits. exact Hs.
  - intros -> Hmax.
    rewrite (preprocessContent_fits truncate content opts [] Hs); [reflexivity|].
    rewrite Hmax. cbn [QuizParser.default estimateTokenCount].
    pose proof (estimateTokenCount_mono _ _ (length_cleanContent content)). lia.
Qed.

(** Claim C8 as it is stated fails: under the budget of the claim, two
    spaces come out as one, and a sentence that defines a term comes out
    behind a section of key terms. *)
Lemma preprocess_changes_text :
  preprocessContent keep (js "a  b") (under_budget (js "a  b")) = Returns (js "a b")
  /\ preprocessContent keep (js "Energy refers to work.")
                       (under_budget (js "Energy refers to work."))
     = Returns (js "KEY TERMS:
- Energy: work

Energy refers to work.")
  /\ ~ (forall truncate content,
           preprocessContent truncate content (under_budget content) = Returns content).
Proof.
  assert (preprocessContent keep (js "a  b") (under_budget (js "a  b")) = Returns (js "a b"))
    as H by (vm_compute; reflexivity).
  split; [exact H|]. split; [vm_compute; reflexivity|].
  intro Hall. rewrite Hall in H. discriminate.
Qed.

(** A text that is clean and defines no term comes out unchanged. *)
Lemma preprocess_within_budget_witness :
  cleanContent clean_text = clean_text
  /\ preprocessContent keep clean_text (under_budget clean_text) = Returns clean_text.
Proof.
  split; [vm_compute; reflexivity|].
  destruct (preprocess_within_budget keep clean_text (under_budget clean_text))
    as (section & Hs & _ & Hclean).
  assert (section = []) as Hempty.
  { unfold section_written in Hs. cbn [under_budget extractKeyTerms_ QuizParser.default] in Hs.
    destruct Hs as (terms & Ht & ->). vm_compute in Ht. injection Ht as <-. reflexivity. }
  rewrite (Hclean Hempty eq_refl). vm_compute. reflexivity.
Defined.

End PreprocessorFacts.

(** Claim C10.  The estimate of tokens.ts, the ceiling of length / 4,
    and the estimate of the preprocessor, the ceiling of length * 0.25,
    are equal on every string, and both are 0 on the empty string. *)
Theorem estimators_agree (text : jsstring) :
  Tokens.estimateTokenCount text = Preprocessor.estimateTokenCount text
  /\ Tokens.estimateTokenCount (js EmptyString) = 0%Z
  /\ Preprocessor.estimateTokenCount (js EmptyString) = 0%Z.
Proof.
  split; [|split; reflexivity].
  unfold Tokens.estimateTokenCount, Preprocessor.estimateTokenCount.
  destruct text as [|c t]; [reflexivity|].
  apply Qceiling_comp. unfold Preprocessor.TOKENS_PER_CHAR. field.
Qed.

(* ================================================================== *)
(** * Facts about the retry policy *)
(* ================================================================== *)

Section RetryFacts.

Import Retry.
Open Scope Q_scope.

Lemma uncapped_nonneg n config : sensible config -> 0 <= uncapped n config.
Proof.
  intros [Hi Hf]. unfold uncapped. apply Qmult_le_0_compat; [exact Hi|].
  apply Qpower_0_le. apply Qle_trans with 1; [discriminate|exact Hf].
Qed.

Lemma uncapped_mono n config : sensible config -> uncapped n config <= uncapped (S n) config.
Proof.
  intros [Hi Hf]. unfold uncapped.
  rewrite !(Qmult_comm (initialDelayMs config)).
  apply Qmult_le_compat_r; [|exact Hi].
  apply Qpower_le_compat_l; [lia|exact Hf].
Qed.

Lemma delay_mono n config : sensible config -> delay n config <= delay (S n) config.
Proof.
  intro Hs. unfold delay. apply Q.min_le_compat_r. apply (uncapped_mono n config Hs).
Qed.

Lemma calculateBackoff_eq n config random :
  calculateBackoff n config random == delay n config * (1 + 0.2 * random).
Proof. unfold calculateBackoff. ring. Qed.




End RetryFacts.

Section ValidationFacts.
Import QuizParser.

Lemma validateQuestion_fixed re na q index q' :
  validateQuestion re na q index = Some q' ->
  forall index', validateQuestion re na q' index' = Some q'.
Proof.
  unfold validateQuestion. rewrite !known_type_true. cbn [negb].
  destruct q as [i t tx o ca e]. cbn [id type options set_id].
  intros H index'.
  assert (exists i', num_is_zero i' = false /\
     (if is_multiple_choice t && too_few_options {| id := i'; type := t; text := tx; options := o; correctAnswer := ca; explanation := e |}
      then None
      else
        let q2 := if is_true_false t && na
                  then set_correctAnswer {| id := i'; type := t; text := tx; options := o; correctAnswer := ca; explanation := e |}
                         (if includes (toLowerCase ca) (js "true") then js "True" else js "False")
                  else {| id := i'; type := t; text := tx; options := o; correctAnswer := ca; explanation := e |} in
        if re && lacks_explanation q2 then None else Some q2) = Some q') as (i' & Hi' & H').
  { destruct (num_is_zero i) eqn:Hz.
    - exists (num_of_nat (index + 1)). split; [apply num_of_nat_not_zero|exact H].
    - exists i. split; [exact Hz|exact H]. }
  clear H.
  unfold too_few_options in *. cbn [options] in *.
  destruct (is_multiple_choice t && _) eqn:Hm; [discriminate|].
  cbv zeta in H'.
  destruct (is_true_false t && na) eqn:Htf.
  - unfold set_correctAnswer in *. cbn [id type text options correctAnswer explanation] in *.
    unfold lacks_explanation in *. cbn [explanation] in *.
    destruct (re && _) eqn:Hre; [discriminate|].
    injection H' as <-. cbn [id type text options correctAnswer explanation].
    rewrite Hi', !known_type_true. cbn [negb]. unfold too_few_options, lacks_explanation, set_correctAnswer.
    cbn [id type text options correctAnswer explanation]. rewrite Hm, Htf.
    cbn [id type text options correctAnswer explanation]. rewrite Hre.
    destruct (includes (toLowerCase ca) (js "true")); reflexivity.
  - unfold lacks_explanation in *. cbn [explanation] in *.
    destruct (re && _) eqn:Hre; [discriminate|].
    injection H' as <-. cbn [id type text options correctAnswer explanation].
    rewrite Hi', !known_type_true. cbn [negb]. unfold too_few_options, lacks_explanation.
    cbn [id type text options correctAnswer explanation]. rewrite Hm, Htf.
    cbn [explanation]. rewrite Hre. reflexivity.
Qed.

Lemma somes_map_index_fixed {A} (f : A -> nat -> option A) (l : list A) :
  Forall (fun a => forall i, f a i = Some a) l ->
  forall i, somes (map_index f l i) = l.
Proof.
  induction 1 as [|a l Ha _ IH]; intro i; simpl; [reflexivity|].
  rewrite Ha. simpl. rewrite IH. reflexivity.
Qed.

(** X1.  validateQuiz is idempotent: validating again what it returned,
    with the same options, changes nothing. *)
Theorem validateQuiz_idempotent now quiz opts :
  validateQuiz now (validateQuiz now quiz opts) opts = validateQuiz now quiz opts.
Proof.
  destruct (negb (default true (validateQuestions opts))) eqn:Hv.
  - unfold validateQuiz. rewrite Hv. reflexivity.
  - set (f := validateQuestion (default false (requireExplanations opts))
                               (default true (normalizeAnswers opts))).
    assert (forall q, validateQuiz now q opts
                      = if (length (somes (map_index f (questions q) 0)) =? 0)%nat
                        then {| questions := [];
                                error := Some (js "No valid questions found after validation");
                                metadata := metadata_or_now now q |}
                        else {| questions := somes (map_index f (questions q) 0);
                                metadata := metadata_or_now now q;
                                error := None |}) as Heq.
    { intro q. unfold validateQuiz. rewrite Hv. reflexivity. }
    assert (Forall (fun q => forall i, f q i = Some q) (somes (map_index f (questions quiz) 0)))
      as Hfix.
    { apply somes_map_index. intros k a b _ Hb i.
      eapply validateQuestion_fixed. exact Hb. }
    rewrite (Heq quiz).
    destruct (somes (map_index f (questions quiz) 0)) as [|q qs] eqn:E; cbn [length Nat.eqb].
    + rewrite Heq. cbn [questions map_index somes length Nat.eqb].
      unfold metadata_or_now. cbn [metadata]. destruct (metadata quiz); reflexivity.
    + rewrite Heq. cbn [questions].
      rewrite (somes_map_index_fixed f _ Hfix 0). cbn [length Nat.eqb].
      unfold metadata_or_now. cbn [metadata]. destruct (metadata quiz); reflexivity.
Qed.

Lemma validateQuestion_content re na q index q' :
  validateQuestion re na q index = Some q' ->
  same_content q q'
  /\ correctAnswer q' = (if is_true_false (type q) && na
                         then canonical_answer (correctAnswer q) else correctAnswer q)
  /\ (re = true -> lacks_explanation q = false).
Proof.
  unfold validateQuestion, same_content, canonical_answer. rewrite known_type_true. cbn [negb].
  destruct q as [i t tx o ca e]. cbn [id type options set_id].
  destruct (num_is_zero i); cbn [id type text options correctAnswer explanation set_id];
    (destruct (is_multiple_choice t && _); [discriminate|]);
    unfold lacks_explanation, set_correctAnswer;
    destruct (is_true_false t && na);
    cbn [id type text options correctAnswer explanation];
    (destruct (re && _) eqn:Hre; [discriminate|]);
    intro H; injection H as <-; cbn [id type text options correctAnswer explanation];
    (repeat split; auto); intros ->; exact Hre.
Qed.

Lemma somes_map_index_taken {A B} (f : A -> nat -> option B) (l : list A) (R : A -> B -> Prop) :
  forall i,
    (forall k a b, nth_error l k = Some a -> f a (i + k) = Some b -> R a b) ->
    exists kept, taken_from kept l /\ Forall2 R kept (somes (map_index f l i)).
Proof.
  induction l as [|a l IH]; intros i H; simpl.
  - exists []. split; constructor.
  - destruct (IH (S i)) as (kept & Hk & HR).
    { intros k a' b' Hk Hf. apply (H (S k) a' b'); auto.
      rewrite <- Nat.add_succ_comm. exact Hf. }
    destruct (f a i) as [b|] eqn:E.
    + exists (a :: kept). split; [constructor; exact Hk|].
      constructor; [|exact HR].
      apply (H 0 a b); [reflexivity|]. rewrite Nat.add_0_r. exact E.
    + exists kept. split; [constructor; exact Hk|exact HR].
Qed.

(** X2.  With validateQuestions not false, validateQuiz only drops
    questions: the questions it returns are, in order, some of the
    questions it was given, each with its text, type, options and
    explanation as they were, and with its correctAnswer as it was
    unless the type is true_false. *)
Theorem validation_keeps_content now quiz opts :
  validation_enabled opts ->
  exists kept,
    taken_from kept (questions quiz)
    /\ Forall2 (fun q q' =>
                  same_content q q'
                  /\ (type q <> true_false -> correctAnswer q' = correctAnswer q))
               kept (questions (validateQuiz now quiz opts)).
Proof.
  intro Hv. rewrite validateQuiz_questions by assumption.
  apply somes_map_index_taken. intros k q q' _ Hq. simpl in Hq.
  apply validateQuestion_content in Hq. destruct Hq as (Hc & Ha & _).
  split; [exact Hc|]. intro Ht. rewrite Ha.
  destruct (type q); try reflexivity. contradiction.
Qed.

(** Of three questions, the one with a single option is dropped. *)
Lemma validation_keeps_content_witness :
  validation_enabled no_options
  /\ map text (questions (validateQuiz the_clock mixed_quiz no_options))
     = [js "The sky is blue."; js "Why?"]
  /\ exists kept,
       taken_from kept (questions mixed_quiz)
       /\ Forall2 (fun q q' => same_content q q'
                               /\ (type q <> true_false -> correctAnswer q' = correctAnswer q))
                  kept (questions (validateQuiz the_clock mixed_quiz no_options)).
Proof.
  split; [reflexivity|]. split; [reflexivity|].
  apply (validation_keeps_content the_clock mixed_quiz no_options). reflexivity.
Defined.



(** X4.  With validateQuestions not false and requireExplanations true,
    every question that validateQuiz returns has an explanation that is
    not blank. *)
Theorem explanations_present now quiz opts :
  validation_enabled opts ->
  explanations_required opts ->
  Forall (fun q' => exists e, explanation q' = Some e /\ trim e <> [])
         (questions (validateQuiz now quiz opts)).
Proof.
  intros Hv Hr. rewrite validateQuiz_questions by assumption.
  apply somes_map_index. intros k q q' Hk Hq. simpl in Hq.
  apply validateQuestion_content in Hq. destruct Hq as ((_ & _ & _ & He) & _ & Hl).
  unfold explanations_required in Hr. rewrite Hr in Hl. specialize (Hl eq_refl).
  unfold lacks_explanation in Hl. rewrite He.
  destruct (explanation q) as [[|c e]|]; try discriminate.
  exists (c :: e). split; [reflexivity|].
  intro Ht. rewrite Ht in Hl. discriminate.
Qed.

(** The question without explanation is dropped. *)
Lemma explanations_present_witness :
  validation_enabled explanations_on /\ explanations_required explanations_on
  /\ map text (questions (validateQuiz the_clock mixed_quiz explanations_on))
     = [js "The sky is blue."]
  /\ Forall (fun q' => exists e, explanation q' = Some e /\ trim e <> [])
            (questions (validateQuiz the_clock mixed_quiz explanations_on)).
Proof.
  split; [reflexivity|]. split; [reflexivity|]. split; [reflexivity|].
  apply (explanations_present the_clock mixed_quiz explanations_on); reflexivity.
Defined.

Lemma parseMarkdownSection_id section index q :
  parseMarkdownSection section index = Returns q -> id q = num_of_nat (index + 1).
Proof.
  unfold parseMarkdownSection. intro H.
  repeat (apply bind_Returns_inv in H; destruct H as (? & _ & H)).
  injection H as <-. reflexivity.
Qed.

Lemma for_each_ids sections : forall index qs,
  for_each parseMarkdownSection sections index = Returns qs ->
  map id qs = map num_of_nat (List.seq (index + 1) (length sections))
  /\ length qs = length sections.
Proof.
  induction sections as [|s l IH]; intros index qs H; simpl in H.
  - injection H as <-. split; reflexivity.
  - apply bind_Returns_inv in H. destruct H as (q & Hq & H).
    apply bind_Returns_inv in H. destruct H as (qs' & Hqs & H).
    injection H as <-. apply parseMarkdownSection_id in Hq.
    apply IH in Hqs. destruct Hqs as (Hm & Hl). simpl. rewrite Hq, Hm, Hl.
    replace (S index + 1) with (S (index + 1)) by lia. split; reflexivity.
Qed.

Lemma try_catch_Returns_Some {A} (body : outcome (option A)) a :
  try_catch body (fun _ => Returns None) = Returns (Some a) -> body = Returns (Some a).
Proof. destruct body; simpl; intro H; try discriminate; exact H. Qed.

Lemma parseStructuredBlock_id block number q :
  parseStructuredBlock block number = Returns q -> id q = num_of_nat number.
Proof.
  unfold parseStructuredBlock. intro H.
  repeat (apply bind_Returns_inv in H; destruct H as (? & _ & H)).
  injection H as <-. reflexivity.
Qed.

Lemma structuredLoop_ids blocks : forall k qs,
  structuredLoop blocks k = Returns qs ->
  exists ks, map id qs = map num_of_nat ks
             /\ Forall (fun n => k < n) ks /\ StronglySorted lt ks.
Proof.
  induction blocks as [|b l IH]; intros k qs H; simpl in H.
  - injection H as <-. exists []. repeat split; constructor.
  - destruct (trim b) as [|c block] eqn:E.
    + apply IH in H. destruct H as (ks & Hm & Hk & Hs). exists ks.
      split; [exact Hm|]. split; [|exact Hs].
      eapply Forall_impl; [|exact Hk]. simpl. intros; lia.
    + apply bind_Returns_inv in H. destruct H as (q & Hq & H).
      apply bind_Returns_inv in H. destruct H as (qs' & Hqs & H).
      injection H as <-. apply parseStructuredBlock_id in Hq.
      apply IH in Hqs. destruct Hqs as (ks & Hm & Hk & Hs).
      exists ((k + 1) :: ks). simpl. rewrite Hq, Hm. split; [reflexivity|]. split.
      * constructor; [lia|]. eapply Forall_impl; [|exact Hk]. simpl. intros; lia.
      * constructor; [exact Hs|]. eapply Forall_impl; [|exact Hk]. simpl. intros; lia.
Qed.

(** X5.  A quiz that parseMarkdownResponse returns has at least one
    question and the ids 1, 2, ..., n in this order. A quiz that
    parseStructuredResponse returns has at least one question, and its
    ids are positive integers in strictly increasing order. *)
Theorem ids_follow_position now response :
  (forall quiz,
      parseMarkdownResponse now response = Returns (Some quiz) ->
      questions quiz <> []
      /\ map id (questions quiz) = ids_from_one (length (questions quiz)))
  /\ (forall quiz,
         parseStructuredResponse now response = Returns (Some quiz) ->
         questions quiz <> []
         /\ exists ks, map id (questions quiz) = map num_of_nat ks
                       /\ Forall (fun n => 1 <= n) ks /\ StronglySorted lt ks).
Proof.
  split; intros quiz H.
  - unfold parseMarkdownResponse in H. apply try_catch_Returns_Some in H.
    destruct (length (skipn 1 _) =? 0) eqn:El; [discriminate|].
    apply bind_Returns_inv in H. destruct H as (qs & Hqs & H).
    injection H as <-. cbn [questions]. apply for_each_ids in Hqs.
    destruct Hqs as (Hm & Hl). apply Nat.eqb_neq in El. split.
    + intro Hn. rewrite Hn in Hl. cbn [length] in Hl. lia.
    + rewrite Hm, Hl. reflexivity.
  - unfold parseStructuredResponse in H. apply try_catch_Returns_Some in H.
    apply bind_Returns_inv in H. destruct H as (first & _ & H).
    apply bind_Returns_inv in H. destruct H as (qs & Hqs & H).
    destruct (0 <? length qs) eqn:El; [|discriminate].
    injection H as <-. cbn [questions]. split.
    + intro Hn. rewrite Hn in El. discriminate.
    + apply structuredLoop_ids in Hqs. destruct Hqs as (ks & Hm & Hk & Hs).
      exists ks. split; [exact Hm|]. split; [|exact Hs].
      eapply Forall_impl; [|exact Hk]. simpl. intros; lia.
Qed.

(** One markdown question: the id 1. *)
Lemma ids_follow_position_witness :
  exists quiz,
    parseMarkdownResponse the_clock both_formats = Returns (Some quiz)
    /\ map id (questions quiz) = [num_of_Z 1].
Proof.
  eexists. split; [vm_compute; reflexivity|].
  match goal with
  | |- map id (questions ?quiz) = _ =>
      rewrite (proj2 (proj1 (ids_follow_position the_clock both_formats) quiz
                            ltac:(vm_compute; reflexivity)))
  end.
  reflexivity.
Defined.

Lemma has_key_define o k v k' :
  has_key o k' = true -> has_key (define o k v) k' = true.
Proof.
  intro H. destruct (JsString.eqb k k') eqn:E.
  - apply eqb_eq in E. subst k'. unfold define. rewrite H.
    unfold has_key. rewrite lookup_replace_value_same by assumption. reflexivity.
  - unfold has_key in *. rewrite lookup_define_other by assumption. exact H.
Qed.

Lemma has_key_spread_into rest : forall o k,
  has_key o k = true -> has_key (spread_into o rest) k = true.
Proof.
  unfold spread_into. induction rest as [|[k0 v] rest IH]; intros o k H; simpl; auto.
  apply IH. apply has_key_define. exact H.
Qed.

Ltac always_cases :=
  repeat first
    [ progress intros
    | match goal with
      | |- always _ (Returns _) => apply always_Returns
      | |- always _ (Throws _) => apply always_Throws
      | |- always _ Diverges => apply always_Diverges
      | |- always _ (bind _ _) => apply always_bind
      | |- always _ (try_catch _ _) => apply always_try_catch
      | |- always _ (match ?x with _ => _ end) => destruct x
      | |- always _ (if ?b then _ else _) => destruct b
      end ];
  try exact I; try reflexivity.

Lemma parseJSONResponse_stamped now response : always stamped (parseJSONResponse now response).
Proof.
  unfold parseJSONResponse. always_cases.
  eexists. split; [reflexivity|]. apply has_key_spread_into. reflexivity.
Qed.

Lemma parseMarkdownResponse_stamped now response :
  always (stamped_now now) (parseMarkdownResponse now response).
Proof. unfold parseMarkdownResponse. always_cases. Qed.

Lemma parseStructuredResponse_stamped now response :
  always (stamped_now now) (parseStructuredResponse now response).
Proof.
  unfold parseStructuredResponse. always_cases.
  destruct (_ <? _)%nat; [reflexivity|exact I].
Qed.

Lemma metadata_validateQuiz now quiz opts md :
  metadata quiz = Some md -> metadata (validateQuiz now quiz opts) = Some md.
Proof.
  intro H. unfold validateQuiz. destruct (negb _); [exact H|].
  destruct (_ =? _)%nat; cbn [metadata]; unfold metadata_or_now; rewrite H; reflexivity.
Qed.

(** X6.  parseQuizResponse always returns a quiz whose metadata has the
    property generatedAt; when the JSON format gives no question, the
    metadata is exactly { generatedAt: now }. *)
Theorem metadata_present now response opts :
  exists quiz md,
    parseQuizResponse now response opts = Returns quiz
    /\ metadata quiz = Some md
    /\ has_key md (js "generatedAt") = true
    /\ (produces_nothing (parseJSONResponse now response) -> md = generated_at now).
Proof.
  unfold parseQuizResponse.
  pose proof (parseJSONResponse_stamped now response) as Pj.
  destruct (parseJSONResponse_returns now response) as [jq Ej]. rewrite Ej in *. simpl.
  destruct (has_questions jq) as [q|] eqn:Hq.
  { apply has_questions_Some in Hq. destruct Hq as [-> Hne].
    destruct (Pj _ eq_refl) as (md & Hmd & Hk).
    exists (validateQuiz now q opts), md. split; [reflexivity|].
    split; [apply metadata_validateQuiz; exact Hmd|]. split; [exact Hk|].
    intros [Hn|(q' & Hq' & He)]; [discriminate|].
    injection Hq' as <-. contradiction. }
  pose proof (parseMarkdownResponse_stamped now response) as Pm.
  destruct (parseMarkdownResponse_returns now response) as [mq Em]. rewrite Em in *. simpl.
  destruct (has_questions mq) as [q|] eqn:Hq'.
  { apply has_questions_Some in Hq'. destruct Hq' as [-> Hne]. specialize (Pm _ eq_refl). simpl in Pm.
    exists (validateQuiz now q opts), (generated_at now). split; [reflexivity|].
    split; [apply metadata_validateQuiz; exact Pm|]. split; [reflexivity|auto]. }
  pose proof (parseStructuredResponse_stamped now response) as Ps.
  destruct (parseStructuredResponse_returns now response) as [sq Es]. rewrite Es in *. simpl.
  destruct (has_questions sq) as [q|] eqn:Hq''.
  { apply has_questions_Some in Hq''. destruct Hq'' as [-> Hne]. specialize (Ps _ eq_refl). simpl in Ps.
    exists (validateQuiz now q opts), (generated_at now). split; [reflexivity|].
    split; [apply metadata_validateQuiz; exact Ps|]. split; [reflexivity|auto]. }
  eexists. exists (generated_at now). split; [reflexivity|].
  split; [reflexivity|]. split; [reflexivity|auto].
Qed.

End ValidationFacts.

Section StringFacts.

Lemma drop_while_idem p s : drop_while p (drop_while p s) = drop_while p s.
Proof.
  induction s as [|c s IH]; simpl; [reflexivity|].
  destruct (p c) eqn:E; [exact IH|]. simpl. rewrite E. reflexivity.
Qed.

Lemma drop_while_app_last p l c :
  p c = false -> exists l', drop_while p (l ++ [c]) = l' ++ [c].
Proof.
  intro H. induction l as [|a l IH]; simpl.
  - rewrite H. exists []. reflexivity.
  - destruct (p a); [exact IH|]. exists (a :: l). reflexivity.
Qed.

Lemma trimEnd_head c t :
  is_space c = false -> exists t', trimEnd (c :: t) = c :: t'.
Proof.
  intro H. unfold trimEnd. simpl rev.
  destruct (drop_while_app_last is_space (rev t) c H) as (l' & ->).
  rewrite rev_app_distr. simpl. eauto.
Qed.

Lemma trimStart_head s :
  trimStart s = [] \/ exists c t, trimStart s = c :: t /\ is_space c = false.
Proof.
  unfold trimStart. induction s as [|c s IH]; simpl; auto.
  destruct (is_space c) eqn:E; auto. right. eauto.
Qed.

Lemma trimEnd_idem s : trimEnd (trimEnd s) = trimEnd s.
Proof. unfold trimEnd. rewrite rev_involutive, drop_while_idem. reflexivity. Qed.

Lemma trim_idem s : trim (trim s) = trim s.
Proof.
  unfold trim. destruct (trimStart_head s) as [->|(c & t & -> & Hc)].
  - reflexivity.
  - destruct (trimEnd_head c t Hc) as (t' & E). rewrite E.
    unfold trimStart. cbn [drop_while]. rewrite Hc. rewrite <- E.
    apply trimEnd_idem.
Qed.

End StringFacts.

Section StructuredEvaluationFacts.
Import Evaluation.

Lemma Forall_replace_value (P : jsstring * json -> Prop) o k v :
  Forall P o -> (forall k', P (k', v)) -> Forall P (replace_value o k v).
Proof.
  intros H Hv. induction H as [|[k0 w] o Hk Ho IH]; simpl; [constructor|].
  destruct (JsString.eqb k0 k); constructor; auto.
Qed.

Lemma Forall_insert_index (P : jsstring * json -> Prop) o k i v :
  Forall P o -> P (k, v) -> Forall P (insert_index o k i v).
Proof.
  intros H Hv. induction H as [|[k0 w] o Hk Ho IH]; simpl; [auto|].
  destruct (array_index k0) as [j|]; [destruct (j <? i)%N|]; auto.
Qed.

Lemma Forall_define (P : jsstring * json -> Prop) o k v :
  Forall P o -> (forall k', P (k', v)) -> Forall P (define o k v).
Proof.
  intros H Hv. unfold define. destruct (has_key o k).
  - apply Forall_replace_value; auto.
  - destruct (array_index k).
    + apply Forall_insert_index; auto.
    + apply Forall_app. auto.
Qed.

Lemma Forall_assign (P : jsstring * json -> Prop) o k v :
  Forall P o -> (forall k', P (k', v)) -> Forall P (assign o k v).
Proof.
  intros H Hv. unfold assign. destruct (_ && _); [exact H|]. apply Forall_define; auto.
Qed.

Lemma has_key_assign_other o k v k' :
  JsString.eqb k k' = false -> has_key (assign o k v) k' = has_key o k'.
Proof.
  intro H. unfold assign. destruct (_ && _); [reflexivity|].
  unfold has_key. rewrite lookup_define_other by assumption. reflexivity.
Qed.

Lemma mantissa_parseFloat s : (0 <= mantissa (parseFloat s))%Z.
Proof.
  unfold parseFloat. destruct (span is_digit s) as [int rest].
  cbn [mantissa]. unfold digits_Z. lia.
Qed.

Lemma fold_add_criterion_inv response ms : forall acc acc',
  fold_left (add_criterion response) ms (Returns acc) = Returns acc' ->
  has_key acc (js "overall") = false -> Forall criterion_entry acc ->
  has_key acc' (js "overall") = false /\ Forall criterion_entry acc'.
Proof.
  induction ms as [|m ms IH]; intros acc acc' H Hk Hf; cbn [fold_left] in H.
  - injection H as <-. auto.
  - destruct (add_criterion response (Returns acc) m) as [acc1|e|] eqn:E.
    + apply (IH acc1 acc' H).
      * unfold add_criterion in E. cbn [bind] in E.
        apply bind_Returns_inv in E. destruct E as (name & _ & E).
        destruct (negb (JsString.eqb (trim (toLowerCase name)) (js "overall"))) eqn:En.
        -- apply bind_Returns_inv in E. destruct E as (value & _ & E).
           injection E as <-. rewrite has_key_assign_other; [exact Hk|].
           apply negb_true_iff. exact En.
        -- injection E as <-. exact Hk.
      * unfold add_criterion in E. cbn [bind] in E.
        apply bind_Returns_inv in E. destruct E as (name & _ & E).
        destruct (negb _).
        -- apply bind_Returns_inv in E. destruct E as (value & _ & E).
           injection E as <-. apply Forall_assign; [exact Hf|].
           intro k'. eexists. split; [reflexivity|apply mantissa_parseFloat].
        -- injection E as <-. exact Hf.
    + exfalso. clear -H. induction ms; simpl in H; [discriminate|auto].
    + exfalso. clear -H. induction ms; simpl in H; [discriminate|auto].
Qed.

Lemma substring_prefix s n : substring s 0 (Z.of_nat n) = firstn n s.
Proof.
  unfold substring. cbv zeta.
  replace (Z.min (Z.max 0 0) (Z.of_nat (length s))) with 0%Z by lia.
  destruct (Nat.le_gt_cases n (length s)).
  - replace (Z.min (Z.max (Z.of_nat n) 0) (Z.of_nat (length s))) with (Z.of_nat n) by lia.
    rewrite Z.min_l, Z.max_r by lia. rewrite Nat2Z.id. simpl. rewrite Nat.sub_0_r. reflexivity.
  - replace (Z.min (Z.max (Z.of_nat n) 0) (Z.of_nat (length s)))
      with (Z.of_nat (length s)) by lia.
    rewrite Z.min_l, Z.max_r by lia. rewrite Nat2Z.id. simpl. rewrite Nat.sub_0_r.
    rewrite !firstn_all2 by lia. reflexivity.
Qed.

Lemma extractBulletPoints_bullets text :
  Forall bullet_point (strings (extractBulletPoints text)).
Proof.
  unfold extractBulletPoints, strings.
  destruct text as [[|c t]|]; try constructor.
  apply Forall_forall. intros v Hv. apply in_map_iff in Hv. destruct Hv as (p & <- & Hp).
  apply filter_In in Hp. destruct Hp as (Hp & Hn).
  apply in_map_iff in Hp. destruct Hp as (x & <- & _).
  exists (trim x). split; [reflexivity|]. split.
  - intro E. rewrite E in Hn. discriminate.
  - apply trim_idem.
Qed.

Lemma bullets_of_bullets r response : Forall bullet_point (strings (bullets_of r response)).
Proof.
  unfold bullets_of. destruct (exec flag_i r response).
  - apply extractBulletPoints_bullets.
  - constructor.
Qed.

(** X7.  Whenever extractStructuredEvaluation returns a result, its
    criteria have no key 'overall' and only numbers that are not
    negative, its overall score is not negative, every entry of
    strengths, improvements, misconceptions and missingElements is a
    string that is not empty and has no white space at either end, its
    explanation is trimmed, and its summary is the first 200 characters
    of the explanation. *)
Theorem structured_evaluation_shape response r :
  extractStructuredEvaluation response = Returns (Some r) ->
  (exists o, criteria (scores r) = JObj o
             /\ has_key o (js "overall") = false
             /\ Forall criterion_entry o)
  /\ (0 <= mantissa (overall (scores r)))%Z
  /\ Forall bullet_point (strengths (feedback r))
  /\ Forall bullet_point (improvements (feedback r))
  /\ Forall bullet_point (misconceptions (feedback r))
  /\ Forall bullet_point (missingElements r)
  /\ trim (explanation r) = explanation r
  /\ summary (feedback r) = firstn 200 (explanation r).
Proof.
  unfold extractStructuredEvaluation. intro H.
  apply bind_Returns_inv in H. destruct H as (ov & Hov & H).
  apply bind_Returns_inv in H. destruct H as (cs & Hcs & H).
  apply bind_Returns_inv in H. destruct H as (ex & Hex & H).
  assert (has_key cs (js "overall") = false /\ Forall criterion_entry cs) as (Hk & Hf).
  { destruct (exec_all no_flags criterion_score response) as [ms|]; [|discriminate].
    apply (fold_add_criterion_inv response ms [] cs Hcs); [reflexivity|constructor]. }
  assert (0 <= mantissa ov)%Z as Hnn.
  { destruct (exec flag_i overall_score response) as [m|].
    - apply bind_Returns_inv in Hov. destruct Hov as (t & _ & Hov).
      injection Hov as <-. apply mantissa_parseFloat.
    - injection Hov as <-. simpl. lia. }
  assert (trim ex = ex) as Htrim.
  { destruct (exec flag_i explanation_section response) as [m|].
    - apply bind_Returns_inv in Hex. destruct Hex as (t & _ & Hex).
      injection Hex as <-. apply trim_idem.
    - injection Hex as <-. reflexivity. }
  assert (r = {| scores := {| overall := ov; criteria := JObj cs |};
                 feedback := {| strengths := strings (bullets_of strengths_section response);
                                improvements := strings (bullets_of improvements_section response);
                                misconceptions := strings (bullets_of misconceptions_section response);
                                summary := substring ex 0 200 |};
                 missingElements := strings (bullets_of missing_section response);
                 explanation := ex;
                 raw := None |}) as ->.
  { destruct (exec flag_i overall_score response), cs; try discriminate;
      injection H as <-; reflexivity. }
  cbn [scores criteria overall feedback strengths improvements misconceptions summary
       missingElements explanation].
  split; [exists cs; auto|]. split; [exact Hnn|].
  repeat (split; [apply bullets_of_bullets|]).
  split; [exact Htrim|]. apply (substring_prefix ex 200).
Qed.

(** An evaluation in the markdown format of the prompt. *)
Lemma structured_evaluation_shape_witness :
  exists r,
    extractStructuredEvaluation markdown_evaluation = Returns (Some r)
    /\ criteria (scores r)
       = JObj [(js "accuracy", JNum (num_of_Z 8));
               (js "clarity", JNum {| mantissa := 65; exponent := -1 |})]
    /\ strengths (feedback r)
       = [JStr (js ":"); JStr (js "Names the process"); JStr (js "Gives an example

###")]
    /\ explanation r = js "A fair answer."
    /\ Forall bullet_point (improvements (feedback r)).
Proof.
  eexists. split; [vm_compute; reflexivity|].
  split; [reflexivity|]. split; [reflexivity|]. split; [reflexivity|].
  match goal with
  | |- Forall _ (improvements (feedback ?r)) =>
      exact (proj1 (proj2 (proj2 (proj2
               (structured_evaluation_shape markdown_evaluation r
                  ltac:(vm_compute; reflexivity))))))
  end.
Defined.

End StructuredEvaluationFacts.

Section FirstFacts.

Variable fl : flags.
Variable input : jsstring.

Lemma step_if_Some p k x z :
  step_if input p k x = Some z ->
  exists c, char_at input (pos x) = Some c /\ p c = true
            /\ k {| pos := S (pos x); caps := caps x |} = Some z.
Proof.
  unfold step_if. destruct (char_at input (pos x)) as [c|]; [|discriminate].
  destruct (p c) eqn:E; [|discriminate]. eauto.
Qed.

Lemma or_else_Some a b z :
  or_else a b = Some z -> a = Some z \/ b tt = Some z.
Proof. destruct a; simpl; auto. Qed.

Lemma matcher_first r : forall k x z,
  matcher fl input r k x = Some z -> first_ok fl r (char_at input (pos x)) = true.
Proof.
  induction r as [ |a| |neg items|r1 IH1 r2 IH2|r1 IH1 r2 IH2|min max greedy r' IH
                 |n r' IH|negative r' IH| | | ]; intros k x z H; cbn [first_ok]; auto.
  - cbn [matcher] in H. apply step_if_Some in H. destruct H as (c & -> & Hc & _). exact Hc.
  - cbn [matcher] in H. apply step_if_Some in H. destruct H as (c & -> & Hc & _). exact Hc.
  - cbn [matcher] in H. apply step_if_Some in H. destruct H as (c & -> & Hc & _). exact Hc.
  - cbn [matcher] in H. eapply IH1. exact H.
  - cbn [matcher] in H. apply or_else_Some in H. apply orb_true_iff.
    destruct H as [H|H]; [left; eapply IH1|right; eapply IH2]; exact H.
  - destruct min as [|min]; [reflexivity|].
    destruct max as [[|max]|]; [reflexivity| |].
    + cbn [matcher repeat_matcher] in H. cbn [Nat.eqb negb] in H.
      apply IH in H. rewrite pos_clear_caps in H. exact H.
    + cbn [matcher repeat_matcher] in H. cbn [Nat.eqb negb] in H.
      apply IH in H. rewrite pos_clear_caps in H. exact H.
  - cbn [matcher] in H. eapply IH. exact H.
  - destruct negative; [reflexivity|]. cbn [matcher] in H.
    destruct (matcher fl input r' Some x) as [y|] eqn:E; [|discriminate].
    eapply IH. exact E.
Qed.

(** No match where the pattern cannot start. *)
Lemma match_at_first r i :
  first_ok fl r (char_at input i) = false -> match_at fl input r i = None.
Proof.
  intro H. unfold match_at.
  destruct (matcher fl input r Some _) as [y|] eqn:E; [|reflexivity].
  apply matcher_first in E. cbn [pos] in E. congruence.
Qed.

Lemma search_from_none r n : forall i,
  (forall j, i <= j <= i + n -> match_at fl input r j = None) ->
  search_from fl input r n i = None.
Proof.
  induction n as [|n IH]; intros i H; cbn [search_from].
  - rewrite H by lia. reflexivity.
  - rewrite H by lia. apply IH. intros j Hj. apply H. lia.
Qed.

Lemma replace_scan_none r repl n : forall i last next,
  (forall j, match_at fl input r j = None) ->
  replace_scan fl input r repl n i last next = slice input next (length input).
Proof.
  induction n as [|n IH]; intros i last next H; cbn [replace_scan]; [reflexivity|].
  destruct (i <? last); [apply IH; exact H|]. rewrite H. apply IH. exact H.
Qed.

Lemma exec_scan_none r n : forall i last,
  (forall j, match_at fl input r j = None) ->
  exec_scan fl input r n i last = Some [].
Proof.
  induction n as [|n IH]; intros i last H; cbn [exec_scan]; [reflexivity|].
  destruct (i <? last); [apply IH; exact H|]. rewrite H. apply IH. exact H.
Qed.

Lemma split_scan_none r n : forall q last p,
  (forall j, match_at fl input r j = None) ->
  split_scan fl input r n q last p = [slice input p (length input)].
Proof.
  induction n as [|n IH]; intros q last p H; cbn [split_scan]; [reflexivity|].
  destruct (q <? last); [apply IH; exact H|]. rewrite H. apply IH. exact H.
Qed.

End FirstFacts.

Lemma slice_all s : slice s 0 (length s) = s.
Proof. unfold slice. rewrite Nat.sub_0_r. simpl. apply firstn_all. Qed.

(** A pattern that matches nowhere leaves every method without effect. *)
Lemma no_match_anywhere fl r s repl :
  (forall j, match_at fl s r j = None) ->
  exec fl r s = None
  /\ test fl r s = false
  /\ replace_all fl r repl s = s
  /\ exec_all fl r s = Some []
  /\ split fl r s = [s].
Proof.
  intro H.
  assert (exec fl r s = None) as He.
  { unfold exec. apply search_from_none. intros; apply H. }
  split; [exact He|]. split; [unfold test; rewrite He; reflexivity|].
  split; [unfold replace_all; rewrite replace_scan_none by exact H; apply slice_all|].
  split; [unfold exec_all; apply exec_scan_none; exact H|].
  unfold split. destruct s as [|c s]; [rewrite H; reflexivity|].
  rewrite split_scan_none by exact H. rewrite slice_all. reflexivity.
Qed.

Lemma skipn_cons_nth {A} (s : list A) i c rest :
  skipn i s = c :: rest -> nth_error s i = Some c /\ skipn (S i) s = rest /\ i < length s.
Proof.
  revert s. induction i as [|i IH]; intros [|a s] H; simpl in *; try discriminate.
  - injection H as -> ->. repeat split. lia.
  - apply IH in H. destruct H as (H1 & H2 & H3). repeat split; auto. lia.
Qed.

Lemma skipn_nil_length {A} (s : list A) i : skipn i s = [] -> length s <= i.
Proof.
  revert s. induction i as [|i IH]; intros [|a s] H; simpl in *; try discriminate; try lia.
  apply IH in H. lia.
Qed.

Lemma char_at_skipn input i : char_at input i = hd_error (skipn i input).
Proof.
  unfold char_at. revert input. induction i as [|i IH]; intros [|a s]; simpl; auto.
Qed.

Lemma slice_snoc s next i c rest :
  next <= i -> skipn i s = c :: rest -> slice s next (S i) = slice s next i ++ [c].
Proof.
  intros Hle Hs. unfold slice.
  pose proof (firstn_skipn (i - next) (skipn next s)) as Hsplit.
  rewrite skipn_skipn in Hsplit. replace (i - next + next) with i in Hsplit by lia.
  rewrite Hs in Hsplit.
  assert (length (firstn (i - next) (skipn next s)) = i - next) as Hlen.
  { apply firstn_length_le. rewrite length_skipn.
    apply skipn_cons_nth in Hs. lia. }
  rewrite <- Hsplit at 1.
  replace (S i - next) with (length (firstn (i - next) (skipn next s)) + 1) by lia.
  rewrite firstn_app_2. reflexivity.
Qed.

Lemma slice_empty s i : slice s i i = [].
Proof. unfold slice. rewrite Nat.sub_diag. reflexivity. Qed.

Section ReplaceBy.

Variable fl : flags.
Variable s : jsstring.
Variable r : regex.
Variable repl : match_result -> jsstring.
Variable len : jsstring -> option nat.
Variable replacement : jsstring.

Hypothesis repl_constant : forall m, repl m = replacement.
Hypothesis len_inside : forall t n, len t = Some n -> S n <= length t.
Hypothesis match_len : forall i,
  i <= length s ->
  option_map m_end (match_at fl s r i)
  = option_map (fun n => i + S n) (len (skipn i s)).

Lemma replace_scan_by n : forall i last next,
  n + i = S (length s) ->
  (i < last -> next = last /\ last <= length s) ->
  (last <= i -> next <= i) ->
  replace_scan fl s r repl n i last next
  = (if i <? last then [] else slice s next i)
      ++ replace_by len replacement (last - i) (skipn i s).
Proof.
  induction n as [|n IH]; intros i last next Hn Hin Hout.
  { cbn [replace_scan]. destruct (i <? last) eqn:El.
    - apply Nat.ltb_lt in El. destruct (Hin El). lia.
    - rewrite skipn_all2 by lia. destruct (last - i); cbn [replace_by]; rewrite app_nil_r;
        unfold slice; rewrite !firstn_all2 by (rewrite length_skipn; lia); reflexivity. }
  cbn [replace_scan].
  destruct (skipn i s) as [|c rest] eqn:Es.
  - (* the end of the text *)
    apply skipn_nil_length in Es. assert (i = length s) as -> by lia.
    assert (n = 0) as -> by lia.
    destruct (length s <? last) eqn:El.
    { apply Nat.ltb_lt in El. destruct (Hin El). lia. }
    pose proof (match_len (length s) (Nat.le_refl _)) as Hm.
    rewrite skipn_all in Hm.
    destruct (len []) as [k|] eqn:Ek; [apply len_inside in Ek; simpl in Ek; lia|].
    destruct (match_at fl s r (length s)); [discriminate|].
    cbn [replace_scan replace_by]. rewrite app_nil_r. reflexivity.
  - destruct (skipn_cons_nth _ _ _ _ Es) as (Hc & Hrest & Hlt).
    destruct (i <? last) eqn:El.
    + apply Nat.ltb_lt in El. destruct (Hin El) as (-> & Hlast).
      rewrite (IH (S i) last last) by lia.
      rewrite Hrest. destruct (last - i) as [|k] eqn:Ek; [lia|].
      cbn [replace_by app]. replace (last - S i) with k by lia.
      destruct (S i <? last) eqn:El'; [reflexivity|].
      apply Nat.ltb_ge in El'. assert (last = S i) as -> by lia.
      rewrite slice_empty. reflexivity.
    + apply Nat.ltb_ge in El. specialize (Hout El).
      replace (last - i) with 0 by lia. cbn [replace_by].
      pose proof (match_len i ltac:(lia)) as Hm. rewrite Es in Hm.
      destruct (match_at fl s r i) as [m|] eqn:Em;
        destruct (len (c :: rest)) as [k|] eqn:Ek; try discriminate.
      * cbn [option_map] in Hm. injection Hm as Hm.
        pose proof (len_inside _ _ Ek) as Hk. rewrite <- Es, length_skipn in Hk.
        assert ((m_end m =? i) = false) as -> by (apply Nat.eqb_neq; lia).
        rewrite Hm.
        rewrite (IH (S i) (i + S k) (i + S k)) by lia.
        rewrite repl_constant, Hrest.
        replace (i + S k - S i) with k by lia.
        destruct (S i <? i + S k) eqn:El'; [reflexivity|].
        apply Nat.ltb_ge in El'. replace (i + S k) with (S i) by lia.
        rewrite slice_empty. reflexivity.
      * rewrite (IH (S i) last next) by lia.
        assert ((S i <? last) = false) as -> by (apply Nat.ltb_ge; lia).
        replace (last - S i) with 0 by lia. rewrite Hrest.
        rewrite (slice_snoc s next i c rest Hout Es), <- app_assoc. reflexivity.
Qed.

(** The global replace is the replace read off the text. *)
Lemma replace_all_by : replace_all fl r repl s = replace_by len replacement 0 s.
Proof.
  unfold replace_all. rewrite (replace_scan_by (S (length s)) 0 0 0) by lia.
  cbn [Nat.ltb Nat.leb Nat.sub skipn]. rewrite slice_empty. reflexivity.
Qed.

End ReplaceBy.

Section RepeatRun.

Variable input : jsstring.
Variable p : N -> bool.

Lemma step_if_eq k x :
  step_if input p k x
  = match hd_error (skipn (pos x) input) with
    | Some c => if p c then k {| pos := S (pos x); caps := caps x |} else None
    | None => None
    end.
Proof. unfold step_if. rewrite char_at_skipn. reflexivity. Qed.

(** A greedy repetition of one class runs to the end of the run of
    that class, when the rest of the pattern matches from there. *)
Lemma repeat_run_Some k : forall fuel min x z,
  min <= run p (skipn (pos x) input) ->
  run p (skipn (pos x) input) < fuel ->
  k {| pos := pos x + run p (skipn (pos x) input); caps := caps x |} = Some z ->
  repeat_matcher (step_if input p) [] true fuel min None k x = Some z.
Proof.
  induction fuel as [|fuel IH]; intros min x z Hmin Hfuel Hk; [lia|].
  cbn [repeat_matcher clear_caps fold_left]. rewrite !step_if_eq.
  destruct (skipn (pos x) input) as [|c rest] eqn:Es.
  - cbn [run] in *. assert (min = 0) as -> by lia. cbn [Nat.eqb negb hd_error or_else].
    rewrite Nat.add_0_r in Hk. destruct x. exact Hk.
  - cbn [run hd_error] in *. destruct (p c) eqn:Ec.
    + destruct (skipn_cons_nth _ _ _ _ Es) as (_ & Hrest & _).
      cbn [pos caps].
      assert ((S (pos x) =? pos x) = false) as -> by (apply Nat.eqb_neq; lia).
      rewrite andb_false_r. cbn [option_map].
      rewrite (IH (Nat.pred min) {| pos := S (pos x); caps := caps x |} z).
      * destruct (negb (min =? 0)); reflexivity.
      * cbn [pos]. rewrite Hrest. lia.
      * cbn [pos]. rewrite Hrest. lia.
      * cbn [pos caps]. rewrite Hrest.
        replace (S (pos x) + run p rest) with (pos x + S (run p rest)) by lia. exact Hk.
    + assert (min = 0) as -> by lia. cbn [Nat.eqb negb or_else].
      rewrite Nat.add_0_r in Hk. destruct x. exact Hk.
Qed.

End RepeatRun.

Lemma run_le_length p s : run p s <= length s.
Proof. induction s as [|c s IH]; simpl; [lia|]. destruct (p c); simpl; lia. Qed.

Lemma run_ext p q s : (forall c, p c = q c) -> run p s = run q s.
Proof. intro H. induction s as [|c s IH]; simpl; [reflexivity|]. rewrite H, IH. reflexivity. Qed.

(** Where one class matches, and how far a run of it goes. *)
Lemma match_at_class fl s negated items i :
  option_map m_end (match_at fl s (RClass negated items) i)
  = option_map (fun n => i + S n)
               (match skipn i s with
                | c :: _ => if class_matches fl negated items c then Some 0 else None
                | [] => None
                end).
Proof.
  unfold match_at. cbn [matcher]. unfold step_if. cbn [pos caps].
  rewrite char_at_skipn. destruct (skipn i s) as [|c rest]; [reflexivity|].
  cbn [hd_error]. destruct (class_matches fl negated items c); [|reflexivity].
  cbn. f_equal. lia.
Qed.

Lemma match_at_plus_class fl s negated items i :
  option_map m_end (match_at fl s (plus (RClass negated items)) i)
  = option_map (fun n => i + S n)
               (match skipn i s with
                | c :: rest => if class_matches fl negated items c
                               then Some (run (class_matches fl negated items) rest)
                               else None
                | [] => None
                end).
Proof.
  destruct (skipn i s) as [|c rest] eqn:Es.
  - rewrite match_at_first; [reflexivity|]. rewrite char_at_skipn, Es. reflexivity.
  - destruct (class_matches fl negated items c) eqn:Ec.
    + unfold match_at, plus. cbn [matcher groups].
      erewrite (repeat_run_Some s (class_matches fl negated items) Some);
        cbn [pos caps]; rewrite ?Es; cbn [run]; rewrite ?Ec; try reflexivity.
      * cbn. reflexivity.
      * lia.
      * pose proof (run_le_length (class_matches fl negated items) rest).
        apply skipn_cons_nth in Es. destruct Es as (_ & <- & Hi).
        pose proof (length_skipn (S i) s). lia.
    + rewrite match_at_first; [reflexivity|]. rewrite char_at_skipn, Es.
      cbn. rewrite Ec. reflexivity.
Qed.

(** Removing one class is a filter. *)
Lemma remove_class fl negated items s :
  replace_all fl (RClass negated items) (fun _ => []) s
  = filter (fun c => negb (class_matches fl negated items c)) s.
Proof.
  rewrite (replace_all_by fl s _ _
             (fun t => match t with
                       | c :: _ => if class_matches fl negated items c then Some 0 else None
                       | [] => None
                       end) []).
  - induction s as [|c s IH]; cbn [replace_by filter]; [reflexivity|].
    destruct (class_matches fl negated items c); cbn [negb app replace_by].
    + destruct s; [reflexivity|]. exact IH.
    + rewrite IH. reflexivity.
  - reflexivity.
  - intros [|c t] n; [discriminate|]. destruct (class_matches _ _ _ c); [|discriminate].
    intro H. injection H as <-. simpl. lia.
  - intros i _. apply match_at_class.
Qed.

Lemma class_space c : class_matches no_flags false [CSpace] c = is_space c.
Proof. unfold class_matches, in_class. cbn. rewrite orb_false_r. reflexivity. Qed.

Lemma replace_by_squeeze s :
  let len := fun t => match t with
                      | c :: rest => if is_space c then Some (run is_space rest) else None
                      | [] => None
                      end in
  replace_by len (js " ") 0 s = squeeze_from false s
  /\ replace_by len (js " ") (run is_space s) s = squeeze_from true s.
Proof.
  cbv zeta. induction s as [|c s [IH0 IH1]]; [split; reflexivity|].
  cbn [replace_by squeeze_from run]. destruct (is_space c) eqn:Ec.
  - cbn [replace_by]. rewrite IH1. split; reflexivity.
  - cbn [replace_by]. rewrite IH0. split; reflexivity.
Qed.

(** Collapsing the white space is the squeeze. *)
Lemma collapse_spaces_squeeze s :
  replace_all no_flags Preprocessor.spaces (fun _ => js " ") s = squeeze s.
Proof.
  rewrite (replace_all_by no_flags s _ _
             (fun t => match t with
                       | c :: rest => if is_space c then Some (run is_space rest) else None
                       | [] => None
                       end) (js " ")).
  - apply (proj1 (replace_by_squeeze s)).
  - reflexivity.
  - intros [|c t] n; [discriminate|]. destruct (is_space c); [|discriminate].
    intro H. injection H as <-. pose proof (run_le_length is_space t). simpl. lia.
  - intros i _. unfold Preprocessor.spaces, space. rewrite match_at_plus_class.
    destruct (skipn i s) as [|c rest]; [reflexivity|]. rewrite class_space.
    rewrite (run_ext _ _ rest class_space). reflexivity.
Qed.

Lemma head_squeeze_true s :
  match squeeze_from true s with d :: _ => is_space d = false | [] => True end.
Proof.
  induction s as [|c s IH]; simpl; [exact I|]. destruct (is_space c) eqn:E; [exact IH|exact E].
Qed.

Lemma single_spaced_squeeze b s : single_spaced (squeeze_from b s).
Proof.
  revert b. induction s as [|c s IH]; intro b; simpl; [exact I|].
  destruct (is_space c) eqn:E.
  - destruct b; [apply IH|]. cbn [single_spaced]. split; [|apply IH].
    intros _. split; [reflexivity|apply head_squeeze_true].
  - cbn [single_spaced]. split; [|apply IH]. rewrite E. discriminate.
Qed.

Lemma squeeze_single_spaced s :
  single_spaced s ->
  squeeze_from false s = s
  /\ (match s with d :: _ => is_space d = false | [] => True end -> squeeze_from true s = s).
Proof.
  induction s as [|c s IH]; intro H; [split; reflexivity|].
  cbn [single_spaced] in H. destruct H as (Hc & Hs). destruct (IH Hs) as (IH0 & IH1).
  cbn [squeeze_from]. destruct (is_space c) eqn:E.
  - destruct (Hc eq_refl) as (-> & Hd). rewrite (IH1 Hd). split; [reflexivity|].
    intro Hn. discriminate.
  - rewrite IH0. split; reflexivity.
Qed.

Lemma drop_while_suffix p (l : jsstring) :
  exists w, l = w ++ drop_while p l /\ Forall (fun c => p c = true) w.
Proof.
  induction l as [|c l (w & Hw & Hp)]; simpl.
  - exists []. split; [reflexivity|constructor].
  - destruct (p c) eqn:E.
    + exists (c :: w). split; [simpl; f_equal; exact Hw|constructor; assumption].
    + exists []. split; [reflexivity|constructor].
Qed.

(** What trim takes away: white space at the head and at the end. *)
Lemma trim_parts s :
  exists a b, s = a ++ trim s ++ b
              /\ Forall (fun c => is_space c = true) a
              /\ Forall (fun c => is_space c = true) b.
Proof.
  unfold trim, trimEnd, trimStart.
  destruct (drop_while_suffix is_space s) as (a & Ha & Hpa).
  destruct (drop_while_suffix is_space (rev (drop_while is_space s))) as (b & Hb & Hpb).
  exists a, (rev b). split; [|split; [exact Hpa|]].
  - rewrite Ha at 1. f_equal. rewrite <- rev_app_distr, <- Hb, rev_involutive. reflexivity.
  - apply Forall_forall. intros c Hc. apply in_rev in Hc.
    rewrite Forall_forall in Hpb. auto.
Qed.

Lemma single_spaced_tail a s : single_spaced (a ++ s) -> single_spaced s.
Proof. induction a as [|c a IH]; simpl; [auto|]. intros [_ H]. auto. Qed.

Lemma single_spaced_init s b : single_spaced (s ++ b) -> single_spaced s.
Proof.
  induction s as [|c s IH]; simpl; [auto|]. intros [Hc H]. split; [|auto].
  intro E. destruct (Hc E) as (-> & Hd). split; [reflexivity|].
  destruct s; [exact I|exact Hd].
Qed.

Lemma single_spaced_trim s : single_spaced s -> single_spaced (trim s).
Proof.
  intro H. destruct (trim_parts s) as (a & b & E & _ & _). rewrite E in H.
  apply single_spaced_tail in H. apply single_spaced_init in H. exact H.
Qed.

Lemma Forall_trim (P : N -> Prop) s : Forall P s -> Forall P (trim s).
Proof.
  intro H. destruct (trim_parts s) as (a & b & E & _ & _). rewrite E in H.
  apply Forall_app in H. destruct H as (_ & H). apply Forall_app in H. tauto.
Qed.

Lemma Forall_squeeze (P : N -> Prop) b s :
  P 32%N -> Forall P s -> Forall P (squeeze_from b s).
Proof.
  intros H32 H. revert b. induction H as [|c s Hc Hs IH]; intro b; simpl; [constructor|].
  destruct (is_space c); [destruct b|]; auto.
Qed.

Lemma filter_all {A} (f : A -> bool) l : Forall (fun a => f a = true) l -> filter f l = l.
Proof. induction 1 as [|a l Ha _ IH]; simpl; [reflexivity|]. rewrite Ha, IH. reflexivity. Qed.

(** What squeezing and trimming leave. *)
Lemma normalized_trim_squeeze s : normalized (trim (squeeze s)).
Proof.
  split; [apply single_spaced_trim, single_spaced_squeeze|apply trim_idem].
Qed.

Lemma trim_squeeze_normalized s : normalized s -> trim (squeeze s) = s.
Proof.
  intros [Hs Ht]. unfold squeeze. rewrite (proj1 (squeeze_single_spaced s Hs)). exact Ht.
Qed.

Section SanitizeFacts.
Import Prompts.

Lemma class_control c : class_matches no_flags false [CRange 0 31; CRange 127 159] c = is_control c.
Proof. unfold class_matches, in_class, is_control. cbn. rewrite orb_false_r. reflexivity. Qed.

(** sanitizeInput on the text itself. *)
Lemma sanitizeInput_eq input :
  sanitizeInput input = trim (squeeze (filter (fun c => negb (is_control c)) input)).
Proof.
  unfold sanitizeInput, control. rewrite remove_class, collapse_spaces_squeeze.
  f_equal. f_equal. apply filter_ext. intro c. rewrite class_control. reflexivity.
Qed.

Lemma sanitizeInput_clean input :
  Forall (fun c => is_control c = false) (sanitizeInput input)
  /\ normalized (sanitizeInput input).
Proof.
  rewrite sanitizeInput_eq. split; [|apply normalized_trim_squeeze].
  apply Forall_trim. apply Forall_squeeze; [reflexivity|].
  apply Forall_forall. intros c Hc. apply filter_In in Hc.
  apply negb_true_iff. tauto.
Qed.

(** X8.  What sanitizeInput returns holds no control character (U+0000
    to U+001F, U+007F to U+009F), no white space at either end, and no
    white space but single spaces U+0020 between words. *)
Theorem sanitizeInput_shape input :
  Forall (fun c => is_control c = false) (sanitizeInput input)
  /\ normalized (sanitizeInput input).
Proof. exact (sanitizeInput_clean input). Qed.

(** X9.  sanitizeInput is idempotent: sanitizing what it returned
    changes nothing. *)
Theorem sanitizeInput_idempotent input :
  sanitizeInput (sanitizeInput input) = sanitizeInput input.
Proof.
  destruct (sanitizeInput_clean input) as (Hc & Hn).
  rewrite (sanitizeInput_eq (sanitizeInput input)).
  rewrite filter_all; [apply trim_squeeze_normalized; exact Hn|].
  eapply Forall_impl; [|exact Hc]. intros c E. simpl in E. rewrite E. reflexivity.
Qed.

Example sanitizeInput_examples :
  sanitizeInput (js "  two   words  ") = js "two words"
  /\ sanitizeInput (js "line one
line two") = js "line oneline two"
  /\ sanitizeInput [104; 105; 160; 8232; 33]%N = js "hi !".
Proof. repeat split; vm_compute; reflexivity. Qed.

End SanitizeFacts.

Section CleanContentFacts.
Import Preprocessor.

Lemma cleanContent_eq content :
  cleanContent content
  = match content with
    | [] => []
    | _ => trim (squeeze (remove no_flags html_tag
                            (remove no_flags html_comment
                               (remove flag_i (element "style")
                                  (remove flag_i (element "script") (squeeze content))))))
    end.
Proof.
  unfold cleanContent, collapse_spaces. destruct content; [reflexivity|].
  rewrite !collapse_spaces_squeeze. reflexivity.
Qed.

Lemma cleanContent_normal content : normalized (cleanContent content).
Proof.
  rewrite cleanContent_eq. destruct content; [split; [exact I|reflexivity]|].
  apply normalized_trim_squeeze.
Qed.


End CleanContentFacts.

Section TagFacts.

Variable s : jsstring.

Lemma matcher_opt_char fl a k x :
  0 < length s ->
  matcher fl s (opt (RChar a)) k x
  = match hd_error (skipn (pos x) s) with
    | Some c => if char_matches fl a c
                then or_else (k {| pos := S (pos x); caps := caps x |}) (fun _ => k x)
                else k x
    | None => k x
    end.
Proof.
  intro Hs. unfold opt. cbn [matcher groups]. cbn [repeat_matcher clear_caps fold_left].
  cbn [Nat.eqb negb andb]. rewrite step_if_eq.
  destruct (hd_error (skipn (pos x) s)) as [c|]; [|reflexivity].
  destruct (char_matches fl a c); [|reflexivity].
  cbn [pos caps].
  assert ((S (pos x) =? pos x) = false) as -> by (apply Nat.eqb_neq; lia).
  destruct (length s) as [|n]; [lia|]. cbn [Nat.add repeat_matcher option_map Nat.pred].
  reflexivity.
Qed.

Lemma char_matches_plain a c : char_matches no_flags a c = (a =? c)%N.
Proof. reflexivity. Qed.

Lemma run_stop p (t : jsstring) :
  match skipn (run p t) t with c :: _ => p c = false | [] => True end.
Proof.
  induction t as [|c t IH]; simpl; [exact I|]. destruct (p c) eqn:E; [exact IH|exact E].
Qed.

Lemma class_not_gt c : class_matches no_flags true [CChar 62] c = not_gt c.
Proof. unfold class_matches, in_class, not_gt. cbn. rewrite orb_false_r. reflexivity. Qed.

(** The end of a tag: ">" or the end of the text. *)
Lemma matcher_close x :
  pos x <= length s ->
  match skipn (pos x) s with c :: _ => c = 62%N | [] => True end ->
  exists z, matcher no_flags s (RGroup 1 (RAlt (RChar 62) REol)) Some x = Some z
            /\ pos z = pos x + match skipn (pos x) s with _ :: _ => 1 | [] => 0 end.
Proof.
  intros Hx Hc. cbn [matcher]. rewrite step_if_eq.
  destruct (skipn (pos x) s) as [|c rest] eqn:Es.
  - cbn [hd_error or_else]. apply skipn_nil_length in Es.
    assert ((pos x =? length s) = true) as -> by (apply Nat.eqb_eq; lia).
    cbn [orb]. eexists. split; [reflexivity|]. cbn. lia.
  - subst c. cbn [hd_error]. change (char_matches no_flags 62 62) with true.
    cbn [or_else]. eexists. split; [reflexivity|]. cbn. lia.
Qed.

(** The body of a tag and its end, from the first code unit after "<"
    or "</". *)
Lemma matcher_tag_body x :
  pos x <= length s ->
  0 < run not_gt (skipn (pos x) s) ->
  exists z,
    matcher no_flags s (RSeq (plus (RClass true [CChar 62])) (RGroup 1 (RAlt (RChar 62) REol)))
            Some x = Some z
    /\ pos z = pos x + run not_gt (skipn (pos x) s)
               + match skipn (run not_gt (skipn (pos x) s)) (skipn (pos x) s) with
                 | _ :: _ => 1
                 | [] => 0
                 end.
Proof.
  intros Hx Hrun. set (t := skipn (pos x) s) in *.
  assert (run (class_matches no_flags true [CChar 62]) t = run not_gt t) as Er
    by (apply run_ext, class_not_gt).
  destruct (matcher_close {| pos := pos x + run not_gt t; caps := caps x |}) as (z & Hz & Hp).
  { cbn [pos]. pose proof (run_le_length not_gt t). unfold t in *.
    rewrite length_skipn in H. lia. }
  { cbn [pos]. rewrite Nat.add_comm, <- skipn_skipn. fold t.
    pose proof (run_stop not_gt t) as Hstop.
    destruct (skipn (run not_gt t) t) as [|c rest]; [exact I|].
    unfold not_gt in Hstop. apply negb_false_iff, N.eqb_eq in Hstop. auto. }
  exists z. split.
  - cbn [matcher groups]. unfold plus. cbn [matcher groups].
    apply (repeat_run_Some s (class_matches no_flags true [CChar 62])); fold t; rewrite Er.
    + lia.
    + pose proof (run_le_length not_gt t). unfold t in *. rewrite length_skipn in H. lia.
    + exact Hz.
  - rewrite Hp. cbn [pos]. rewrite (Nat.add_comm (pos x)), <- skipn_skipn. fold t. lia.
Qed.

Lemma matcher_tag_body_none k x :
  run not_gt (skipn (pos x) s) = 0 ->
  matcher no_flags s (RSeq (plus (RClass true [CChar 62])) (RGroup 1 (RAlt (RChar 62) REol)))
          k x = None.
Proof.
  intro Hrun.
  destruct (matcher no_flags s _ k x) as [z|] eqn:E; [|reflexivity].
  apply matcher_first in E. cbn [first_ok plus] in E. rewrite char_at_skipn in E.
  destruct (skipn (pos x) s) as [|c rest]; [discriminate|].
  cbn [hd_error run] in *. rewrite class_not_gt in E. rewrite E in Hrun. discriminate.
Qed.

Lemma matcher_seq fl r1 r2 k x :
  matcher fl s (RSeq r1 r2) k x = matcher fl s r1 (matcher fl s r2 k) x.
Proof. reflexivity. Qed.

Lemma matcher_char fl a k x :
  matcher fl s (RChar a) k x = step_if s (char_matches fl a) k x.
Proof. reflexivity. Qed.

Lemma html_tag_eq :
  Preprocessor.html_tag
  = RSeq (RChar 60)
         (RSeq (opt (RChar 47))
               (RSeq (plus (RClass true [CChar 62])) (RGroup 1 (RAlt (RChar 62) REol)))).
Proof. reflexivity. Qed.

(** Where a tag starts and where it ends. *)
Lemma match_at_html_tag i :
  i <= length s ->
  option_map m_end (match_at no_flags s Preprocessor.html_tag i)
  = option_map (fun n => i + S n) (tag_len (skipn i s)).
Proof.
  intro Hi. rewrite html_tag_eq.
  destruct (skipn i s) as [|c0 t] eqn:Es.
  { rewrite match_at_first; [reflexivity|]. rewrite char_at_skipn, Es. reflexivity. }
  destruct (skipn_cons_nth _ _ _ _ Es) as (_ & Ht & Hlt).
  cbn [tag_len]. destruct (c0 =? 60)%N eqn:Ec.
  2:{ rewrite match_at_first; [reflexivity|]. rewrite char_at_skipn, Es.
      cbn [first_ok hd_error]. rewrite char_matches_plain, N.eqb_sym. exact Ec. }
  apply N.eqb_eq in Ec. subst c0. cbn [andb].
  unfold match_at. rewrite (matcher_seq no_flags (RChar 60)), matcher_char, step_if_eq.
  cbn [pos caps]. rewrite Es.
  cbn [hd_error]. change (char_matches no_flags 60 60) with true. cbv iota.
  rewrite (matcher_seq no_flags (opt (RChar 47))), matcher_opt_char by lia. cbn [pos caps]. rewrite Ht.
  destruct (0 <? run not_gt t) eqn:Hrun.
  - apply Nat.ltb_lt in Hrun.
    destruct (matcher_tag_body {| pos := S i; caps := [] |}) as (z & Hz & Hp);
      [cbn [pos]; lia|cbn [pos]; rewrite Ht; exact Hrun|].
    cbn [pos] in Hp. rewrite Ht in Hp.
    destruct t as [|c1 t']; [cbn in Hrun; lia|]. cbn [hd_error].
    destruct (char_matches no_flags 47 c1) eqn:E47.
    + (* "</": the slash is taken when a body follows it *)
      rewrite char_matches_plain in E47. apply N.eqb_eq in E47. subst c1.
      destruct (run not_gt t') as [|k] eqn:Hk.
      * rewrite matcher_tag_body_none; [|cbn [pos];
          apply skipn_cons_nth in Ht; destruct Ht as (_ & -> & _); exact Hk].
        cbn [or_else]. rewrite Hz. cbn [option_map]; unfold m_end; cbn [m_state].
        rewrite Hp. f_equal. lia.
      * destruct (matcher_tag_body {| pos := S (S i); caps := [] |}) as (z' & Hz' & Hp').
        { cbn [pos]. apply skipn_cons_nth in Ht. lia. }
        { cbn [pos]. apply skipn_cons_nth in Ht. destruct Ht as (_ & -> & _). lia. }
        rewrite Hz'. cbn [or_else option_map]; unfold m_end; cbn [m_state].
        rewrite Hp'. cbn [pos]. apply skipn_cons_nth in Ht. destruct Ht as (_ & -> & _).
        cbn [run]. change (not_gt 47) with true. cbv iota. cbn [skipn]. f_equal. lia.
    + rewrite Hz. cbn [option_map]; unfold m_end; cbn [m_state]. rewrite Hp. f_equal. lia.
  - apply Nat.ltb_ge in Hrun. assert (run not_gt t = 0) as H0 by lia.
    assert (matcher no_flags s
              (RSeq (plus (RClass true [CChar 62])) (RGroup 1 (RAlt (RChar 62) REol))) Some
              {| pos := S i; caps := [] |} = None) as Hb.
    { apply matcher_tag_body_none. cbn [pos]. rewrite Ht. exact H0. }
    destruct t as [|c1 t']; cbn [hd_error]; [rewrite Hb; reflexivity|].
    cbn [run] in H0. destruct (not_gt c1) eqn:E1; [discriminate|].
    unfold not_gt in E1. apply negb_false_iff, N.eqb_eq in E1. subst c1.
    change (char_matches no_flags 47 62) with false. cbv iota. rewrite Hb. reflexivity.
Qed.

End TagFacts.

Section CleanContentIdempotent.
Import Preprocessor.

Lemma tag_len_inside t n : tag_len t = Some n -> S n <= length t.
Proof.
  destruct t as [|c t]; [discriminate|]. cbn [tag_len].
  destruct (_ && _); [|discriminate]. intro H. injection H as <-.
  pose proof (run_le_length not_gt t) as Hr.
  pose proof (length_skipn (run not_gt t) t) as Hs.
  destruct (skipn (run not_gt t) t); simpl in *; lia.
Qed.

(** Removing the tags, read off the text. *)
Lemma remove_html_tag s : remove no_flags html_tag s = replace_by tag_len [] 0 s.
Proof.
  unfold remove. apply replace_all_by.
  - reflexivity.
  - apply tag_len_inside.
  - apply match_at_html_tag.
Qed.

Lemma tag_len_gt t : tag_len (62%N :: t) = None.
Proof. reflexivity. Qed.

Lemma tag_closed_replace_by s : forall k, tag_closed (replace_by tag_len [] k s).
Proof.
  induction s as [|c s IH]; intro k; cbn [replace_by]; [exact I|].
  destruct k as [|k]; [|apply IH].
  destruct (tag_len (c :: s)) as [n|] eqn:E; [apply IH|].
  cbn [tag_closed]. split; [|apply IH].
  intros ->. cbn [tag_len] in E. rewrite N.eqb_refl in E. cbn [andb] in E.
  destruct s as [|d s']; [exact I|]. cbn [run] in E.
  destruct (not_gt d) eqn:Ed; [discriminate|].
  unfold not_gt in Ed. apply negb_false_iff, N.eqb_eq in Ed. subst d.
  cbn [replace_by]. rewrite tag_len_gt. reflexivity.
Qed.

Lemma replace_by_tag_closed s : tag_closed s -> replace_by tag_len [] 0 s = s.
Proof.
  induction s as [|c s IH]; intro H; [reflexivity|].
  cbn [tag_closed] in H. destruct H as (Hc & Hs).
  cbn [replace_by]. assert (tag_len (c :: s) = None) as ->.
  { cbn [tag_len]. destruct (c =? 60)%N eqn:E; [|reflexivity].
    apply N.eqb_eq in E. specialize (Hc E). destruct s as [|d s']; [reflexivity|].
    subst d. reflexivity. }
  rewrite (IH Hs). reflexivity.
Qed.

Lemma tag_closed_squeeze s : tag_closed s -> forall b, tag_closed (squeeze_from b s).
Proof.
  induction s as [|c s IH]; intros H b; [exact I|].
  cbn [tag_closed] in H. destruct H as (Hc & Hs). cbn [squeeze_from].
  destruct (is_space c) eqn:E.
  - destruct b; [apply IH; exact Hs|]. cbn [tag_closed]. split; [discriminate|apply IH; exact Hs].
  - cbn [tag_closed]. split; [|apply IH; exact Hs].
    intro E60. specialize (Hc E60). destruct s as [|d s']; [exact I|]. subst d.
    reflexivity.
Qed.

Lemma tag_closed_tail a s : tag_closed (a ++ s) -> tag_closed s.
Proof. induction a as [|c a IH]; simpl; [auto|]. intros [_ H]. auto. Qed.

Lemma tag_closed_init s b : tag_closed (s ++ b) -> tag_closed s.
Proof.
  induction s as [|c s IH]; simpl; [auto|]. intros [Hc H]. split; [|auto].
  intro E. specialize (Hc E). destruct s; [exact I|exact Hc].
Qed.

Lemma tag_closed_trim s : tag_closed s -> tag_closed (trim s).
Proof.
  intro H. destruct (trim_parts s) as (a & b & E & _ & _). rewrite E in H.
  apply tag_closed_tail in H. apply tag_closed_init in H. exact H.
Qed.

(** No tag, comment or element opens in what cleanContent returns. *)
Lemma tag_closed_cleanContent content : tag_closed (cleanContent content).
Proof.
  rewrite cleanContent_eq. destruct content; [exact I|].
  apply tag_closed_trim. apply tag_closed_squeeze. rewrite remove_html_tag.
  apply tag_closed_replace_by.
Qed.

(** In such a text, a pattern that asks for "<" and then for something
    other than ">" matches nowhere. *)
Lemma matcher_lt_none fl s rest :
  tag_closed s ->
  first_ok fl rest None = false ->
  first_ok fl rest (Some 62%N) = false ->
  forall k x, matcher fl s (RSeq (RChar 60) rest) k x = None.
Proof.
  intros Hs Hnone Hgt k x. rewrite matcher_seq, matcher_char, step_if_eq.
  destruct (skipn (pos x) s) as [|c t] eqn:Es; [reflexivity|].
  cbn [hd_error]. destruct (char_matches fl 60 c) eqn:Ec; [|reflexivity].
  assert (c = 60%N) as ->.
  { unfold char_matches, canonicalize in Ec. apply N.eqb_eq in Ec.
    destruct (ignoreCase fl); [|auto]. unfold ascii_upper in Ec.
    change (is_lower 60) with false in Ec. cbv iota in Ec.
    destruct (is_lower c) eqn:El; [|auto].
    unfold is_lower, between in El. apply andb_true_iff in El. destruct El as (El & _).
    apply N.leb_le in El. lia. }
  destruct (matcher fl s rest k _) as [z|] eqn:E; [|reflexivity].
  apply matcher_first in E. cbn [pos] in E. rewrite char_at_skipn in E.
  destruct (skipn_cons_nth _ _ _ _ Es) as (_ & Ht & _). rewrite Ht in E.
  assert (tag_closed (60%N :: t)) as Hc.
  { rewrite <- Es. apply (tag_closed_tail (firstn (pos x) s)). rewrite firstn_skipn. exact Hs. }
  cbn [tag_closed] in Hc. destruct Hc as (Hc & _). specialize (Hc eq_refl).
  destruct t as [|d t']; cbn [hd_error] in E; [congruence|]. subst d. congruence.
Qed.

Lemma remove_tag_closed fl s rest :
  tag_closed s ->
  first_ok fl rest None = false ->
  first_ok fl rest (Some 62%N) = false ->
  remove fl (RSeq (RChar 60) rest) s = s.
Proof.
  intros Hs Hnone Hgt. unfold remove. apply no_match_anywhere.
  intro j. unfold match_at. rewrite matcher_lt_none by assumption. reflexivity.
Qed.

(** X10.  What cleanContent returns has no white space at either end and
    no white space but single spaces U+0020 between words, and no markup
    is left to open in it: every '<' is followed at once by '>' or is
    the last character. *)
Theorem cleanContent_normalized content :
  normalized (cleanContent content) /\ tag_closed (cleanContent content).
Proof.
  split; [exact (cleanContent_normal content)|exact (tag_closed_cleanContent content)].
Qed.

(** X11.  cleanContent is idempotent: cleaning what it returned changes
    nothing. *)
Theorem cleanContent_idempotent content :
  cleanContent (cleanContent content) = cleanContent content.
Proof.
  pose proof (cleanContent_normal content) as Hn.
  pose proof (tag_closed_cleanContent content) as Hc.
  set (t := cleanContent content) in *.
  rewrite (cleanContent_eq t). destruct t as [|c t'] eqn:Et; [reflexivity|]. rewrite <- Et in *.
  assert (squeeze t = t) as Hsq.
  { destruct Hn as (Hs & _). apply (proj1 (squeeze_single_spaced t Hs)). }
  rewrite Hsq.
  change (element "script")
    with (RSeq (RChar 60) (RSeq (lit "script")
            (Regex.seq [RWordBoundary; star (none_of "<");
                        star (Regex.seq [RLookahead true (Regex.seq [lit "</"; lit "script"; lit ">"]);
                                         lit "<"; star (none_of "<")]);
                        lit "</"; lit "script"; lit ">"]))).
  rewrite (remove_tag_closed flag_i t) by (auto; reflexivity).
  change (element "style")
    with (RSeq (RChar 60) (RSeq (lit "style")
            (Regex.seq [RWordBoundary; star (none_of "<");
                        star (Regex.seq [RLookahead true (Regex.seq [lit "</"; lit "style"; lit ">"]);
                                         lit "<"; star (none_of "<")]);
                        lit "</"; lit "style"; lit ">"]))).
  rewrite (remove_tag_closed flag_i t) by (auto; reflexivity).
  assert (remove no_flags html_comment t = t) as ->.
  { unfold remove. apply no_match_anywhere. intro j. unfold match_at.
    change html_comment
      with (RSeq (RSeq (RChar 60) (lit "!--")) (RSeq (lazy_star anything) (lit "-->"))).
    rewrite matcher_seq.
    rewrite (matcher_lt_none no_flags t (lit "!--")) by (auto; reflexivity). reflexivity. }
  rewrite remove_html_tag, (replace_by_tag_closed t Hc), Hsq.
  destruct Hn as (_ & Ht). exact Ht.
Qed.

Example cleanContent_examples :
  cleanContent (js "<p>Hello,   <b>world</b>!</p>
<script>alert(1)</script> <!-- note --> done") = js "Hello, world! done"
  /\ cleanContent (js "a < b and c > d") = js "a d"
  /\ cleanContent (js "x <> y") = js "x <> y".
Proof. repeat split; vm_compute; reflexivity. Qed.

End CleanContentIdempotent.

Section TruncationFacts.

Import Truncation.
Import Preprocessor.

Example truncation_examples :
  Truncation.truncateContent six_paragraphs 20
  = js "one one one one

two two two two

[Content truncated for length...]

five five five five

six six six six"
  /\ Truncation.truncateContent (js long_line) 10
     = js long_line ++ js "

[Some content summarized for length...]

[Some content omitted for length...]

".
Proof. split; vm_compute; reflexivity. Qed.

Open Scope Q_scope.

(** The paragraphs that fit are fewer than the paragraphs there are. *)
Lemma floor_quotient_lt (m e n : Z) :
  (m < e)%Z -> (0 < e)%Z -> (0 < n)%Z ->
  (Qfloor (inject_Z m / (inject_Z e / inject_Z n)) < n)%Z.
Proof.
  intros Hm He Hn. rewrite Zlt_Qlt.
  eapply Qle_lt_trans; [apply Qfloor_le|].
  assert (0 < inject_Z e) as He'
    by (change (inject_Z 0 < inject_Z e); rewrite <- Zlt_Qlt; exact He).
  assert (0 < inject_Z n) as Hn'
    by (change (inject_Z 0 < inject_Z n); rewrite <- Zlt_Qlt; exact Hn).
  assert (inject_Z m / (inject_Z e / inject_Z n) == inject_Z m * inject_Z n / inject_Z e) as ->.
  { field. split; intro E; rewrite E in *;
      first [apply (Qlt_irrefl 0 Hn')|apply (Qlt_irrefl 0 He')]. }
  apply Qlt_shift_div_r; [exact He'|].
  rewrite <- !inject_Z_mult, <- Zlt_Qlt. nia.
Qed.

Lemma half_above (n p : Z) : (2 * p < n)%Z -> Qle_bool (inject_Z n / 2) (inject_Z p) = false.
Proof.
  intro H. destruct (Qle_bool _ _) eqn:E; [|reflexivity].
  apply Qle_bool_iff in E. exfalso.
  assert (inject_Z n <= inject_Z (2 * p)) as E'.
  { rewrite inject_Z_mult. apply (Qmult_le_r _ _ (/ 2)); [reflexivity|].
    setoid_replace (inject_Z 2 * inject_Z p * / 2) with (inject_Z p) by field.
    exact E. }
  rewrite <- Zle_Qle in E'. lia.
Qed.

Close Scope Q_scope.

Lemma no_match_without (p : N -> bool) fl s r :
  (forall c, p c = false -> first_ok fl r (Some c) = false) ->
  first_ok fl r None = false ->
  Forall (fun c => p c = false) s ->
  forall j, match_at fl s r j = None.
Proof.
  intros Hsome Hnone Hs j. apply match_at_first. unfold char_at.
  destruct (nth_error s j) as [c|] eqn:E; [|exact Hnone].
  apply Hsome. rewrite Forall_forall in Hs. apply Hs. eapply nth_error_In. exact E.
Qed.

Lemma first_ok_LF c : (c =? LF)%N = false -> char_matches no_flags LF c = false.
Proof. intro H. rewrite char_matches_plain, N.eqb_sym. exact H. Qed.

Lemma estimate_positive content : content <> [] -> (0 < estimateTokenCount content)%Z.
Proof.
  intro Hne. destruct content as [|c content]; [contradiction|].
  unfold estimateTokenCount. cbv zeta.
  assert (0 < inject_Z (Z.of_nat (length (c :: content))) * TOKENS_PER_CHAR)%Q as Hq.
  { apply Qmult_lt_0_compat; [|reflexivity].
    change (inject_Z 0 < inject_Z (Z.of_nat (length (c :: content))))%Q.
    rewrite <- Zlt_Qlt. cbn [length]. lia. }
  pose proof (Qle_ceiling (inject_Z (Z.of_nat (length (c :: content))) * TOKENS_PER_CHAR)) as Hc.
  pose proof (Qlt_le_trans _ _ _ Hq Hc) as H0.
  change (inject_Z 0 < inject_Z (Qceiling
            (inject_Z (Z.of_nat (length (c :: content))) * TOKENS_PER_CHAR)))%Q in H0.
  rewrite <- Zlt_Qlt in H0. exact H0.
Qed.

Lemma one_paragraph_truncation content maxTokens :
  Forall (fun c => (c =? LF)%N = false) content ->
  trim content <> [] ->
  (maxTokens < estimateTokenCount content)%Z ->
  truncateOverLimit content maxTokens = Returns (content ++ notes_tail)
  /\ Truncation.truncateContent content maxTokens = content ++ notes_tail.
Proof.
  intros Hlf Hblank Hover.
  assert (content <> []) as Hne by (intro E; subst content; apply Hblank; reflexivity).
  pose proof (estimate_positive content Hne) as Hpos.
  assert (truncateOverLimit content maxTokens = Returns (content ++ notes_tail)) as Ht.
  { unfold truncateOverLimit.
    destruct (no_match_anywhere no_flags paragraph_break content (fun _ => []))
      as (_ & _ & _ & _ & ->).
    { apply (no_match_without (fun c => (c =? LF)%N)); auto. intros c Hc.
      apply first_ok_LF. exact Hc. }
    cbn [length]. cbv zeta.
    rewrite half_above.
    2:{ pose proof (floor_quotient_lt maxTokens (estimateTokenCount content) 1 Hover Hpos
                      ltac:(lia)) as Hf.
        change (Z.of_nat 1) with 1%Z. lia. }
    cbn [negb]. unfold extractImportantContent, splitIntoSections.
    destruct (no_match_anywhere no_flags sectionDelimiters content (fun _ => []))
      as (_ & _ & _ & -> & _).
    { apply (no_match_without (fun c => (c =? LF)%N)); auto. intros c Hc.
      unfold sectionDelimiters. cbn [alt first_ok Regex.seq].
      rewrite (first_ok_LF c Hc). reflexivity. }
    cbn [bind sections_between].
    assert ((0 <? length content)%nat = true) as ->.
    { destruct content; [contradiction|reflexivity]. }
    rewrite slice_all. cbn [filter].
    assert ((0 <? length (trim content))%nat = true) as ->.
    { destruct (trim content); [contradiction|reflexivity]. }
    cbn [hd tl last removelast]. unfold rankSectionsByImportance, sort_by_score.
    cbn [map fold_left select_sections app join]. reflexivity. }
  split; [exact Ht|].
  unfold Truncation.truncateContent, Preprocessor.truncateContent.
  destruct content as [|c content]; [contradiction|].
  assert ((estimateTokenCount (c :: content) <=? maxTokens)%Z = false) as ->
    by (apply Z.leb_gt; exact Hover).
  unfold truncated. rewrite Ht. reflexivity.
Qed.

(** X12.  For content that holds no line feed, is not blank and is
    estimated above maxTokens, truncateContent cuts nothing: it returns
    the whole content followed by the notes '[Some content summarized
    for length...]' and '[Some content omitted for length...]', each
    after an empty line, and one more empty line. *)
Theorem one_paragraph_kept_whole content maxTokens :
  Forall (fun c => (c =? LF)%N = false) content ->
  trim content <> [] ->
  (maxTokens < estimateTokenCount content)%Z ->
  truncateOverLimit content maxTokens = Returns (content ++ notes_tail)
  /\ Truncation.truncateContent content maxTokens = content ++ notes_tail.
Proof. exact (one_paragraph_truncation content maxTokens). Qed.

(** Four sentences on one line, under a budget of ten tokens. *)
Lemma one_paragraph_kept_whole_witness :
  (10 < estimateTokenCount (js long_line))%Z
  /\ Truncation.truncateContent (js long_line) 10 = js long_line ++ notes_tail.
Proof.
  assert (10 < estimateTokenCount (js long_line))%Z as Hover by (vm_compute; reflexivity).
  split; [exact Hover|].
  refine (proj2 (one_paragraph_kept_whole (js long_line) 10 _ _ Hover)).
  - vm_compute. repeat constructor.
  - vm_compute. discriminate.
Defined.

Lemma single_spaced_no_LF s : single_spaced s -> Forall (fun c => (c =? LF)%N = false) s.
Proof.
  induction s as [|c s IH]; intro H; [constructor|].
  cbn [single_spaced] in H. destruct H as (Hc & Hs). constructor; [|auto].
  destruct (c =? LF)%N eqn:E; [|reflexivity].
  apply N.eqb_eq in E. subst c. destruct (Hc eq_refl) as (H32 & _). discriminate.
Qed.

(** X13.  When the cleaned content is not empty and is estimated above
    the budget that the key-terms section leaves, preprocessContent
    returns that section, then all of the cleaned content, then the two
    notes of extractImportantContent: the cleaned content holds no line
    feed, so it is one paragraph and is never shortened. *)
Theorem preprocess_over_budget content opts section :
  section_written content opts section ->
  cleanContent content <> [] ->
  (QuizParser.default MAX_CONTENT_TOKENS (maxTokens opts) - estimateTokenCount section
   < estimateTokenCount (cleanContent content))%Z ->
  Truncation.preprocessContent content opts
  = Returns (section ++ cleanContent content ++ notes_tail).
Proof.
  intros Hs Hne Hover.
  destruct (cleanContent_normal content) as (Hsp & Htrim).
  destruct (one_paragraph_truncation (cleanContent content) _
              (single_spaced_no_LF _ Hsp) ltac:(rewrite Htrim; exact Hne) Hover)
    as (_ & Ht).
  unfold Truncation.truncateContent in Ht.
  unfold Truncation.preprocessContent, Preprocessor.preprocessContent.
  unfold section_written in Hs.
  destruct (QuizParser.default true (extractKeyTerms_ opts)).
  - destruct Hs as (terms & -> & ->). cbn [bind].
    apply Z.ltb_lt in Hover. rewrite Hover, Ht. reflexivity.
  - subst section. cbn [bind]. apply Z.ltb_lt in Hover. rewrite Hover, Ht. reflexivity.
Qed.

(** A sentence under a budget of five tokens. *)
Lemma preprocess_over_budget_witness :
  exists section,
    section_written (js "Energy   refers to <b>work</b>.") tight_budget section
    /\ Truncation.preprocessContent (js "Energy   refers to <b>work</b>.") tight_budget
       = Returns (js "KEY TERMS:
- Energy: work

Energy refers to work.

[Some content summarized for length...]

[Some content omitted for length...]

").
Proof.
  eexists. split.
  - unfold section_written. cbn [tight_budget extractKeyTerms_ QuizParser.default].
    eexists. split; [vm_compute; reflexivity|reflexivity].
  - rewrite (preprocess_over_budget (js "Energy   refers to <b>work</b>.") tight_budget
               (key_terms_section [(js "Energy", JStr (js "work"))])).
    + vm_compute. reflexivity.
    + unfold section_written. cbn [tight_budget extractKeyTerms_ QuizParser.default].
      eexists. split; [vm_compute; reflexivity|reflexivity].
    + vm_compute. discriminate.
    + vm_compute. reflexivity.
Defined.

Lemma starts_with_app p b : starts_with p (p ++ b) = true.
Proof. induction p as [|c p IH]; simpl; [reflexivity|]. rewrite N.eqb_refl. exact IH. Qed.

Lemma includes_here s m : starts_with m s = true -> includes s m = true.
Proof. intro H. destruct s; simpl; rewrite H; reflexivity. Qed.

Lemma includes_app_r a s m : includes s m = true -> includes (a ++ s) m = true.
Proof.
  intro H. induction a as [|c a IH]; [exact H|].
  cbn [app includes]. rewrite IH. apply orb_true_r.
Qed.

Lemma includes_middle a m b : includes (a ++ m ++ b) m = true.
Proof. apply includes_app_r, includes_here, starts_with_app. Qed.

Lemma join_In sep parts m : In m parts -> exists a b, join sep parts = a ++ m ++ b.
Proof.
  induction parts as [|p ps IH]; intro H; [destruct H|].
  destruct H as [->|H].
  - destruct ps as [|q ps].
    + exists [], []. simpl. rewrite app_nil_r. reflexivity.
    + exists [], (sep ++ join sep (q :: ps)). reflexivity.
  - destruct ps as [|q ps]; [destruct H|].
    destruct (IH H) as (a & b & E). exists (p ++ sep ++ a), b.
    change (join sep (p :: q :: ps)) with (p ++ sep ++ join sep (q :: ps)).
    rewrite E, <- !app_assoc. reflexivity.
Qed.

Lemma includes_join sep parts m : In m parts -> includes (join sep parts) m = true.
Proof. intro H. destruct (join_In sep parts m H) as (a & b & ->). apply includes_middle. Qed.

Lemma split_scan_nonempty fl s r n : forall q last p,
  split_scan fl s r n q last p <> [].
Proof.
  induction n as [|n IH]; intros q last p; cbn [split_scan]; [discriminate|].
  destruct (q <? last); [apply IH|].
  destruct (match_at fl s r q); [|apply IH].
  destruct (_ =? p); [apply IH|discriminate].
Qed.

(** X14.  For content that is not empty and is estimated above
    maxTokens, truncateContent returns, and what it returns contains
    '[Content truncated for length...]' or '[Some content omitted for
    length...]'. *)
Theorem truncation_is_marked content maxTokens :
  content <> [] ->
  (maxTokens < estimateTokenCount content)%Z ->
  exists text,
    truncateOverLimit content maxTokens = Returns text
    /\ Truncation.truncateContent content maxTokens = text
    /\ (includes text truncated_note = true \/ includes text omitted_note = true).
Proof.
  intros Hne Hover.
  assert (exists text, truncateOverLimit content maxTokens = Returns text
                       /\ (includes text truncated_note = true
                           \/ includes text omitted_note = true)) as (text & Ht & Hnote).
  { unfold truncateOverLimit. cbv zeta.
    destruct (negb _).
    - unfold extractImportantContent, splitIntoSections.
      destruct (exec_all_total no_flags sectionDelimiters content) as (ms & -> & _);
        [vm_compute; lia|].
      cbn [bind]. eexists. split; [reflexivity|]. right.
      apply includes_join. apply in_or_app. right. apply in_or_app. right. left. reflexivity.
    - eexists. split; [reflexivity|]. left. apply includes_join.
      assert ((Qfloor (inject_Z maxTokens
                       / (inject_Z (estimateTokenCount content)
                          / inject_Z (Z.of_nat (length (split no_flags paragraph_break content)))))
               <? Z.of_nat (length (split no_flags paragraph_break content)))%Z = true) as ->.
      { apply Z.ltb_lt.
        apply floor_quotient_lt; [exact Hover|apply estimate_positive; exact Hne|].
        destruct content as [|c content]; [contradiction|]. unfold split.
        pose proof (split_scan_nonempty no_flags (c :: content) paragraph_break
                      (length (c :: content)) 0 0 0) as Hn.
        destruct (split_scan _ _ _ _ _ _ _); [contradiction|]. cbn [length]. lia. }
      apply in_or_app. right. apply in_or_app. left. left. reflexivity. }
  exists text. split; [exact Ht|]. split; [|exact Hnote].
  unfold Truncation.truncateContent, Preprocessor.truncateContent.
  destruct content as [|c content]; [contradiction|].
  assert ((estimateTokenCount (c :: content) <=? maxTokens)%Z = false) as ->
    by (apply Z.leb_gt; exact Hover).
  unfold truncated. rewrite Ht. reflexivity.
Qed.

(** Six paragraphs under a budget of twenty tokens. *)
Lemma truncation_is_marked_witness :
  six_paragraphs <> []
  /\ (20 < estimateTokenCount six_paragraphs)%Z
  /\ exists text,
       Truncation.truncateContent six_paragraphs 20 = text
       /\ (includes text truncated_note = true \/ includes text omitted_note = true).
Proof.
  assert (six_paragraphs <> []) as Hne by discriminate.
  assert (20 < estimateTokenCount six_paragraphs)%Z as Hover by reflexivity.
  split; [exact Hne|]. split; [exact Hover|].
  destruct (truncation_is_marked six_paragraphs 20 Hne Hover) as (text & _ & E & H).
  exists text. split; assumption.
Defined.

End TruncationFacts.

Section FollowUpFacts.

Import FollowUp.

Lemma add_question_has_text response m qs :
  Forall has_text qs -> Forall has_text (add_question response m qs).
Proof.
  intro H. unfold add_question.
  destruct (capture response m 1) as [t|]; cbn [option_map]; [|exact H].
  destruct (trim t) as [|c q] eqn:E; [exact H|].
  apply Forall_app. split; [exact H|]. constructor; [|constructor].
  unfold has_text. cbn [question purpose]. split; [discriminate|]. split.
  - rewrite <- E. apply trim_idem.
  - unfold or_string. destruct (match capture response m 2 with
                                | Some p => trim p
                                | None => []
                                end); discriminate.
Qed.

Lemma fold_add_question_has_text response ms : forall qs,
  Forall has_text qs ->
  Forall has_text (fold_left (fun qs m => add_question response m qs) ms qs).
Proof.
  induction ms as [|m ms IH]; intros qs H; [exact H|].
  cbn [fold_left]. apply IH. apply add_question_has_text. exact H.
Qed.

Lemma extractStructuredFollowUps_returns response :
  exists r, extractStructuredFollowUps response = Returns r
            /\ match r with
               | Some r' => followUpQuestions r' <> [] /\ Forall has_text (followUpQuestions r')
               | None => True
               end.
Proof.
  unfold extractStructuredFollowUps.
  destruct (exec_all_total flag_i questionRegex response) as (ms & -> & _);
    [vm_compute; lia|].
  cbn [bind].
  assert (exists e, match exec flag_i explanation_section response with
                    | Some m => t <- group response m 1 ;; Returns (trim t)
                    | None => Returns []
                    end = Returns e) as (e & ->).
  { destruct (exec flag_i explanation_section response) as [m|] eqn:E; [|eauto].
    destruct (exec_group _ _ _ _ 1 E) as (t & ->); [vm_compute; auto|]. cbn [bind]. eauto. }
  cbn [bind].
  pose proof (fold_add_question_has_text response ms [] (Forall_nil _)) as Hall.
  destruct (fold_left _ ms []) as [|q qs] eqn:E.
  - eexists. split; [reflexivity|exact I].
  - eexists. split; [reflexivity|]. cbn [followUpQuestions]. split; [discriminate|exact Hall].
Qed.

(** X15.  For a response without a fenced JSON object,
    parseFollowUpResponse returns a result with at least one question;
    each question is not empty, has no white space at either end and has
    a purpose that is not empty, and raw is the response. *)
Theorem follow_up_never_empty response :
  fenced_text response = None ->
  exists r,
    parseFollowUpResponse response = Returns r
    /\ followUpQuestions r <> []
    /\ Forall has_text (followUpQuestions r)
    /\ raw r = Some (JStr response).
Proof.
  unfold fenced_text, parseFollowUpResponse, parseFollowUpBody. intro H.
  destruct (extractStructuredFollowUps_returns response) as (sr & Hs & Hsr).
  assert (exists r, (parsedResult <- extractStructuredFollowUps response ;;
                     match parsedResult with
                     | Some r => Returns (with_raw r response)
                     | None => Returns (fallback response)
                     end) = Returns r
                    /\ followUpQuestions r <> []
                    /\ Forall has_text (followUpQuestions r)
                    /\ raw r = Some (JStr response)) as (r & Hr & Hq).
  { rewrite Hs. cbn [bind]. destruct sr as [r'|].
    - eexists. split; [reflexivity|]. cbn [with_raw followUpQuestions raw].
      destruct Hsr. auto.
    - eexists. split; [reflexivity|]. cbn [fallback followUpQuestions raw].
      split; [discriminate|]. split; [|reflexivity].
      constructor; [|constructor]. unfold has_text. cbn [question purpose].
      split; [discriminate|]. split; [vm_compute; reflexivity|discriminate]. }
  exists r. split; [|exact Hq].
  destruct (exec _ _ response) as [m|].
  - destruct (capture response m 1) as [[|c t]|]; try discriminate; rewrite Hr; reflexivity.
  - rewrite Hr. reflexivity.
Qed.

(** Two numbered questions under a heading: the heading gives a third
    one. *)
Lemma follow_up_never_empty_witness :
  fenced_text numbered_follow_ups = None
  /\ exists r,
       parseFollowUpResponse numbered_follow_ups = Returns r
       /\ map question (followUpQuestions r)
          = [js "Up Questions"; js "Where does photosynthesis take place?";
             js "What gas is released?"]
       /\ Forall has_text (followUpQuestions r).
Proof.
  assert (fenced_text numbered_follow_ups = None) as Hf by (vm_compute; reflexivity).
  split; [exact Hf|].
  destruct (follow_up_never_empty numbered_follow_ups Hf) as (r & Hr & _ & Hall & _).
  exists r. split; [exact Hr|]. split; [|exact Hall].
  assert (match parseFollowUpResponse numbered_follow_ups with
          | Returns r' => map question (followUpQuestions r')
          | _ => []
          end = [js "Up Questions"; js "Where does photosynthesis take place?";
                 js "What gas is released?"]) as Hm by (vm_compute; reflexivity).
  rewrite Hr in Hm. exact Hm.
Defined.

Lemma parseFollowUpResponse_fenced response text :
  fenced_text response = Some text ->
  parseFollowUpResponse response
  = try_catch (v <- Json.parse (QuizParser.cleanJson text) ;;
               v' <- Evaluation.set_raw v response ;;
               validateFollowUpResult v')
              (fun e => Throws (WrappedError (js "Failed to parse follow-up response: ") e)).
Proof.
  unfold fenced_text, parseFollowUpResponse, parseFollowUpBody.
  destruct (exec _ _ response) as [m|]; [|discriminate].
  destruct (capture response m 1) as [[|c t]|]; try discriminate.
  intro H. injection H as <-. reflexivity.
Qed.

Lemma mapM_null qs :
  In JNull qs -> mapM validateFollowUpQuestion qs = Throws TypeError.
Proof.
  induction qs as [|q qs IH]; intro H; [destruct H|].
  cbn [mapM]. destruct q; cbn [validateFollowUpQuestion bind]; try reflexivity;
    (destruct H as [H|H]; [discriminate|]); rewrite (IH H); reflexivity.
Qed.

(** X16.  For a response with a fenced JSON object, that object alone
    decides: when JSON.parse rejects it, or when followUpQuestions is an
    array that holds null, parseFollowUpResponse throws Error('Failed to
    parse follow-up response: ' + message); when the object has no array
    followUpQuestions, the result has no question at all and raw is the
    response. *)
Theorem follow_up_fenced response text :
  fenced_text response = Some text ->
  (forall e, Json.parse (QuizParser.cleanJson text) = Throws e ->
             parseFollowUpResponse response
             = Throws (WrappedError (js "Failed to parse follow-up response: ") e))
  /\ (forall o qs,
         Json.parse (QuizParser.cleanJson text) = Returns (JObj o) ->
         lookup o (js "followUpQuestions") = Some (JArr qs) ->
         In JNull qs ->
         parseFollowUpResponse response
         = Throws (WrappedError (js "Failed to parse follow-up response: ") TypeError))
  /\ (forall o,
         Json.parse (QuizParser.cleanJson text) = Returns (JObj o) ->
         not_an_array (lookup o (js "followUpQuestions")) ->
         exists r, parseFollowUpResponse response = Returns r
                   /\ followUpQuestions r = []
                   /\ raw r = Some (JStr response)).
Proof.
  intro Hf. rewrite (parseFollowUpResponse_fenced response text Hf).
  split; [|split].
  - intros e ->. reflexivity.
  - intros o qs -> Hq Hnull. cbn [bind Evaluation.set_raw]. unfold validateFollowUpResult.
    cbn [get]. rewrite (proj2 (lookup_assign_raw o response)) by reflexivity.
    rewrite Hq, (mapM_null qs Hnull). reflexivity.
  - intros o -> Hq. cbn [bind Evaluation.set_raw]. unfold validateFollowUpResult.
    cbn [get]. rewrite (proj2 (lookup_assign_raw o response)) by reflexivity.
    rewrite (proj1 (lookup_assign_raw o response)).
    destruct (lookup o (js "followUpQuestions")) as [[ | | | |qs| ]|]; try contradiction;
      cbn [bind try_catch]; eexists; (split; [reflexivity|split; reflexivity]).
Qed.

(** A fenced object whose only question is null. *)
Lemma follow_up_fenced_witness :
  exists text,
    fenced_text null_follow_up = Some text
    /\ parseFollowUpResponse null_follow_up
       = Throws (WrappedError (js "Failed to parse follow-up response: ") TypeError).
Proof.
  eexists. split; [vm_compute; reflexivity|].
  eapply (proj1 (proj2 (follow_up_fenced null_follow_up _ ltac:(vm_compute; reflexivity)))).
  - vm_compute. reflexivity.
  - reflexivity.
  - left. reflexivity.
Defined.

End FollowUpFacts.

(** ** Patterns that need a digit *)

Section DigitFacts.

Variable fl : flags.
Variable input : jsstring.

Lemma digit_between_wider a b a' b' :
  digit_between input a b -> a' <= a -> b <= b' -> digit_between input a' b'.
Proof.
  intros (i & c & Hi & Hc & Hd) Ha Hb. exists i, c. repeat split; auto; lia.
Qed.

Lemma class_digit c : class_matches fl false [CDigit] c = true -> is_digit c = true.
Proof.
  unfold class_matches, in_class, existsb, item_matches, ascii_upper, ascii_lower,
    is_digit, is_lower, is_upper, between.
  destruct (ignoreCase fl); cbn [xorb]; intro H.
  - destruct (97 <=? c)%N eqn:E1, (c <=? 122)%N eqn:E2, (65 <=? c)%N eqn:E3,
             (c <=? 90)%N eqn:E4; cbn [andb] in H;
      repeat (apply orb_true_iff in H; destruct H as [H|H]);
      try (rewrite orb_false_r in H); try exact H;
      rewrite ?N.leb_le, ?N.leb_gt, ?andb_true_iff, ?N.leb_le in *; lia.
  - rewrite orb_false_r in H. exact H.
Qed.

Lemma matcher_digit (r : regex) :
  needs_digit r = true ->
  forall k x z, matcher fl input r k x = Some z ->
                exists y, k y = Some z /\ digit_between input (pos x) (pos y).
Proof.
  induction r as [ |c| |neg items|r1 IH1 r2 IH2|r1 IH1 r2 IH2|min max greedy r IH
                 |g r IH|neg r IH| | | ]; intros Hn k x z H; try discriminate.
  - destruct neg; [discriminate|]. destruct items as [|[ | | | | ] [|it items]]; try discriminate.
    cbn [matcher] in H. unfold step_if, char_at in H.
    destruct (nth_error input (pos x)) as [c|] eqn:E; [|discriminate].
    destruct (class_matches fl false [CDigit] c) eqn:Ec; [|discriminate].
    eexists. split; [exact H|]. exists (pos x), c. cbn [pos].
    repeat split; auto. apply class_digit. exact Ec.
  - cbn [needs_digit] in Hn. cbn [matcher] in H. apply orb_true_iff in Hn.
    destruct Hn as [Hn|Hn].
    + apply (IH1 Hn) in H. destruct H as (y1 & H & Hd).
      apply matcher_advances in H. destruct H as (y2 & H & Hp & _).
      exists y2. split; [exact H|]. eapply digit_between_wider; [exact Hd| |]; lia.
    + apply matcher_advances in H. destruct H as (y1 & H & Hp & _).
      apply (IH2 Hn) in H. destruct H as (y2 & H & Hd).
      exists y2. split; [exact H|]. eapply digit_between_wider; [exact Hd| |]; lia.
  - cbn [needs_digit] in Hn. cbn [matcher] in H. apply andb_true_iff in Hn.
    destruct Hn as [Hn1 Hn2]. apply or_else_inv in H. destruct H as [H|H]; auto.
  - destruct min as [|min]; [discriminate|]. cbn [needs_digit] in Hn.
    assert (max <> Some 0 /\ needs_digit r = true) as [Hmax Hr].
    { destruct max as [[|m]|]; try discriminate; split; auto; discriminate. }
    change (repeat_matcher (matcher fl input r) (groups r) greedy
                           (S (S min + length input)) (S min) max k x = Some z) in H.
    cbn [repeat_matcher] in H.
    assert (matcher fl input r
              (fun y => repeat_matcher (matcher fl input r) (groups r) greedy
                                       (S min + length input) min (option_map Nat.pred max) k y)
              (clear_caps (groups r) x) = Some z) as H'.
    { destruct max as [[|m]|]; [exfalso; apply Hmax; reflexivity|exact H|exact H]. }
    apply (IH Hr) in H'. destruct H' as (y & H' & Hd).
    rewrite pos_clear_caps in Hd.
    eapply repeat_matcher_advances with (r := r) in H'.
    + destruct H' as (y' & Hk & Hp & _). exists y'. split; [exact Hk|].
      eapply digit_between_wider; [exact Hd| |]; lia.
    + intros k' x' z' Hm. apply matcher_advances in Hm. exact Hm.
  - cbn [needs_digit] in Hn. cbn [matcher] in H. apply (IH Hn) in H.
    destruct H as (y & H & Hd). eexists. split; [exact H|]. exact Hd.
Qed.

Lemma match_at_digit r i :
  needs_digit r = true -> no_digit input -> match_at fl input r i = None.
Proof.
  intros Hn Hnd. unfold match_at.
  destruct (matcher fl input r Some _) as [y|] eqn:H; [|reflexivity].
  apply (matcher_digit r Hn) in H. destruct H as (y' & _ & j & c & _ & Hc & Hd).
  apply nth_error_In in Hc. unfold no_digit in Hnd. rewrite Forall_forall in Hnd.
  rewrite (Hnd c Hc) in Hd. discriminate.
Qed.

Lemma match_scan_none r :
  (forall j, match_at fl input r j = None) ->
  forall n i last, match_scan fl input r n i last = [].
Proof.
  intros H. induction n as [|n IH]; intros i last; cbn [match_scan]; [reflexivity|].
  destruct (i <? last)%nat; [apply IH|]. rewrite H. apply IH.
Qed.

End DigitFacts.

Lemma exec_digit fl r s : needs_digit r = true -> no_digit s -> exec fl r s = None.
Proof.
  intros Hn Hs. apply (no_match_anywhere fl r s (fun _ => [])).
  intro j. apply match_at_digit; assumption.
Qed.

Lemma match_all_digit fl r s : needs_digit r = true -> no_digit s -> match_all fl r s = [].
Proof.
  intros Hn Hs. unfold match_all. apply match_scan_none.
  intro j. apply match_at_digit; assumption.
Qed.

Lemma exec_capture fl r s m n :
  exec fl r s = Some m -> In n (sure_groups r) -> exists t, capture s m n = Some t.
Proof.
  intros H Hn. destruct (exec_group fl r s m n H Hn) as (t & Ht).
  unfold group in Ht. destruct (capture s m n) as [t'|]; [eauto|discriminate].
Qed.

(** ** classifyApiError *)

Section ErrorFacts.

Import Errors.

Ltac coherent :=
  cbn [orb N.eqb Pos.eqb];
  cbn [retryable type statusCode message transient status_of text_of In];
  repeat split; try reflexivity; auto 6; try (eexists; reflexivity).

(** X17.  What classifyApiError builds for an error that is no
    ClaudeApiError is coherent: retryable is true exactly when the type
    is connection_error, timeout_error, rate_limit_error or api_error;
    the status code is 401 for authentication_error, 400 for
    invalid_request_error, 429 for rate_limit_error, one of 500, 502,
    503, 504 for api_error and undefined for the other types; the
    message ends with the text of the error. A ClaudeApiError is
    returned as it is. *)
Theorem classification_coherent (error : thrown) :
  match error with
  | Api e => classifyApiError error = e
  | _ =>
      let c := classifyApiError error in
      retryable c = transient (type c)
      /\ status_of (type c) (statusCode c)
      /\ exists label, message c = label ++ text_of error
  end.
Proof.
  destruct error as [e|m|t]; [reflexivity| |].
  - cbv zeta. unfold classifyApiError.
    destruct (includes m (js "ECONNREFUSED") || includes m (js "ETIMEDOUT"));
      [coherent|].
    destruct (includes m (js "timeout") || includes m (js "TIMEOUT"));
      [coherent|].
    destruct (exec no_flags status m) as [sm|]; [|coherent].
    destruct (parseInt (capture m sm 1)) as [code|]; [|coherent].
    destruct (N.eqb_spec code 401) as [->|_]; [coherent|].
    destruct (N.eqb_spec code 400) as [->|_]; [coherent|].
    destruct (N.eqb_spec code 429) as [->|_]; [coherent|].
    destruct (N.eqb_spec code 500) as [->|_]; [coherent|cbn [orb]].
    destruct (N.eqb_spec code 502) as [->|_]; [coherent|cbn [orb]].
    destruct (N.eqb_spec code 503) as [->|_]; [coherent|cbn [orb]].
    destruct (N.eqb_spec code 504) as [->|_]; [coherent|].
    coherent.
  - cbv zeta. unfold classifyApiError. coherent.
Qed.

(** ** parseEvaluationScore *)

Lemma score_of_defined fl r s m :
  exec fl r s = Some m -> In 1 (sure_groups r) ->
  exists n, score_of s m = Some n /\ (0 <= mantissa n)%Z.
Proof.
  intros H Hin. destruct (exec_capture fl r s m 1 H Hin) as (t & Ht).
  unfold score_of. rewrite Ht. cbn [option_map]. eexists. split; [reflexivity|].
  apply mantissa_parseFloat.
Qed.

(** X18.  parseEvaluationScore always returns a number, never a negative
    one, and it returns 5 for a text that holds no digit. *)
Theorem score_defaults (responseText : jsstring) :
  exists n, parseEvaluationScore responseText = Some n
            /\ (0 <= mantissa n)%Z
            /\ (no_digit responseText -> n = {| mantissa := 5; exponent := 0 |}).
Proof.
  unfold parseEvaluationScore.
  destruct (exec flag_i scoreRegex responseText) as [m|] eqn:E.
  { destruct (score_of_defined _ _ _ _ E) as (n & Hn & H0); [vm_compute; auto|].
    exists n. split; [exact Hn|]. split; [exact H0|]. intro Hd.
    rewrite exec_digit in E; [discriminate|reflexivity|exact Hd]. }
  assert (forall rs, Forall (fun fr => In 1 (sure_groups (snd fr))
                                       /\ needs_digit (snd fr) = true) rs ->
                     exists n, first_score responseText rs = Some n
                               /\ (0 <= mantissa n)%Z
                               /\ (no_digit responseText ->
                                   n = {| mantissa := 5; exponent := 0 |})) as H.
  { induction 1 as [|[fl r] rs [Hin Hneed] _ IH]; cbn [first_score].
    - eexists. split; [reflexivity|]. split; [cbn; lia|reflexivity].
    - cbn [snd] in *. destruct (exec fl r responseText) as [m|] eqn:E'; [|exact IH].
      destruct (score_of_defined _ _ _ _ E' Hin) as (n & Hn & H0).
      exists n. split; [exact Hn|]. split; [exact H0|]. intro Hd.
      rewrite exec_digit in E'; [discriminate|exact Hneed|exact Hd]. }
  apply H. unfold altRegexes.
  repeat constructor; vm_compute; auto.
Qed.

(** ** parseQuizQuestions *)

Lemma questions_of_trimmed s ms : Forall (fun q => trim q = q) (questions_of s ms).
Proof.
  unfold questions_of. apply Forall_forall. intros q Hq. apply in_map_iff in Hq.
  destruct Hq as (m & <- & _). apply trim_idem.
Qed.

(** X19.  parseQuizQuestions either returns at least one question, each
    without white space at either end, or throws a ClaudeApiError of
    type parsing_error that is not retryable and has no status code; for
    a text that holds no digit it throws. *)
Theorem questions_or_parsing_error (responseText : jsstring) :
  match parseQuizQuestions responseText with
  | inl e => type e = parsing_error /\ retryable e = false /\ statusCode e = None
  | inr questions => questions <> [] /\ Forall (fun q => trim q = q) questions
  end
  /\ (no_digit responseText -> exists e, parseQuizQuestions responseText = inl e).
Proof.
  unfold parseQuizQuestions. split.
  - destruct (match_all flag_gs questionRegex responseText) as [|m ms] eqn:E.
    + destruct (match_all flag_gs altRegex responseText) as [|m ms] eqn:E'.
      * cbn. auto.
      * split; [discriminate|apply questions_of_trimmed].
    + split; [discriminate|apply questions_of_trimmed].
  - intro Hd. rewrite !match_all_digit by (try reflexivity; exact Hd). eauto.
Qed.

End ErrorFacts.

(** ** The retry loop *)

Section RetryLoopFacts.

Import Errors Retry Client.
Open Scope Q_scope.

Lemma backoff_at_most (config : RetryConfig) (n : nat) (random : Q) :
  0 <= maxDelayMs config -> 0 <= random < 1 ->
  calculateBackoff n config random <= 1.2 * maxDelayMs config.
Proof.
  intros Hmax [Hr0 Hr1]. rewrite calculateBackoff_eq.
  assert (delay n config <= maxDelayMs config) as Hd by (unfold delay; apply Q.le_min_r).
  destruct (Qlt_le_dec (delay n config) 0) as [Hneg|Hpos]; nra.
Qed.



Lemma retries_left_lt config n attempt :
  maxRetries config == inject_Z (Z.of_nat n) ->
  retries_left config attempt = true <-> (attempt < n)%nat.
Proof.
  intro Hn. unfold retries_left. rewrite negb_true_iff.
  destruct (Qle_bool _ _) eqn:E.
  - apply Qle_bool_iff in E. rewrite Hn, <- Zle_Qle in E. split; [discriminate|lia].
  - split; [intros _|reflexivity].
    destruct (Nat.lt_ge_cases attempt n) as [Hlt|Hge]; [exact Hlt|].
    assert (Qle_bool (maxRetries config) (inject_Z (Z.of_nat attempt)) = true) as E'.
    { apply Qle_bool_iff. rewrite Hn, <- Zle_Qle. lia. }
    congruence.
Qed.

Lemma attempts_from_spec {R} (call : nat -> R + thrown) random config (n : nat) :
  maxRetries config == inject_Z (Z.of_nat n) ->
  0 <= maxDelayMs config ->
  (forall i, 0 <= random i < 1) ->
  forall todo attempt lastError waits,
    (todo + attempt = S n)%nat -> (0 < todo)%nat ->
    let (result, waits') := attempts_from call random config todo attempt lastError waits in
    exists later,
      waits' = waits ++ later
      /\ (attempt + length later <= n)%nat
      /\ Forall (fun w => w <= 1.2 * maxDelayMs config) later
      /\ (forall i, (attempt <= i < attempt + length later)%nat -> fails_retryable call i)
      /\ match result with
         | inr response => call (attempt + length later)%nat = inl response
         | inl e => exists error, call (attempt + length later)%nat = inr error
                                  /\ e = handled error
                                  /\ (retryable e = false \/ (attempt + length later)%nat = n)
         end.
Proof.
  intros Hn Hmax Hrandom.
  intro todo. induction todo as [|todo IH]; intros attempt lastError waits Hsum Hpos; [lia|].
  cbn [attempts_from].
  destruct (call attempt) as [response|error] eqn:Ecall.
  - exists []. rewrite app_nil_r, Nat.add_0_r. cbn [length].
    split; [reflexivity|]. split; [lia|]. split; [constructor|].
    split; [intros i Hi; lia|exact Ecall].
  - fold (handled error).
    destruct (retryable (handled error)) eqn:Er; cbn [andb].
    + destruct (retries_left config attempt) eqn:El.
      * apply (retries_left_lt config n attempt Hn) in El.
        specialize (IH (S attempt) (Some (handled error))
                       (waits ++ [calculateBackoff attempt config (random attempt)])
                       ltac:(lia) ltac:(lia)).
        destruct (attempts_from call random config todo (S attempt) _ _) as [result waits'].
        destruct IH as (later & Hw & Hlen & Hall & Hfail & Hres).
        exists (calculateBackoff attempt config (random attempt) :: later).
        cbn [length]. rewrite <- app_assoc in Hw. cbn [app] in Hw.
        replace (attempt + S (length later))%nat with (S attempt + length later)%nat by lia.
        split; [exact Hw|]. split; [exact Hlen|]. split; [|split; [|exact Hres]].
        -- constructor; [|exact Hall].
           apply (backoff_at_most config attempt (random attempt) Hmax (Hrandom attempt)).
        -- intros i Hi. destruct (Nat.eq_dec i attempt) as [->|Hne].
           ++ exists error. split; [exact Ecall|exact Er].
           ++ apply Hfail. lia.
      * exists []. rewrite app_nil_r, Nat.add_0_r. cbn [length].
        split; [reflexivity|]. split; [lia|]. split; [constructor|].
        split; [intros i Hi; lia|].
        exists error. split; [exact Ecall|]. split; [reflexivity|]. right.
        destruct (Nat.lt_ge_cases attempt n) as [Hlt|Hge]; [|lia].
        apply (retries_left_lt config n attempt Hn) in Hlt. congruence.
    + exists []. rewrite app_nil_r, Nat.add_0_r. cbn [length].
      split; [reflexivity|]. split; [lia|]. split; [constructor|].
      split; [intros i Hi; lia|].
      exists error. split; [exact Ecall|]. split; [reflexivity|]. left. exact Er.
Qed.



End RetryLoopFacts.

(** ** The tokens of a conversation *)

Section MessageFacts.

Import Messages.
Open Scope Z_scope.

Lemma estimate_quotient text :
  Tokens.estimateTokenCount text = (Z.of_nat (length text) + 3) / 4.
Proof.
  unfold Tokens.estimateTokenCount. destruct text as [|c t]; [reflexivity|].
  set (n := Z.of_nat (length (c :: t))).
  unfold Qceiling, Qfloor, Qdiv, Qmult, Qinv, Qopp, inject_Z. cbn [Qnum Qden].
  change (Z.pos (1 * 4)) with 4. rewrite Z.mul_1_r.
  pose proof (Z.div_mod (- n) 4 ltac:(lia)) as H1.
  pose proof (Z.mod_pos_bound (- n) 4 ltac:(lia)) as H2.
  pose proof (Z.div_mod (n + 3) 4 ltac:(lia)) as H3.
  pose proof (Z.mod_pos_bound (n + 3) 4 ltac:(lia)) as H4.
  lia.
Qed.

Lemma fold_tokens messages : forall total,
  fold_left (fun totalTokens msg => totalTokens + Tokens.estimateTokenCount (content msg) + 4)
            messages total
  = total + fold_left (fun totalTokens msg =>
                         totalTokens + Tokens.estimateTokenCount (content msg) + 4)
                      messages 0.
Proof.
  induction messages as [|m ms IH]; intro total; cbn [fold_left]; [lia|].
  rewrite IH. rewrite (IH (0 + _ + 4)). lia.
Qed.

(** X22.  estimateMessageTokens counts the system overhead of 10 once
    (the estimate of two lists put together is the sum of their
    estimates minus 10), and for n messages it lies between the estimate
    of all contents concatenated plus 4n + 10 and that estimate plus 5n
    + 10: rounding up message by message adds at most one token a
    message. *)
Theorem message_tokens_bounds (a b : list Message) :
  estimateMessageTokens (a ++ b) = estimateMessageTokens a + estimateMessageTokens b - 10
  /\ let whole := concat (map content a) in
     let n := Z.of_nat (length a) in
     Tokens.estimateTokenCount whole + 4 * n + 10 <= estimateMessageTokens a
     <= Tokens.estimateTokenCount whole + 5 * n + 10.
Proof.
  unfold estimateMessageTokens. split.
  - rewrite fold_left_app, fold_tokens. lia.
  - cbv zeta. induction a as [|m a IH]; cbn [fold_left map concat length].
    + cbn. lia.
    + rewrite fold_tokens. rewrite !estimate_quotient in *. rewrite length_app.
      rewrite Nat2Z.inj_add, Nat2Z.inj_succ.
      set (x := Z.of_nat (length (content m))) in *.
      set (y := Z.of_nat (length (concat (map content a)))) in *.
      assert (0 <= x) by (unfold x; lia). assert (0 <= y) by (unfold y; lia).
      pose proof (Z.div_mod (x + 3) 4 ltac:(lia)).
      pose proof (Z.mod_pos_bound (x + 3) 4 ltac:(lia)).
      pose proof (Z.div_mod (y + 3) 4 ltac:(lia)).
      pose proof (Z.mod_pos_bound (y + 3) 4 ltac:(lia)).
      pose proof (Z.div_mod (x + y + 3) 4 ltac:(lia)).
      pose proof (Z.mod_pos_bound (x + y + 3) 4 ltac:(lia)).
      lia.
Qed.

End MessageFacts.

Section HashFacts.

Import EvaluationCache.
Open Scope Z_scope.

Lemma to_int32_wraps z : exists k, to_int32 z = z + k * 2 ^ 32.
Proof.
  unfold to_int32. exists (- ((z + 2 ^ 31) / 2 ^ 32)).
  pose proof (Z.div_mod (z + 2 ^ 31) (2 ^ 32) ltac:(lia)). lia.
Qed.

Lemma to_int32_plus z k : to_int32 (z + k * 2 ^ 32) = to_int32 z.
Proof.
  unfold to_int32. replace (z + k * 2 ^ 32 + 2 ^ 31) with (z + 2 ^ 31 + k * 2 ^ 32) by lia.
  rewrite Z_mod_plus_full. reflexivity.
Qed.

Lemma to_int32_range z : - 2 ^ 31 <= to_int32 z < 2 ^ 31.
Proof.
  unfold to_int32. pose proof (Z.mod_pos_bound (z + 2 ^ 31) (2 ^ 32) ltac:(lia)). lia.
Qed.

Lemma hash_step_polynomial h p c :
  h = to_int32 p -> hash_step h c = to_int32 (31 * p + Z.of_N c).
Proof.
  intros ->. unfold hash_step. cbv zeta.
  destruct (to_int32_wraps p) as (k & Hk).
  destruct (to_int32_wraps (to_int32 p * 32)) as (k' & Hk').
  rewrite Hk', Hk.
  replace ((p + k * 2 ^ 32) * 32 + k' * 2 ^ 32 - (p + k * 2 ^ 32) + Z.of_N c)
    with (31 * p + Z.of_N c + (31 * k + k') * 2 ^ 32) by ring.
  apply to_int32_plus.
Qed.

(** X23.  The number that simpleHash writes in base 36 is the polynomial
    of the code units in powers of 31, first code unit highest, wrapped
    to a signed 32-bit integer; it lies between -2^31 and 2^31 - 1. *)
Theorem simpleHash_polynomial (str : jsstring) :
  hash_value str = to_int32 (polynomial str)
  /\ simpleHash str = to_base36 (to_int32 (polynomial str))
  /\ - 2 ^ 31 <= hash_value str < 2 ^ 31.
Proof.
  assert (forall s h p, h = to_int32 p ->
                        fold_left hash_step s h
                        = to_int32 (fold_left (fun h c => 31 * h + Z.of_N c) s p)) as H.
  { induction s as [|c s IH]; intros h p Hh; cbn [fold_left]; [exact Hh|].
    apply IH. apply hash_step_polynomial. exact Hh. }
  assert (hash_value str = to_int32 (polynomial str)) as Hv.
  { unfold hash_value, polynomial. apply H. reflexivity. }
  split; [exact Hv|]. split; [unfold simpleHash; rewrite Hv; reflexivity|].
  rewrite Hv. apply to_int32_range.
Qed.

End HashFacts.

(** ** The order of the expected elements *)

Section SortFacts.

Import EvaluationCache.

Lemma leb_total a : forall b, leb a b = false -> leb b a = true.
Proof.
  induction a as [|x a IH]; intros [|y b] H; cbn [leb] in *; try discriminate; try reflexivity.
  apply orb_false_iff in H. destruct H as [Hlt Hr].
  destruct (N.ltb_spec y x) as [|Hge]; [reflexivity|]. cbn [orb].
  apply N.ltb_ge in Hlt.
  assert (x = y) as -> by lia. rewrite N.eqb_refl in *. cbn [andb] in *. apply IH. exact Hr.
Qed.

Lemma leb_antisym a : forall b, leb a b = true -> leb b a = true -> a = b.
Proof.
  induction a as [|x a IH]; intros [|y b] H1 H2; cbn [leb] in *; try discriminate;
    try reflexivity.
  apply orb_true_iff in H1. apply orb_true_iff in H2.
  rewrite !andb_true_iff, !N.ltb_lt, !N.eqb_eq in *.
  destruct H1 as [H1|[H1 H1']], H2 as [H2|[H2 H2']]; try lia.
  subst y. f_equal. apply IH; assumption.
Qed.

Lemma leb_trans a : forall b c, leb a b = true -> leb b c = true -> leb a c = true.
Proof.
  induction a as [|x a IH]; intros [|y b] [|z c] H1 H2; cbn [leb] in *; try discriminate;
    try reflexivity.
  apply orb_true_iff in H1. apply orb_true_iff in H2. apply orb_true_iff.
  rewrite !andb_true_iff, !N.ltb_lt, !N.eqb_eq in *.
  destruct H1 as [H1|[H1 H1']], H2 as [H2|[H2 H2']]; try (left; lia).
  right. split; [lia|]. eapply IH; eassumption.
Qed.

Lemma insert_insert x y l : insert x (insert y l) = insert y (insert x l).
Proof.
  induction l as [|h l IH]; cbn [insert].
  - destruct (leb x y) eqn:Exy, (leb y x) eqn:Eyx; try reflexivity.
    + rewrite (leb_antisym x y Exy Eyx). reflexivity.
    + apply leb_total in Exy. congruence.
  - destruct (leb y h) eqn:Eyh, (leb x h) eqn:Exh; cbn [insert]; rewrite ?Eyh, ?Exh.
    + destruct (leb x y) eqn:Exy, (leb y x) eqn:Eyx; try reflexivity.
      * rewrite (leb_antisym x y Exy Eyx). reflexivity.
      * apply leb_total in Exy. congruence.
    + destruct (leb x y) eqn:Exy; [|reflexivity].
      rewrite (leb_trans x y h Exy Eyh) in Exh. discriminate.
    + destruct (leb y x) eqn:Eyx; [|reflexivity].
      rewrite (leb_trans y x h Eyx Exh) in Eyh. discriminate.
    + rewrite IH. reflexivity.
Qed.

Lemma sort_permutation l l' : Permutation l l' -> sort l = sort l'.
Proof.
  unfold sort. induction 1 as [|x l l' _ IH|x y l|l l' l'' _ IH1 _ IH2]; cbn [fold_right].
  - reflexivity.
  - rewrite IH. reflexivity.
  - apply insert_insert.
  - congruence.
Qed.

Lemma insert_sorted x l :
  StronglySorted (fun a b => leb a b = true) l ->
  StronglySorted (fun a b => leb a b = true) (insert x l).
Proof.
  induction 1 as [|h l Hs IH Hall]; cbn [insert].
  - repeat constructor.
  - destruct (leb x h) eqn:E.
    + constructor; [constructor; assumption|]. constructor; [exact E|].
      eapply Forall_impl; [|exact Hall]. intros b Hb. eapply leb_trans; eassumption.
    + constructor; [exact IH|]. apply leb_total in E.
      clear IH Hs. induction Hall as [|b l Hb Hl IHl]; cbn [insert].
      * repeat constructor. exact E.
      * destruct (leb x b); repeat constructor; auto.
Qed.

Lemma sort_sorted l : StronglySorted (fun a b => leb a b = true) (sort l).
Proof.
  induction l as [|x l IH]; cbn [sort fold_right]; [constructor|].
  apply insert_sorted. exact IH.
Qed.

Lemma insert_permutation x l : Permutation (x :: l) (insert x l).
Proof.
  induction l as [|h l IH]; cbn [insert]; [reflexivity|].
  destruct (leb x h); [reflexivity|].
  etransitivity; [apply perm_swap|]. apply perm_skip. exact IH.
Qed.

Lemma sort_is_permutation l : Permutation l (sort l).
Proof.
  induction l as [|x l IH]; cbn [sort fold_right]; [reflexivity|].
  etransitivity; [apply perm_skip; exact IH|]. apply insert_permutation.
Qed.

(** X24.  generateCacheKey does not depend on the order of the expected
    elements, nor on the white space around the response, the question
    and each element. *)
Theorem cache_key_order (toLowerCase : jsstring -> jsstring)
        (userResponse question : jsstring) (expectedElements elements' : list jsstring)
        (questionType : EvaluationPromptType) :
  Permutation expectedElements elements' ->
  generateCacheKey toLowerCase userResponse question expectedElements questionType
  = generateCacheKey toLowerCase (trim userResponse) (trim question) (map trim elements')
                     questionType.
Proof.
  intro Hp. unfold generateCacheKey. cbv zeta. rewrite !trim_idem.
  rewrite map_map.
  rewrite (map_ext (fun x => toLowerCase (trim (trim x))) (fun e => toLowerCase (trim e)))
    by (intro; rewrite trim_idem; reflexivity).
  rewrite (sort_permutation _ _ (Permutation_map _ Hp)). reflexivity.
Qed.

(** Two elements in either order, with and without white space around. *)
Lemma cache_key_order_witness :
  Permutation [js "light"; js "Chloroplast "] [js "Chloroplast "; js "light"]
  /\ generateCacheKey JsString.toLowerCase (js " In the leaves ") (js "Where?")
                      [js "light"; js "Chloroplast "] FACTUAL
     = generateCacheKey JsString.toLowerCase (js "In the leaves") (js "Where?")
                        [js "Chloroplast"; js "light"] FACTUAL.
Proof.
  assert (Permutation [js "light"; js "Chloroplast "] [js "Chloroplast "; js "light"]) as Hp
    by apply perm_swap.
  split; [exact Hp|].
  exact (cache_key_order JsString.toLowerCase (js " In the leaves ") (js "Where?") _ _
                         FACTUAL Hp).
Defined.

End SortFacts.

(** ** The entries of the cache *)

Section CacheFacts.

Import EvaluationCache.

Context {data : Type}.
Variable cacheExpiry : Q.

Lemma eqb_refl a : JsString.eqb a a = true.
Proof. apply eqb_eq. reflexivity. Qed.

Lemma map_get_set_same (c : cache data) key v : map_get (map_set c key v) key = Some v.
Proof.
  induction c as [|[k w] c IH]; cbn [map_set map_get].
  - rewrite eqb_refl. reflexivity.
  - destruct (JsString.eqb k key) eqn:E; cbn [map_get]; rewrite E; [reflexivity|exact IH].
Qed.

Lemma map_get_set_other (c : cache data) key v k' :
  JsString.eqb key k' = false -> map_get (map_set c key v) k' = map_get c k'.
Proof.
  intro Hne. induction c as [|[k w] c IH]; cbn [map_set map_get].
  - rewrite Hne. reflexivity.
  - destruct (JsString.eqb k key) eqn:E; cbn [map_get].
    + apply eqb_eq in E. subst k. rewrite Hne. reflexivity.
    + rewrite IH. reflexivity.
Qed.

Lemma map_get_filter (p : jsstring * item data -> bool) (c : cache data) key :
  map_get (filter p c) key
  = match map_get c key with
    | Some v => if p (key, v) then Some v else map_get (filter p c) key
    | None => None
    end.
Proof.
  induction c as [|[k w] c IH]; cbn [filter map_get]; [reflexivity|].
  destruct (JsString.eqb k key) eqn:E.
  - apply eqb_eq in E. subst k. destruct (p (key, w)) eqn:Ep; cbn [map_get].
    + rewrite eqb_refl. reflexivity.
    + reflexivity.
  - destruct (p (k, w)); cbn [map_get]; rewrite ?E; exact IH.
Qed.

Lemma map_get_delete_same (c : cache data) key : map_get (map_delete c key) key = None.
Proof.
  unfold map_delete. induction c as [|[k w] c IH]; cbn [filter map_get fst]; [reflexivity|].
  destruct (JsString.eqb k key) eqn:E; cbn [negb map_get]; rewrite ?E; exact IH.
Qed.

Lemma map_get_delete_other (c : cache data) key k' :
  JsString.eqb key k' = false -> map_get (map_delete c key) k' = map_get c k'.
Proof.
  intro Hne. unfold map_delete.
  induction c as [|[k w] c IH]; cbn [filter map_get fst]; [reflexivity|].
  destruct (JsString.eqb k key) eqn:E; cbn [negb map_get].
  - apply eqb_eq in E. subst k. rewrite Hne. exact IH.
  - rewrite IH. reflexivity.
Qed.

Lemma expired_fresh now (kv : jsstring * item data) :
  expired cacheExpiry now (snd kv) = false <-> fresh cacheExpiry now kv.
Proof.
  unfold expired, fresh. rewrite negb_false_iff. apply Qle_bool_iff.
Qed.

Lemma map_get_In (c : cache data) key v :
  map_get c key = Some v -> In (key, v) c.
Proof.
  induction c as [|[k w] c IH]; cbn [map_get]; [discriminate|].
  destruct (JsString.eqb k key) eqn:E.
  - apply eqb_eq in E. subst k. intro H. injection H as ->. left. reflexivity.
  - intro H. right. apply IH. exact H.
Qed.

Lemma map_get_None (c : cache data) key :
  ~ In key (map fst c) -> map_get c key = None.
Proof.
  induction c as [|[k w] c IH]; cbn [map_get map fst In]; [reflexivity|].
  intro H. destruct (JsString.eqb k key) eqn:E.
  - apply eqb_eq in E. exfalso. apply H. left. exact E.
  - apply IH. intro Hin. apply H. right. exact Hin.
Qed.

Lemma In_keys_filter (p : jsstring * item data -> bool) (c : cache data) key :
  In key (map fst (filter p c)) -> In key (map fst c).
Proof.
  intro H. apply in_map_iff in H. destruct H as (kv & Hk & Hin).
  apply filter_In in Hin. apply in_map_iff. exists kv. tauto.
Qed.

Lemma NoDup_keys_filter (p : jsstring * item data -> bool) (c : cache data) :
  NoDup (map fst c) -> NoDup (map fst (filter p c)).
Proof.
  induction c as [|[k w] c IH]; cbn [filter map fst]; [auto|].
  intro H. inversion H as [|? ? Hnot Hrest]; subst.
  destruct (p (k, w)); cbn [map fst]; [|auto].
  constructor; [|auto]. intro Hin. apply Hnot. eapply In_keys_filter. exact Hin.
Qed.

Lemma In_keys_set (c : cache data) key v k' :
  In k' (map fst (map_set c key v)) -> k' = key \/ In k' (map fst c).
Proof.
  induction c as [|[k w] c IH]; cbn [map_set map fst In].
  - intros [H|[]]; auto.
  - destruct (JsString.eqb k key) eqn:E; cbn [map fst In]; [tauto|].
    intros [H|H]; [tauto|]. apply IH in H. tauto.
Qed.

Lemma NoDup_keys_set (c : cache data) key v :
  NoDup (map fst c) -> NoDup (map fst (map_set c key v)).
Proof.
  induction c as [|[k w] c IH]; cbn [map_set map fst].
  - intros _. repeat constructor. intros [].
  - intro H. inversion H as [|? ? Hnot Hrest]; subst.
    destruct (JsString.eqb k key) eqn:E; cbn [map fst]; [exact H|].
    constructor; [|auto]. intro Hin. apply In_keys_set in Hin. destruct Hin as [->|Hin].
    + rewrite eqb_refl in E. discriminate.
    + contradiction.
Qed.

Lemma map_get_filter_once (p : jsstring * item data -> bool) (c : cache data) key :
  NoDup (map fst c) ->
  map_get (filter p c) key
  = match map_get c key with
    | Some v => if p (key, v) then Some v else None
    | None => None
    end.
Proof.
  induction c as [|[k w] c IH]; cbn [filter map_get map fst]; [reflexivity|].
  intro H. inversion H as [|? ? Hnot Hrest]; subst.
  destruct (JsString.eqb k key) eqn:E.
  - apply eqb_eq in E. subst k. destruct (p (key, w)) eqn:Ep; cbn [map_get].
    + rewrite eqb_refl. reflexivity.
    + apply map_get_None. intro Hin. apply Hnot. eapply In_keys_filter. exact Hin.
  - destruct (p (k, w)); cbn [map_get]; rewrite ?E; apply IH; exact Hrest.
Qed.

(** X25.  In a cache without a key twice: after saveToCache(key, data),
    getFromCache(key) returns data and leaves the cache as it is,
    provided the entry is not expired at the time of the cleaning that
    follows the save nor at the time of the read. Every other key then
    reads what it read before the save if its entry is not expired at
    the time of the cleaning, and null if it is. No key comes twice
    afterwards. *)
Theorem cache_round_trip (now later read : Z) (key : jsstring) (d : data) (c : cache data) :
  NoDup (map fst c) ->
  fresh cacheExpiry later (key, {| timestamp := now; data_of := d |}) ->
  fresh cacheExpiry read (key, {| timestamp := now; data_of := d |}) ->
  let saved := saveToCache cacheExpiry now later key d c in
  getFromCache cacheExpiry read key saved = (Some d, saved)
  /\ (forall key', JsString.eqb key key' = false ->
                   map_get saved key'
                   = match map_get c key' with
                     | Some it => if expired cacheExpiry later it then None else Some it
                     | None => None
                     end)
  /\ NoDup (map fst saved).
Proof.
  intros Hc Hlater Hread saved.
  pose proof (NoDup_keys_set c key {| timestamp := now; data_of := d |} Hc) as Hset.
  split; [|split].
  - unfold getFromCache, saved, saveToCache, cleanCache.
    rewrite (map_get_filter_once _ _ _ Hset), map_get_set_same. cbn [snd].
    apply expired_fresh in Hlater. apply expired_fresh in Hread. cbn [snd] in *.
    rewrite Hlater. cbn [negb]. rewrite Hread. reflexivity.
  - intros key' Hne. unfold saved, saveToCache, cleanCache.
    rewrite (map_get_filter_once _ _ _ Hset), (map_get_set_other c key _ key' Hne).
    destruct (map_get c key') as [it|]; [|reflexivity]. cbn [snd].
    destruct (expired cacheExpiry later it); reflexivity.
  - apply NoDup_keys_filter. exact Hset.
Qed.

(** X26.  getFromCache never serves an expired entry: what it returns is
    the data of an entry of the cache that is not expired at the time of
    the read, and then the cache is left as it is; when it returns null,
    no entry is left under the key and every other key reads as before.
    After saveToCache, no entry of the cache is expired at the time of
    its cleaning. *)
Theorem cache_never_stale (now later : Z) (key : jsstring) (d : data) (c : cache data) :
  match getFromCache cacheExpiry now key c with
  | (Some found, c') =>
      c' = c
      /\ exists it, In (key, it) c /\ data_of it = found /\ fresh cacheExpiry now (key, it)
  | (None, c') =>
      map_get c' key = None
      /\ forall key', JsString.eqb key key' = false -> map_get c' key' = map_get c key'
  end
  /\ Forall (fresh cacheExpiry later) (saveToCache cacheExpiry now later key d c).
Proof.
  split.
  - unfold getFromCache. destruct (map_get c key) as [it|] eqn:E.
    + destruct (expired cacheExpiry now it) eqn:Ex.
      * split; [apply map_get_delete_same|]. intros key' Hne.
        apply map_get_delete_other. exact Hne.
      * split; [reflexivity|]. exists it. split; [apply map_get_In; exact E|].
        split; [reflexivity|]. apply (expired_fresh now (key, it)). exact Ex.
    + split; [exact E|]. reflexivity.
  - unfold saveToCache, cleanCache. apply Forall_forall. intros kv Hin.
    apply filter_In in Hin. destruct Hin as [_ Hin]. apply negb_true_iff in Hin.
    apply expired_fresh. exact Hin.
Qed.

End CacheFacts.

(** An entry saved at 0 and read one hour later, under the expiry of
    sixty minutes. *)
Lemma cache_round_trip_witness :
  fresh 60 3600000 (js "k", {| EvaluationCache.timestamp := 0; EvaluationCache.data_of := tt |})
  /\ EvaluationCache.getFromCache 60 3600000 (js "k")
       (EvaluationCache.saveToCache 60 0 5 (js "k") tt [])
     = (Some tt, EvaluationCache.saveToCache 60 0 5 (js "k") tt []).
Proof.
  assert (fresh 60 3600000
                (js "k", {| EvaluationCache.timestamp := 0; EvaluationCache.data_of := tt |}))
    as Hread by (unfold fresh; cbn; discriminate).
  split; [exact Hread|].
  refine (proj1 (cache_round_trip 60 0 5 3600000 (js "k") tt [] (NoDup_nil _) _ Hread)).
  unfold fresh. cbn. discriminate.
Defined.

Section KeyTermFacts.

Import Preprocessor.

Lemma Forall_replace_value_at (P : jsstring * json -> Prop) o k v :
  Forall P o -> P (k, v) -> Forall P (replace_value o k v).
Proof.
  intros H Hv. induction H as [|[k0 w] o Hk Ho IH]; cbn [replace_value]; [constructor|].
  destruct (JsString.eqb k0 k) eqn:E; constructor; auto.
  apply eqb_eq in E. subst k0. exact Hv.
Qed.

Lemma Forall_assign_at (P : jsstring * json -> Prop) o k v :
  Forall P o -> P (k, v) -> Forall P (assign o k v).
Proof.
  intros H Hv. unfold assign. destruct (_ && _); [exact H|].
  unfold define. destruct (has_key o k).
  - apply Forall_replace_value_at; assumption.
  - destruct (array_index k).
    + apply Forall_insert_index; assumption.
    + apply Forall_app. auto.
Qed.

Lemma add_term_key_terms content acc m acc' :
  add_term content (Returns acc) m = Returns acc' ->
  Forall key_term acc -> Forall key_term acc'.
Proof.
  unfold add_term. cbn [bind]. intros H Hacc.
  destruct (group content m 1) as [t| |]; try discriminate. cbn [bind] in H.
  destruct (group content m 2) as [d| |]; try discriminate. cbn [bind] in H.
  cbv zeta in H.
  destruct ((0 <? length (trim t)) && (0 <? length (trim d)) && (3 <? length (trim t)))
    eqn:E; injection H as <-; [|exact Hacc].
  apply andb_true_iff in E. destruct E as [E E3].
  apply andb_true_iff in E. destruct E as [_ Ed].
  apply Nat.ltb_lt in E3. apply Nat.ltb_lt in Ed.
  apply Forall_assign_at; [exact Hacc|].
  unfold key_term. cbn [fst snd]. split; [exact E3|]. split; [apply trim_idem|].
  exists (trim d). split; [reflexivity|]. split; [|apply trim_idem].
  intro E0. rewrite E0 in Ed. cbn in Ed. lia.
Qed.

Lemma fold_add_term_key_terms content ms : forall acc acc',
  fold_left (add_term content) ms (Returns acc) = Returns acc' ->
  Forall key_term acc -> Forall key_term acc'.
Proof.
  induction ms as [|m ms IH]; intros acc acc' H Hacc; cbn [fold_left] in H.
  - injection H as <-. exact Hacc.
  - destruct (add_term content (Returns acc) m) as [acc1| |] eqn:E.
    + eapply IH; [exact H|]. eapply add_term_key_terms; eassumption.
    + exfalso. clear -H. induction ms as [|m' ms IH]; cbn [fold_left] in H;
        [discriminate|apply IH; exact H].
    + exfalso. clear -H. induction ms as [|m' ms IH]; cbn [fold_left] in H;
        [discriminate|apply IH; exact H].
Qed.

Lemma fold_add_pattern_key_terms content ps : forall acc acc',
  fold_left (add_pattern content) ps (Returns acc) = Returns acc' ->
  Forall key_term acc -> Forall key_term acc'.
Proof.
  induction ps as [|p ps IH]; intros acc acc' H Hacc; cbn [fold_left] in H.
  - injection H as <-. exact Hacc.
  - destruct (add_pattern content (Returns acc) p) as [acc1| |] eqn:E.
    + eapply IH; [exact H|]. unfold add_pattern in E. cbn [bind] in E.
      destruct (exec_all flag_i p content) as [ms|]; [|discriminate].
      eapply fold_add_term_key_terms; eassumption.
    + exfalso. clear -H. induction ps as [|p' ps IH]; cbn [fold_left] in H;
        [discriminate|apply IH; exact H].
    + exfalso. clear -H. induction ps as [|p' ps IH]; cbn [fold_left] in H;
        [discriminate|apply IH; exact H].
Qed.

(** X27.  extractKeyTerms terminates on every content, and every term it
    returns has more than three characters and a definition that is a
    non-empty string, both without white space at either end. *)
Theorem key_terms_admitted (content : jsstring) :
  exists terms, extractKeyTerms content = Returns terms /\ Forall key_term terms.
Proof.
  destruct (extractKeyTerms_returns content) as (terms & H).
  exists terms. split; [exact H|].
  unfold extractKeyTerms in H. eapply fold_add_pattern_key_terms; [exact H|constructor].
Qed.

End KeyTermFacts.

Section StorageFacts.

Import QuizStorage.

Lemma find_filter_other (p q : StoredQuiz -> bool) l :
  (forall x, p x = true -> q x = true) -> find p (filter q l) = find p l.
Proof.
  intro H. induction l as [|x l IH]; cbn [filter find]; [reflexivity|].
  destruct (q x) eqn:Eq; cbn [find].
  - rewrite IH. reflexivity.
  - destruct (p x) eqn:Ep; [|exact IH]. rewrite (H x Ep) in Eq. discriminate.
Qed.

Lemma find_filter_none (p : StoredQuiz -> bool) l : find p (filter (fun x => negb (p x)) l) = None.
Proof.
  induction l as [|x l IH]; cbn [filter find]; [reflexivity|].
  destruct (p x) eqn:Ep; cbn [negb find]; rewrite ?Ep; exact IH.
Qed.

Lemma filter_length_all (p : StoredQuiz -> bool) l :
  length (filter p l) = length l <-> forall x, In x l -> p x = true.
Proof.
  induction l as [|x l IH]; cbn [filter length].
  - split; [intros _ y []|reflexivity].
  - pose proof (filter_length_le p l) as Hle. destruct (p x) eqn:Ep; cbn [length].
    + split.
      * intros H y [<-|Hy]; [exact Ep|]. apply IH; [lia|exact Hy].
      * intro H. f_equal. apply IH. intros y Hy. apply H. right. exact Hy.
    + split; [lia|]. intro H. rewrite (H x (or_introl eq_refl)) in Ep. discriminate.
Qed.

(** X28.  When the write to the storage goes through, saveQuiz returns
    the stored quiz with the generated id and the questions of the quiz;
    afterwards it is the first of the stored quizzes and the one that
    getQuizById finds by its id and getQuizByUrl by its url, and at most
    50 quizzes are stored: the new one and the first 49 of those read
    before. When the read of the storage fails and the write does not,
    the new quiz is all that is left in the storage. *)
Theorem saved_quiz_found (timestamp : Z) (random created updated : jsstring) (env : chrome)
        (quiz : QuizParser.Quiz) (options : SaveQuizOptions) (st : storage) :
  set_resolves env = true ->
  exists stored st',
    saveQuiz timestamp random created updated env quiz options st = (inr stored, st')
    /\ quiz_id stored = generateQuizId timestamp random
    /\ stored_questions stored = QuizParser.questions quiz
    /\ getStoredQuizzes working st'
       = stored :: firstn (MAX_STORED_QUIZZES - 1) (getStoredQuizzes env st)
    /\ getQuizById working (quiz_id stored) st' = Some stored
    /\ getQuizByUrl working (options_url options) st' = Some stored
    /\ length (getStoredQuizzes working st') <= MAX_STORED_QUIZZES
    /\ (get_resolves env = false -> st' = Some [stored]).
Proof.
  intro Hset. unfold saveQuiz. cbv zeta. rewrite Hset.
  change MAX_STORED_QUIZZES with (S 49). rewrite firstn_cons. change (S 49 - 1) with 49.
  eexists. eexists. split; [reflexivity|]. split; [reflexivity|]. split; [reflexivity|].
  split; [reflexivity|]. split; [|split].
  - unfold getQuizById, getStoredQuizzes, working. cbn [get_resolves find quiz_id].
    rewrite eqb_refl. reflexivity.
  - unfold getQuizByUrl, getStoredQuizzes, working. cbn [get_resolves find url].
    rewrite eqb_refl. reflexivity.
  - split.
    + unfold getStoredQuizzes at 1, working. cbn [get_resolves length].
      pose proof (firstn_le_length 49 (getStoredQuizzes env st)). lia.
    + intro Hget. unfold getStoredQuizzes. rewrite Hget. reflexivity.
Qed.

(** The read fails: the quiz stored before is lost. *)
Lemma saved_quiz_found_witness :
  set_resolves unreadable = true
  /\ exists stored,
       saveQuiz 0 (js "abcdef") (js "2024-01-01T00:00:00.000Z") (js "2024-01-01T00:00:00.000Z")
                unreadable empty_quiz article (Some [old_quiz])
       = (inr stored, Some [stored])
       /\ quiz_id stored = js "quiz_0_abcdef".
Proof.
  split; [reflexivity|].
  destruct (saved_quiz_found 0 (js "abcdef") (js "2024-01-01T00:00:00.000Z")
                             (js "2024-01-01T00:00:00.000Z") unreadable empty_quiz article
                             (Some [old_quiz]) eq_refl)
    as (stored & st' & Hsave & Hid & _ & _ & _ & _ & _ & Hwipe).
  exists stored. rewrite Hsave, (Hwipe eq_refl). split; [reflexivity|].
  rewrite Hid. vm_compute. reflexivity.
Defined.

(** X29.  deleteQuiz returns true exactly when a stored quiz has the id
    and the write goes through; then getQuizById finds nothing under
    that id, and every other id finds what it found before. When it
    returns false the storage is as it was. *)
Theorem deleted_quiz_gone (env : chrome) (id : jsstring) (st : storage) :
  let (deleted, st') := deleteQuiz env id st in
  (deleted = true
   <-> set_resolves env = true
       /\ exists quiz, In quiz (getStoredQuizzes env st) /\ quiz_id quiz = id)
  /\ (deleted = true ->
      getQuizById working id st' = None
      /\ forall id', JsString.eqb id id' = false ->
                     getQuizById working id' st' = getQuizById env id' st)
  /\ (deleted = false -> st' = st).
Proof.
  unfold deleteQuiz. cbv zeta.
  set (keep := fun quiz => negb (JsString.eqb (quiz_id quiz) id)).
  destruct (Nat.eqb_spec (length (filter keep (getStoredQuizzes env st)))
                         (length (getStoredQuizzes env st))) as [Hall|Hsome].
  - split; [|split; [discriminate|reflexivity]].
    split; [discriminate|]. intros (_ & quiz & Hin & Hid). exfalso.
    apply (proj1 (filter_length_all keep _)) with (x := quiz) in Hall; [|exact Hin].
    unfold keep in Hall. rewrite Hid, eqb_refl in Hall. discriminate.
  - assert (exists quiz, In quiz (getStoredQuizzes env st) /\ quiz_id quiz = id) as Hex.
    { clear -Hsome. induction (getStoredQuizzes env st) as [|x l IH]; [contradiction Hsome; reflexivity|].
      cbn [filter length] in Hsome. unfold keep in Hsome at 1.
      destruct (JsString.eqb (quiz_id x) id) eqn:E.
      - exists x. split; [left; reflexivity|apply eqb_eq; exact E].
      - cbn [negb length] in Hsome. destruct IH as (q & Hq & Hid); [lia|].
        exists q. split; [right; exact Hq|exact Hid]. }
    destruct (set_resolves env) eqn:Hset.
    + split; [split; [auto|reflexivity]|]. split; [|discriminate]. intros _.
      unfold getQuizById. cbn [getStoredQuizzes working get_resolves]. split.
      * apply (find_filter_none (fun quiz => JsString.eqb (quiz_id quiz) id)).
      * intros id' Hne. apply find_filter_other. intros x Hx. unfold keep.
        apply eqb_eq in Hx. subst id'.
        destruct (JsString.eqb (quiz_id x) id) eqn:E; [|reflexivity].
        apply eqb_eq in E. subst id. rewrite eqb_refl in Hne. discriminate.
    + split; [|split; [discriminate|reflexivity]].
      split; [discriminate|]. intros (H & _). discriminate.
Qed.

Lemma findIndex_spec (p : StoredQuiz -> bool) v l :
  match findIndex p l with
  | None => find p l = None
  | Some i =>
      exists old, nth_error l i = Some old /\ find p l = Some old
                  /\ nth_error (replace_at i v l) i = Some v
                  /\ length (replace_at i v l) = length l
                  /\ (p v = true -> find p (replace_at i v l) = Some v)
  end.
Proof.
  induction l as [|x l IH]; cbn [findIndex find]; [reflexivity|].
  destruct (p x) eqn:E.
  - exists x. cbn [nth_error replace_at length find]. repeat split; auto.
    intros ->. reflexivity.
  - destruct (findIndex p l) as [i|]; cbn [option_map]; [|exact IH].
    destruct IH as (old & Hn & Hf & Hr & Hl & Hp).
    exists old. cbn [nth_error replace_at length find]. rewrite E.
    repeat split; auto.
Qed.

(** X30.  When updateQuiz returns a quiz, it is the first stored quiz
    with the id, with the updates applied and updatedAt set to the time
    of the call whatever updatedAt the updates carry; as many quizzes
    are stored as before, and the id finds the new quiz when the updates
    leave the id alone. When it returns null the storage is as it was. *)
Theorem updated_quiz_stored (now : jsstring) (env : chrome) (id : jsstring)
        (updates : Updates) (st : storage) :
  let (result, st') := updateQuiz now env id updates st in
  match result with
  | None => st' = st
  | Some quiz =>
      updatedAt quiz = now
      /\ (exists old, getQuizById env id st = Some old
                      /\ quiz = updated_quiz old updates now)
      /\ length (getStoredQuizzes working st') = length (getStoredQuizzes env st)
      /\ (new_id updates = None -> getQuizById working id st' = Some quiz)
  end.
Proof.
  unfold updateQuiz. cbv zeta.
  set (has_id := fun quiz => JsString.eqb (quiz_id quiz) id).
  destruct (findIndex has_id (getStoredQuizzes env st)) as [i|] eqn:Ei; [|reflexivity].
  destruct (nth_error (getStoredQuizzes env st) i) as [old|] eqn:Eo; [|reflexivity].
  destruct (set_resolves env); [|reflexivity].
  pose proof (findIndex_spec has_id (updated_quiz old updates now) (getStoredQuizzes env st))
    as H.
  rewrite Ei in H. destruct H as (old' & Hn & Hf & Hr & Hl & Hp).
  assert (old' = old) as -> by congruence.
  rewrite Hr. split; [reflexivity|]. split; [exists old; split; [exact Hf|reflexivity]|].
  unfold getQuizById. cbn [getStoredQuizzes working get_resolves].
  split; [exact Hl|]. intro Hid. apply Hp. unfold has_id. cbn [updated_quiz quiz_id].
  rewrite Hid. cbn [QuizParser.default]. apply find_some in Hf. exact (proj2 Hf).
Qed.

End StorageFacts.
